(** * CoreTiming: the emulator's event scheduler

    A shallow embedding of [Source/Core/Core/CoreTiming.cpp] and the
    properties of its event queue, slice bookkeeping, event registry and
    save-state loader. *)

From stdpp Require Import gmap strings list fin_maps.
From Stdlib Require Import ZArith Lia Sorted.

(** ** Fixed-width integers

    [s64], [u64], [s32] and [u32] values are integers of [Z]; every
    arithmetic result is reduced to its width explicitly. *)

Definition wrap64u (z : Z) : Z := (z mod 2 ^ 64)%Z.
Definition wrap64s (z : Z) : Z := ((z + 2 ^ 63) mod 2 ^ 64 - 2 ^ 63)%Z.
Definition wrap32s (z : Z) : Z := ((z + 2 ^ 31) mod 2 ^ 32 - 2 ^ 31)%Z.

Definition in_s64 (z : Z) : Prop := (- 2 ^ 63 <= z < 2 ^ 63)%Z.
Definition in_u64 (z : Z) : Prop := (0 <= z < 2 ^ 64)%Z.
Definition in_s32 (z : Z) : Prop := (- 2 ^ 31 <= z < 2 ^ 31)%Z.

(** ** The heap algorithms of <algorithm>

    [std::push_heap], [std::pop_heap] and [std::make_heap] over a
    random-access range, for an arbitrary element type and comparator
    [comp].  The C++ standard fixes their contract and leaves the layout
    to the implementation; the definitions below are the binary-heap
    algorithms over array indices (parent [(i-1)/2], children [2i+1] and
    [2i+2]).  With [comp x y] read as "x is ordered after y", the range
    is a heap when no parent is ordered after one of its children.  The
    scheduler's properties are derived from the contract alone: the
    result is a rearrangement of the range, and a heap. *)

Section StdHeap.
Context {A : Type}.
Variable comp : A -> A -> bool.

Definition heap_parent (i : nat) : nat := (i - 1) / 2.

(** [std::is_heap]. *)
Definition is_heapb (l : list A) : bool :=
  forallb
    (fun j =>
       match l !! heap_parent j, l !! j with
       | Some p, Some c => negb (comp p c)
       | _, _ => true
       end)
    (seq 1 (length l - 1)).

Definition is_heap (l : list A) : Prop := is_heapb l = true.

Definition swap (l : list A) (i j : nat) : list A :=
  match l !! i, l !! j with
  | Some x, Some y => <[i := y]> (<[j := x]> l)
  | _, _ => l
  end.

(** Move the element at [i] towards the root while its parent is ordered
    after it. *)
Fixpoint sift_up (fuel : nat) (l : list A) (i : nat) : list A :=
  match fuel with
  | O => l
  | S fuel' =>
      match i with
      | O => l
      | S _ =>
          match l !! heap_parent i, l !! i with
          | Some p, Some c =>
              if comp p c
              then sift_up fuel' (swap l (heap_parent i) i) (heap_parent i)
              else l
          | _, _ => l
          end
      end
  end.

(** The child of [i] that is not ordered after its sibling. *)
Definition first_child (l : list A) (i : nat) : option (nat * A) :=
  match l !! (2 * i + 1) with
  | None => None
  | Some c1 =>
      match l !! (2 * i + 2) with
      | Some c2 => if comp c1 c2 then Some (2 * i + 2, c2) else Some (2 * i + 1, c1)
      | None => Some (2 * i + 1, c1)
      end
  end.

(** Move the element at [i] towards the leaves while it is ordered after
    one of its children. *)
Fixpoint sift_down (fuel : nat) (l : list A) (i : nat) : list A :=
  match fuel with
  | O => l
  | S fuel' =>
      match l !! i, first_child l i with
      | Some x, Some (j, c) =>
          if comp x c then sift_down fuel' (swap l i j) j else l
      | _, _ => l
      end
  end.

(** [std::push_heap(first, last, comp)]: [first, last-1) is a heap and the
    element at [last-1] is placed into it. *)
Definition push_heap (l : list A) : list A :=
  sift_up (length l) l (length l - 1).

(** [std::pop_heap(first, last, comp)]: the first element is moved to
    [last-1] and [first, last-1) is made a heap again. *)
Definition pop_heap (l : list A) : list A :=
  match l with
  | [] => []
  | top :: _ =>
      let body := <[0 := List.last l top]> (removelast l) in
      sift_down (length body) body 0 ++ [top]
  end.

Fixpoint heapify (k : nat) (l : list A) : list A :=
  match k with
  | O => l
  | S k' => heapify k' (sift_down (length l) l k')
  end.

(** [std::make_heap(first, last, comp)]. *)
Definition make_heap (l : list A) : list A := heapify (length l / 2) l.

(** The heap property restricted to the children [j] that satisfy [P]. *)
Definition heap_on (P : nat -> Prop) (l : list A) : Prop :=
  forall j p c,
    0 < j -> P j -> l !! heap_parent j = Some p -> l !! j = Some c ->
    comp p c = false.

(** The loop invariant of [sift_up]: only the element at [i] may be out
    of place with respect to its parent. *)
Definition up_inv (l : list A) (i : nat) : Prop :=
  heap_on (fun j => j <> i) l /\
  (forall j g c,
      0 < i -> 0 < j -> heap_parent j = i ->
      l !! heap_parent i = Some g -> l !! j = Some c -> comp g c = false).

(** The loop invariant of [sift_down] below the index [k]: only the
    element at [i] may be out of place with respect to its children. *)
Definition down_inv (k : nat) (l : list A) (i : nat) : Prop :=
  heap_on (fun j => k <= heap_parent j /\ heap_parent j <> i) l /\
  (forall j g c,
      0 < i -> k <= heap_parent i -> 0 < j -> heap_parent j = i ->
      l !! heap_parent i = Some g -> l !! j = Some c -> comp g c = false).

(** [vector::resize(n)] with value-initialised new elements. *)
Definition resize (n : nat) (d : A) (l : list A) : list A :=
  take n l ++ replicate (n - length l) d.

End StdHeap.

(** ** Single-precision arithmetic

    The overclock factors are [float]s.  The scheduler only multiplies an
    [int] by a factor and casts the product back to [int], and takes the
    reciprocal of a factor; these operations are the interface. *)

Class FloatOps := {
  float : Type;
  float_one : float;
  (** [1.0f / x] *)
  float_recip : float -> float;
  (** the product [i * x] of an [int] and a factor, truncated to an
      integer *)
  float_mul_trunc : Z -> float -> Z;
}.

(** ** Data model *)

(** An [EventType*]: [None] is [nullptr]; [Some k] is the address of the
    node of [event_types] whose key is [k] (nodes of an
    [std::unordered_map] never move, and keys are unique). *)
Definition EventTypePtr : Type := option string.

(** What an event callback may call back into the scheduler: scheduling
    from the CPU thread, cancellation, and cutting the slice short. *)
Inductive Action : Type :=
| ActScheduleEvent (cycles_into_future : Z) (event_type : EventTypePtr) (data : Z)
| ActRemoveEvent (event_type : EventTypePtr)
| ActRemoveAllEvents (event_type : EventTypePtr)
| ActForceExceptionCheck (cycles : Z).

(** A callback receives [userdata] and [cyclesLate]; its value is the
    sequence of calls it makes on the scheduler. *)
Definition TimedCallback : Type := Z -> Z -> list Action.

Record EventType : Type := mkEventType {
  callback : TimedCallback;
  (** [const std::string*]: the key the pointer refers to *)
  name : option string;
}.

Record Event : Type := mkEvent {
  time : Z;
  fifo_order : Z;
  userdata : Z;
  type : EventTypePtr;
}.

(** [operator>]: sort by time, unless the times are the same, in which
    case sort by the order added to the queue. *)
Definition event_gt (left right : Event) : bool :=
  (time right <? time left)%Z
  || (negb (time left <? time right)%Z && (fifo_order right <? fifo_order left)%Z).

(** [operator<]. *)
Definition event_lt (left right : Event) : bool :=
  (time left <? time right)%Z
  || (negb (time right <? time left)%Z && (fifo_order left <? fifo_order right)%Z).

Definition MAX_SLICE_LENGTH : Z := 20000.

Definition EmptyTimedCallback : TimedCallback := fun _ _ => [].

(** The values [Config::Get] returns. *)
Record Config {F : FloatOps} : Type := mkConfig {
  MAIN_OVERCLOCK_ENABLE : bool;
  MAIN_OVERCLOCK : float;
  MAIN_SYNC_ON_SKIP_IDLE : bool;
}.

Arguments mkConfig {F} _ _ _.

Section Scheduler.
Context {F : FloatOps}.

(** [CoreTimingState::Data], [CoreTiming::Globals] and
    [PowerPC::ppcState.downcount]. *)
Record System : Type := mkSystem {
  event_types : gmap string EventType;
  event_queue : list Event;
  event_fifo_id : Z;
  ts_queue : list Event;
  last_oc_factor : float;
  idled_cycles : Z;
  fake_dec_start_value : Z;
  fake_dec_start_ticks : Z;
  is_global_timer_sane : bool;
  ev_lost : EventTypePtr;
  config_oc_factor : float;
  config_oc_inv_factor : float;
  config_sync_on_skip_idle : bool;
  global_timer : Z;
  slice_length : Z;
  fake_TB_start_value : Z;
  fake_TB_start_ticks : Z;
  last_OC_factor_inverted : float;
  downcount : Z;
}.

Definition set_event_types (v : gmap string EventType) (s : System) : System :=
  mkSystem v (event_queue s) (event_fifo_id s) (ts_queue s) (last_oc_factor s)
  (idled_cycles s) (fake_dec_start_value s) (fake_dec_start_ticks s)
  (is_global_timer_sane s) (ev_lost s) (config_oc_factor s) (config_oc_inv_factor s)
  (config_sync_on_skip_idle s) (global_timer s) (slice_length s) (fake_TB_start_value s)
  (fake_TB_start_ticks s) (last_OC_factor_inverted s) (downcount s).

Definition set_event_queue (v : list Event) (s : System) : System :=
  mkSystem (event_types s) v (event_fifo_id s) (ts_queue s) (last_oc_factor s)
  (idled_cycles s) (fake_dec_start_value s) (fake_dec_start_ticks s)
  (is_global_timer_sane s) (ev_lost s) (config_oc_factor s) (config_oc_inv_factor s)
  (config_sync_on_skip_idle s) (global_timer s) (slice_length s) (fake_TB_start_value s)
  (fake_TB_start_ticks s) (last_OC_factor_inverted s) (downcount s).

Definition set_event_fifo_id (v : Z) (s : System) : System :=
  mkSystem (event_types s) (event_queue s) v (ts_queue s) (last_oc_factor s)
  (idled_cycles s) (fake_dec_start_value s) (fake_dec_start_ticks s)
  (is_global_timer_sane s) (ev_lost s) (config_oc_factor s) (config_oc_inv_factor s)
  (config_sync_on_skip_idle s) (global_timer s) (slice_length s) (fake_TB_start_value s)
  (fake_TB_start_ticks s) (last_OC_factor_inverted s) (downcount s).

Definition set_ts_queue (v : list Event) (s : System) : System :=
  mkSystem (event_types s) (event_queue s) (event_fifo_id s) v (last_oc_factor s)
  (idled_cycles s) (fake_dec_start_value s) (fake_dec_start_ticks s)
  (is_global_timer_sane s) (ev_lost s) (config_oc_factor s) (config_oc_inv_factor s)
  (config_sync_on_skip_idle s) (global_timer s) (slice_length s) (fake_TB_start_value s)
  (fake_TB_start_ticks s) (last_OC_factor_inverted s) (downcount s).

Definition set_last_oc_factor (v : float) (s : System) : System :=
  mkSystem (event_types s) (event_queue s) (event_fifo_id s) (ts_queue s) v
  (idled_cycles s) (fake_dec_start_value s) (fake_dec_start_ticks s)
  (is_global_timer_sane s) (ev_lost s) (config_oc_factor s) (config_oc_inv_factor s)
  (config_sync_on_skip_idle s) (global_timer s) (slice_length s) (fake_TB_start_value s)
  (fake_TB_start_ticks s) (last_OC_factor_inverted s) (downcount s).

Definition set_idled_cycles (v : Z) (s : System) : System :=
  mkSystem (event_types s) (event_queue s) (event_fifo_id s) (ts_queue s)
  (last_oc_factor s) v (fake_dec_start_value s) (fake_dec_start_ticks s)
  (is_global_timer_sane s) (ev_lost s) (config_oc_factor s) (config_oc_inv_factor s)
  (config_sync_on_skip_idle s) (global_timer s) (slice_length s) (fake_TB_start_value s)
  (fake_TB_start_ticks s) (last_OC_factor_inverted s) (downcount s).

Definition set_fake_dec_start_value (v : Z) (s : System) : System :=
  mkSystem (event_types s) (event_queue s) (event_fifo_id s) (ts_queue s)
  (last_oc_factor s) (idled_cycles s) v (fake_dec_start_ticks s) (is_global_timer_sane
  s) (ev_lost s) (config_oc_factor s) (config_oc_inv_factor s) (config_sync_on_skip_idle
  s) (global_timer s) (slice_length s) (fake_TB_start_value s) (fake_TB_start_ticks s)
  (last_OC_factor_inverted s) (downcount s).

Definition set_fake_dec_start_ticks (v : Z) (s : System) : System :=
  mkSystem (event_types s) (event_queue s) (event_fifo_id s) (ts_queue s)
  (last_oc_factor s) (idled_cycles s) (fake_dec_start_value s) v (is_global_timer_sane
  s) (ev_lost s) (config_oc_factor s) (config_oc_inv_factor s) (config_sync_on_skip_idle
  s) (global_timer s) (slice_length s) (fake_TB_start_value s) (fake_TB_start_ticks s)
  (last_OC_factor_inverted s) (downcount s).

Definition set_is_global_timer_sane (v : bool) (s : System) : System :=
  mkSystem (event_types s) (event_queue s) (event_fifo_id s) (ts_queue s)
  (last_oc_factor s) (idled_cycles s) (fake_dec_start_value s) (fake_dec_start_ticks s)
  v (ev_lost s) (config_oc_factor s) (config_oc_inv_factor s) (config_sync_on_skip_idle
  s) (global_timer s) (slice_length s) (fake_TB_start_value s) (fake_TB_start_ticks s)
  (last_OC_factor_inverted s) (downcount s).

Definition set_ev_lost (v : EventTypePtr) (s : System) : System :=
  mkSystem (event_types s) (event_queue s) (event_fifo_id s) (ts_queue s)
  (last_oc_factor s) (idled_cycles s) (fake_dec_start_value s) (fake_dec_start_ticks s)
  (is_global_timer_sane s) v (config_oc_factor s) (config_oc_inv_factor s)
  (config_sync_on_skip_idle s) (global_timer s) (slice_length s) (fake_TB_start_value s)
  (fake_TB_start_ticks s) (last_OC_factor_inverted s) (downcount s).

Definition set_config_oc_factor (v : float) (s : System) : System :=
  mkSystem (event_types s) (event_queue s) (event_fifo_id s) (ts_queue s)
  (last_oc_factor s) (idled_cycles s) (fake_dec_start_value s) (fake_dec_start_ticks s)
  (is_global_timer_sane s) (ev_lost s) v (config_oc_inv_factor s)
  (config_sync_on_skip_idle s) (global_timer s) (slice_length s) (fake_TB_start_value s)
  (fake_TB_start_ticks s) (last_OC_factor_inverted s) (downcount s).

Definition set_config_oc_inv_factor (v : float) (s : System) : System :=
  mkSystem (event_types s) (event_queue s) (event_fifo_id s) (ts_queue s)
  (last_oc_factor s) (idled_cycles s) (fake_dec_start_value s) (fake_dec_start_ticks s)
  (is_global_timer_sane s) (ev_lost s) (config_oc_factor s) v (config_sync_on_skip_idle
  s) (global_timer s) (slice_length s) (fake_TB_start_value s) (fake_TB_start_ticks s)
  (last_OC_factor_inverted s) (downcount s).

Definition set_config_sync_on_skip_idle (v : bool) (s : System) : System :=
  mkSystem (event_types s) (event_queue s) (event_fifo_id s) (ts_queue s)
  (last_oc_factor s) (idled_cycles s) (fake_dec_start_value s) (fake_dec_start_ticks s)
  (is_global_timer_sane s) (ev_lost s) (config_oc_factor s) (config_oc_inv_factor s) v
  (global_timer s) (slice_length s) (fake_TB_start_value s) (fake_TB_start_ticks s)
  (last_OC_factor_inverted s) (downcount s).

Definition set_global_timer (v : Z) (s : System) : System :=
  mkSystem (event_types s) (event_queue s) (event_fifo_id s) (ts_queue s)
  (last_oc_factor s) (idled_cycles s) (fake_dec_start_value s) (fake_dec_start_ticks s)
  (is_global_timer_sane s) (ev_lost s) (config_oc_factor s) (config_oc_inv_factor s)
  (config_sync_on_skip_idle s) v (slice_length s) (fake_TB_start_value s)
  (fake_TB_start_ticks s) (last_OC_factor_inverted s) (downcount s).

Definition set_slice_length (v : Z) (s : System) : System :=
  mkSystem (event_types s) (event_queue s) (event_fifo_id s) (ts_queue s)
  (last_oc_factor s) (idled_cycles s) (fake_dec_start_value s) (fake_dec_start_ticks s)
  (is_global_timer_sane s) (ev_lost s) (config_oc_factor s) (config_oc_inv_factor s)
  (config_sync_on_skip_idle s) (global_timer s) v (fake_TB_start_value s)
  (fake_TB_start_ticks s) (last_OC_factor_inverted s) (downcount s).

Definition set_fake_TB_start_value (v : Z) (s : System) : System :=
  mkSystem (event_types s) (event_queue s) (event_fifo_id s) (ts_queue s)
  (last_oc_factor s) (idled_cycles s) (fake_dec_start_value s) (fake_dec_start_ticks s)
  (is_global_timer_sane s) (ev_lost s) (config_oc_factor s) (config_oc_inv_factor s)
  (config_sync_on_skip_idle s) (global_timer s) (slice_length s) v (fake_TB_start_ticks
  s) (last_OC_factor_inverted s) (downcount s).

Definition set_fake_TB_start_ticks (v : Z) (s : System) : System :=
  mkSystem (event_types s) (event_queue s) (event_fifo_id s) (ts_queue s)
  (last_oc_factor s) (idled_cycles s) (fake_dec_start_value s) (fake_dec_start_ticks s)
  (is_global_timer_sane s) (ev_lost s) (config_oc_factor s) (config_oc_inv_factor s)
  (config_sync_on_skip_idle s) (global_timer s) (slice_length s) (fake_TB_start_value s)
  v (last_OC_factor_inverted s) (downcount s).

Definition set_last_OC_factor_inverted (v : float) (s : System) : System :=
  mkSystem (event_types s) (event_queue s) (event_fifo_id s) (ts_queue s)
  (last_oc_factor s) (idled_cycles s) (fake_dec_start_value s) (fake_dec_start_ticks s)
  (is_global_timer_sane s) (ev_lost s) (config_oc_factor s) (config_oc_inv_factor s)
  (config_sync_on_skip_idle s) (global_timer s) (slice_length s) (fake_TB_start_value s)
  (fake_TB_start_ticks s) v (downcount s).

Definition set_downcount (v : Z) (s : System) : System :=
  mkSystem (event_types s) (event_queue s) (event_fifo_id s) (ts_queue s)
  (last_oc_factor s) (idled_cycles s) (fake_dec_start_value s) (fake_dec_start_ticks s)
  (is_global_timer_sane s) (ev_lost s) (config_oc_factor s) (config_oc_inv_factor s)
  (config_sync_on_skip_idle s) (global_timer s) (slice_length s) (fake_TB_start_value s)
  (fake_TB_start_ticks s) (last_OC_factor_inverted s) v.

(** *** The clock/downcount bridge *)

Definition DowncountToCycles (s : System) (dc : Z) : Z :=
  wrap32s (float_mul_trunc dc (last_OC_factor_inverted s)).

Definition CyclesToDowncount (s : System) (cycles : Z) : Z :=
  wrap32s (float_mul_trunc cycles (last_oc_factor s)).

(** *** The registry *)

(** [*ptr] for an [EventType*]; [None] for [nullptr] and for a pointer to
    a node that is no longer in the map. *)
Definition deref (s : System) (ptr : EventTypePtr) : option EventType :=
  match ptr with
  | Some k => event_types s !! k
  | None => None
  end.

(** [event_types.emplace(name, EventType{callback, nullptr})]: nothing is
    inserted when the key is present. *)
Definition emplace (key : string) (et : EventType)
    (m : gmap string EventType) : gmap string EventType :=
  match m !! key with
  | Some _ => m
  | None => <[key := et]> m
  end.

(** The assertion on a duplicate name does not stop the function. *)
Definition RegisterEvent (key : string) (cb : TimedCallback)
    (s : System) : System * EventTypePtr :=
  let info := emplace key (mkEventType cb None) (event_types s) in
  let types := alter (fun et => mkEventType (callback et) (Some key)) key info in
  (set_event_types types s, Some key).

Definition UnregisterAllEvents (s : System) : System :=
  set_event_types ∅ s.

Definition RefreshConfig (cfg : Config) (s : System) : System :=
  let oc := if MAIN_OVERCLOCK_ENABLE cfg then MAIN_OVERCLOCK cfg else float_one in
  set_config_sync_on_skip_idle (MAIN_SYNC_ON_SKIP_IDLE cfg)
    (set_config_oc_inv_factor (float_recip oc)
       (set_config_oc_factor oc s)).

Definition Init (cfg : Config) (s : System) : System :=
  let s := RefreshConfig cfg s in
  let s := set_last_oc_factor (config_oc_factor s) s in
  let s := set_last_OC_factor_inverted (config_oc_inv_factor s) s in
  let s := set_downcount (CyclesToDowncount s MAX_SLICE_LENGTH) s in
  let s := set_slice_length MAX_SLICE_LENGTH s in
  let s := set_global_timer 0 s in
  let s := set_idled_cycles 0 s in
  let s := set_is_global_timer_sane true s in
  let s := set_event_fifo_id 0 s in
  let '(s, lost) := RegisterEvent "_lost_event" EmptyTimedCallback s in
  set_ev_lost lost s.

(** *** The queue *)

Definition ClearPendingEvents (s : System) : System :=
  set_event_queue [] s.

(** [event_queue.emplace_back(ev)] followed by [std::push_heap]. *)
Definition push_event (ev : Event) (s : System) : System :=
  set_event_queue (push_heap event_gt (event_queue s ++ [ev])) s.

Definition with_fifo_order (order : Z) (ev : Event) : Event :=
  mkEvent (time ev) order (userdata ev) (type ev).

(** Modelled from the spec: the cross-thread inbox ([Common::SPSCQueue],
    not part of these sources) is an unbounded first-in first-out queue;
    [Push] appends an event. *)
Definition ts_queue_Push (ev : Event) (s : System) : System :=
  set_ts_queue (ts_queue s ++ [ev]) s.

(** The loop of [MoveEvents] over the events [ts_queue.Pop] yields, oldest
    first, until the inbox is empty. *)
Fixpoint MoveEvents_loop (pending : list Event) (s : System) : System :=
  match pending with
  | [] => s
  | ev :: pending' =>
      let ev := with_fifo_order (event_fifo_id s) ev in
      let s := set_event_fifo_id (wrap64u (event_fifo_id s + 1)) s in
      MoveEvents_loop pending' (push_event ev s)
  end.

Definition MoveEvents (s : System) : System :=
  MoveEvents_loop (ts_queue s) (set_ts_queue [] s).

Definition ForceExceptionCheck (cycles : Z) (s : System) : System :=
  let cycles := Z.max 0 cycles in
  if (cycles <? DowncountToCycles s (downcount s))%Z
  then
    let s' :=
      set_slice_length
        (wrap32s (slice_length s
                  - wrap32s (DowncountToCycles s (downcount s) - wrap32s cycles)))
        s in
    set_downcount (CyclesToDowncount s' (wrap32s cycles)) s'
  else s.

Definition GetTicks (s : System) : Z :=
  let ticks := wrap64u (global_timer s) in
  if is_global_timer_sane s then ticks
  else
    let cycles := DowncountToCycles s (downcount s) in
    wrap64u (ticks + wrap32s (slice_length s - cycles)).

Inductive FromThread : Type := CPU | NON_CPU | ANY.

(** [is_cpu_thread] is what [Core::IsCPUThread()] answers for the caller.
    The assertions (null type, wrong thread) do not stop the function. *)
Definition ScheduleEvent (cycles_into_future : Z) (event_type : EventTypePtr)
    (data : Z) (from : FromThread) (is_cpu_thread : bool) (s : System) : System :=
  let from_cpu_thread :=
    match from with
    | ANY => is_cpu_thread
    | CPU => true
    | NON_CPU => false
    end in
  if from_cpu_thread
  then
    let timeout := wrap64s (GetTicks s + cycles_into_future) in
    let s := if negb (is_global_timer_sane s)
             then ForceExceptionCheck cycles_into_future s else s in
    let ev := mkEvent timeout (event_fifo_id s) data event_type in
    let s := set_event_fifo_id (wrap64u (event_fifo_id s + 1)) s in
    push_event ev s
  else
    ts_queue_Push
      (mkEvent (wrap64s (global_timer s + cycles_into_future)) 0 data event_type) s.

(** [std::remove_if] keeps the elements that do not match, in order, at
    the front of the range and returns the end of that prefix; when
    nothing matches, the range is untouched and the end is returned. *)
Definition RemoveEvent (event_type : EventTypePtr) (s : System) : System :=
  let kept := filter (fun e => type e <> event_type) (event_queue s) in
  if (length kept <? length (event_queue s))%nat
  then set_event_queue (make_heap event_gt kept) s
  else s.

Definition RemoveAllEvents (event_type : EventTypePtr) (s : System) : System :=
  RemoveEvent event_type (MoveEvents s).

(** *** Advance *)

Definition run_action (s : System) (a : Action) : System :=
  match a with
  | ActScheduleEvent cycles event_type data =>
      ScheduleEvent cycles event_type data CPU true s
  | ActRemoveEvent event_type => RemoveEvent event_type s
  | ActRemoveAllEvents event_type => RemoveAllEvents event_type s
  | ActForceExceptionCheck cycles => ForceExceptionCheck cycles s
  end.

(** One callback invocation: the event, the [cyclesLate] it was given and
    the value of [is_global_timer_sane] while the callback ran. *)
Record Dispatch : Type := mkDispatch {
  fired : Event;
  cycles_late : Z;
  timer_sane : bool;
}.

(** The fire loop.  [None] when the loop has not ended within [fuel]
    iterations, or when the type pointer of a due event is null or
    dangling. *)
Fixpoint fire_loop (fuel : nat) (s : System) (log : list Dispatch)
    : option (System * list Dispatch) :=
  match fuel with
  | O => None
  | S fuel' =>
      match event_queue s with
      | [] => Some (s, log)
      | front :: _ =>
          if (time front <=? global_timer s)%Z
          then
            let evt := front in
            let s := set_event_queue (removelast (pop_heap event_gt (event_queue s))) s in
            match deref s (type evt) with
            | None => None
            | Some et =>
                let late := wrap64s (global_timer s - time evt) in
                let d := mkDispatch evt late (is_global_timer_sane s) in
                let s := fold_left run_action (callback et (userdata evt) late) s in
                fire_loop fuel' s (log ++ [d])
            end
          else Some (s, log)
      end
  end.

Definition Advance_begin (s : System) : System :=
  let s := MoveEvents s in
  let cyclesExecuted := wrap32s (slice_length s - DowncountToCycles s (downcount s)) in
  let s := set_global_timer (wrap64s (global_timer s + cyclesExecuted)) s in
  let s := set_last_oc_factor (config_oc_factor s) s in
  let s := set_last_OC_factor_inverted (config_oc_inv_factor s) s in
  let s := set_slice_length MAX_SLICE_LENGTH s in
  set_is_global_timer_sane true s.

Definition Advance_end (s : System) : System :=
  let s := set_is_global_timer_sane false s in
  let s :=
    match event_queue s with
    | [] => s
    | front :: _ =>
        set_slice_length
          (wrap32s (Z.min (wrap64s (time front - global_timer s)) MAX_SLICE_LENGTH)) s
    end in
  set_downcount (CyclesToDowncount s (slice_length s)) s.

Definition Advance (fuel : nat) (s : System) : option (System * list Dispatch) :=
  match fire_loop fuel (Advance_begin s) [] with
  | None => None
  | Some (s, log) => Some (Advance_end s, log)
  end.

(** *** Clock changes and idling *)

(** [s64 * u32 / u32]: both clocks are converted to [s64]; the division
    truncates towards zero.  (A zero [old_ppc_clock] divides by zero in
    the code; [Z.quot] gives zero there, and every statement about the
    rescaling assumes a positive clock.) *)
Definition adjust_time (timer : Z) (new_ppc_clock old_ppc_clock : Z)
    (ev : Event) : Event :=
  let ticks :=
    wrap64s (Z.quot (wrap64s (wrap64s (time ev - timer) * new_ppc_clock))
               old_ppc_clock) in
  mkEvent (wrap64s (timer + ticks)) (fifo_order ev) (userdata ev) (type ev).

Definition AdjustEventQueueTimes (new_ppc_clock old_ppc_clock : Z) (s : System) : System :=
  set_event_queue
    (adjust_time (global_timer s) new_ppc_clock old_ppc_clock <$> event_queue s) s.

Definition Idle (s : System) : System :=
  let s :=
    set_idled_cycles (wrap64s (idled_cycles s + DowncountToCycles s (downcount s))) s in
  set_downcount 0 s.

Definition Shutdown (s : System) : System :=
  UnregisterAllEvents (ClearPendingEvents (MoveEvents s)).

(** *** Save states *)

Record SavedEvent : Type := mkSavedEvent {
  saved_time : Z;
  saved_fifo_order : Z;
  saved_userdata : Z;
  saved_name : string;
}.

(** Modelled from the spec: the serializer ([PointerWrap], in
    [Common/ChunkFile.h]) is not part of these sources.  The persisted
    layout is the scalars in this order, then a length-prefixed sequence
    of [{deadline, sequence, userdata, name}] quadruples; [do_scalar]
    copies a scalar to or from the stream, and [do_each_element] resizes
    the container to the persisted length and applies the element
    function to each element. *)
Record SaveState : Type := mkSaveState {
  saved_slice_length : Z;
  saved_global_timer : Z;
  saved_idled_cycles : Z;
  saved_fake_dec_start_value : Z;
  saved_fake_dec_start_ticks : Z;
  saved_fake_TB_start_value : Z;
  saved_fake_TB_start_ticks : Z;
  saved_last_oc_factor : float;
  saved_event_fifo_id : Z;
  saved_events : list SavedEvent;
}.

(** The element function of [DoState] in read mode: the three scalars are
    read into the event, then the name, and the type is derived from the
    name. *)
Definition load_event (s : System) (ev : Event) (sv : SavedEvent) : Event :=
  let ev := mkEvent (saved_time sv) (saved_fifo_order sv) (saved_userdata sv) (type ev) in
  match event_types s !! saved_name sv with
  | Some _ => mkEvent (time ev) (fifo_order ev) (userdata ev) (Some (saved_name sv))
  | None => mkEvent (time ev) (fifo_order ev) (userdata ev) (ev_lost s)
  end.

(** Modelled from the spec: [do_each_element] in read mode. *)
Definition DoEachElement_read (s : System) (saved : list SavedEvent)
    (container : list Event) : list Event :=
  let container := resize (length saved) (mkEvent 0 0 0 None) container in
  zip_with (load_event s) container saved.

Definition DoState_read (p : SaveState) (s : System) : System :=
  let s := set_slice_length (saved_slice_length p) s in
  let s := set_global_timer (saved_global_timer p) s in
  let s := set_idled_cycles (saved_idled_cycles p) s in
  let s := set_fake_dec_start_value (saved_fake_dec_start_value p) s in
  let s := set_fake_dec_start_ticks (saved_fake_dec_start_ticks p) s in
  let s := set_fake_TB_start_value (saved_fake_TB_start_value p) s in
  let s := set_fake_TB_start_ticks (saved_fake_TB_start_ticks p) s in
  let s := set_last_oc_factor (saved_last_oc_factor p) s in
  let s := set_last_OC_factor_inverted (float_recip (last_oc_factor s)) s in
  let s := set_event_fifo_id (saved_event_fifo_id p) s in
  let s := MoveEvents s in
  let s := set_event_queue (DoEachElement_read s (saved_events p) (event_queue s)) s in
  set_event_queue (make_heap event_gt (event_queue s)) s.

(** The element function in write mode: the name the type points to (the
    empty name stands for a null or dangling type pointer). *)
Definition save_event (s : System) (ev : Event) : SavedEvent :=
  let key :=
    match deref s (type ev) with
    | Some et => default String.EmptyString (name et)
    | None => String.EmptyString
    end in
  mkSavedEvent (time ev) (fifo_order ev) (userdata ev) key.

(** [DoState] in write mode, in the order of the source: the scalars,
    [event_fifo_id] among them, go to the stream before [MoveEvents]
    drains the inbox, the events after it. *)
Definition DoState_write (s : System) : System * SaveState :=
  let scalars :=
    mkSaveState (slice_length s) (global_timer s) (idled_cycles s)
      (fake_dec_start_value s) (fake_dec_start_ticks s)
      (fake_TB_start_value s) (fake_TB_start_ticks s)
      (last_oc_factor s) (event_fifo_id s) in
  let s := set_last_OC_factor_inverted (float_recip (last_oc_factor s)) s in
  let s := MoveEvents s in
  (s, scalars (map (save_event s) (event_queue s))).

(** *** The public interface as a script *)

Inductive Call : Type :=
| CallInit (cfg : Config)
| CallShutdown
| CallRefreshConfig (cfg : Config)
| CallRegisterEvent (key : string) (cb : TimedCallback)
| CallUnregisterAllEvents
| CallDoStateRead (p : SaveState)
| CallDoStateWrite
| CallClearPendingEvents
| CallScheduleEvent (cycles_into_future : Z) (event_type : EventTypePtr)
    (data : Z) (from : FromThread) (is_cpu_thread : bool)
| CallRemoveEvent (event_type : EventTypePtr)
| CallRemoveAllEvents (event_type : EventTypePtr)
| CallForceExceptionCheck (cycles : Z)
| CallMoveEvents
| CallAdvance
| CallAdjustEventQueueTimes (new_ppc_clock old_ppc_clock : Z)
| CallIdle
(** the CPU retiring instructions between two calls *)
| CpuRun (dc : Z).

Definition is_Advance (c : Call) : bool :=
  match c with
  | CallAdvance => true
  | _ => false
  end.

Definition is_Init (c : Call) : bool :=
  match c with
  | CallInit _ => true
  | _ => false
  end.

Definition run_call (fuel : nat) (c : Call) (s : System)
    : option (System * list Dispatch) :=
  match c with
  | CallInit cfg => Some (Init cfg s, [])
  | CallShutdown => Some (Shutdown s, [])
  | CallRefreshConfig cfg => Some (RefreshConfig cfg s, [])
  | CallRegisterEvent key cb => Some (fst (RegisterEvent key cb s), [])
  | CallUnregisterAllEvents => Some (UnregisterAllEvents s, [])
  | CallDoStateRead p => Some (DoState_read p s, [])
  | CallDoStateWrite => Some (fst (DoState_write s), [])
  | CallClearPendingEvents => Some (ClearPendingEvents s, [])
  | CallScheduleEvent cycles event_type data from is_cpu_thread =>
      Some (ScheduleEvent cycles event_type data from is_cpu_thread s, [])
  | CallRemoveEvent event_type => Some (RemoveEvent event_type s, [])
  | CallRemoveAllEvents event_type => Some (RemoveAllEvents event_type s, [])
  | CallForceExceptionCheck cycles => Some (ForceExceptionCheck cycles s, [])
  | CallMoveEvents => Some (MoveEvents s, [])
  | CallAdvance => Advance fuel s
  | CallAdjustEventQueueTimes new_ppc_clock old_ppc_clock =>
      Some (AdjustEventQueueTimes new_ppc_clock old_ppc_clock s, [])
  | CallIdle => Some (Idle s, [])
  | CpuRun dc => Some (set_downcount dc s, [])
  end.

Fixpoint run_calls (fuel : nat) (calls : list Call) (s : System)
    : option (System * list Dispatch) :=
  match calls with
  | [] => Some (s, [])
  | c :: calls' =>
      match run_call fuel c s with
      | None => None
      | Some (s, log) =>
          match run_calls fuel calls' s with
          | None => None
          | Some (s, log') => Some (s, log ++ log')
          end
      end
  end.

End Scheduler.
(** ** Vocabulary of the properties *)

Section Properties.
Context {F : FloatOps}.

(** [a] does not fire after [b]: [(time, fifo_order)] of [a] is
    lexicographically at most that of [b]. *)
Definition event_le (a b : Event) : Prop := event_gt a b = false.

(** The events [MoveEvents] pushes for the inbox [pending] when the
    counter is [id]: each gets the next sequence number. *)
Fixpoint renumber (id : Z) (pending : list Event) : list Event :=
  match pending with
  | [] => []
  | ev :: pending' => with_fifo_order id ev :: renumber (wrap64u (id + 1)) pending'
  end.

(** The counter after [n] allocations. *)
Fixpoint advance_id (id : Z) (n : nat) : Z :=
  match n with
  | O => id
  | S n' => advance_id (wrap64u (id + 1)) n'
  end.

(** Every entry of the registry carries the name pointer
    [RegisterEvent] gives it: the address of its own key. *)
Definition registry_wf (s : System) : Prop :=
  forall k et, event_types s !! k = Some et -> name et = Some k.

(** The sentinel [Init] registers. *)
Definition lost_event_registered (s : System) : Prop :=
  ev_lost s = Some "_lost_event" /\
  exists et, event_types s !! "_lost_event" = Some et /\
             callback et = EmptyTimedCallback.

(** The event [DoState] builds for a persisted quadruple. *)
Definition resolve (s : System) (sv : SavedEvent) : Event :=
  mkEvent (saved_time sv) (saved_fifo_order sv) (saved_userdata sv)
    (match event_types s !! saved_name sv with
     | Some _ => Some (saved_name sv)
     | None => ev_lost s
     end).



(** No action of [acts] is a call of [ForceExceptionCheck]. *)
Definition no_force (acts : list Action) : Prop :=
  Forall (fun a =>
            match a with
            | ActForceExceptionCheck _ => False
            | _ => True
            end) acts.

Definition registry_no_force (s : System) : Prop :=
  forall k et data late,
    event_types s !! k = Some et -> no_force (callback et data late).




(** The order on deadlines alone. *)
Definition deadline_gt (left right : Event) : bool := (time right <? time left)%Z.

(** The arithmetic of [adjust_time] on [e] stays within [s64]. *)
Definition rescale_in_range (timer new_ppc_clock old_ppc_clock : Z) (e : Event) : Prop :=
  in_s64 (time e - timer) /\ in_s64 ((time e - timer) * new_ppc_clock) /\
  in_s64 (timer + Z.quot ((time e - timer) * new_ppc_clock) old_ppc_clock).

(** The pending events that are due. *)
Definition due_events (s : System) : list Event :=
  filter (fun e => (time e <= global_timer s)%Z) (event_queue s).

(** Every callback schedules registered types, strictly ahead, by at
    most [D] cycles. *)
Definition schedules_ahead (D : Z) (s : System) (acts : list Action) : Prop :=
  Forall (fun a =>
            match a with
            | ActScheduleEvent cycles ty _ =>
                (1 <= cycles <= D)%Z /\ is_Some (deref s ty)
            | _ => True
            end) acts.

Definition registry_schedules_ahead (D : Z) (s : System) : Prop :=
  forall k et data late,
    event_types s !! k = Some et -> schedules_ahead D s (callback et data late).

(** The value of [is_global_timer_sane] after a script, from its value
    before: [Init] sets it, a completed [Advance] clears it, nothing else
    writes it. *)
Definition sane_after (calls : list Call) (before : bool) : bool :=
  fold_left
    (fun b c => if is_Init c then true else if is_Advance c then false else b)
    calls before.





End Properties.
(** ** A concrete instance

    Factors as exact ratios [(numerator, denominator)]; the product with
    an [int] truncates towards zero. *)

#[export] Instance ratio_factors : FloatOps := {|
  float := Z * Z;
  float_one := (1%Z, 1%Z);
  float_recip x := (snd x, fst x);
  float_mul_trunc i x := Z.quot (i * fst x) (snd x);
|}.

Definition no_overclock : Config := mkConfig false (1%Z, 1%Z) false.

(** The value-initialised state before [Init]. *)
Definition blank_system : System :=
  mkSystem ∅ [] 0 [] (1%Z, 1%Z) 0 0 0 false None (1%Z, 1%Z) (1%Z, 1%Z) false
    0 0 0 0 (1%Z, 1%Z) 0.

(** [Init], then two event types whose callbacks do nothing. *)
Definition two_types : System :=
  fst (RegisterEvent "B" EmptyTimedCallback
         (fst (RegisterEvent "A" EmptyTimedCallback (Init no_overclock blank_system)))).

(** An event of type "A" pending in the heap and an event of type "B"
    submitted off-thread, still in the inbox. *)
Definition heap_and_inbox : System :=
  ScheduleEvent 5 (Some "B") 9 NON_CPU false
    (ScheduleEvent 10 (Some "A") 7 CPU true two_types).

(** "A" due in 4 cycles, then "B" due in 3 cycles, both from the CPU
    thread. *)
Definition two_close_events : System :=
  ScheduleEvent 3 (Some "B") 0 CPU true
    (ScheduleEvent 4 (Some "A") 0 CPU true two_types).

(** A save state with one event of a registered type between two events
    of a type the loader does not know. *)
Definition save_with_unknown : SaveState :=
  mkSaveState 20000 50 0 0 0 0 0 (1%Z, 1%Z) 4
    [mkSavedEvent 100 1 11 "X"; mkSavedEvent 100 2 12 "B"; mkSavedEvent 200 3 13 "X"].

(** A callback that schedules an event of type "B" with no delay, passing
    its userdata on. *)
Definition chains_now : TimedCallback :=
  fun data _ => [ActScheduleEvent 0 (Some "B") data].

(** [Init], the types "A" (which chains to "B") and "B", an "A" event
    100 cycles ahead and a "B" event 20030 cycles ahead. *)
Definition chain_system : System :=
  ScheduleEvent 20030 (Some "B") 1 CPU true
    (ScheduleEvent 100 (Some "A") 42 CPU true
       (fst (RegisterEvent "B" EmptyTimedCallback
               (fst (RegisterEvent "A" chains_now (Init no_overclock blank_system)))))).

(** The script that produces [chain_system], lets the CPU run the whole
    first slice, and advances. *)
Definition chain_script : list Call :=
  [CallInit no_overclock;
   CallRegisterEvent "A" chains_now;
   CallRegisterEvent "B" EmptyTimedCallback;
   CallScheduleEvent 100 (Some "A") 42 CPU true;
   CallScheduleEvent 20030 (Some "B") 1 CPU true;
   CpuRun 0;
   CallAdvance].

(** The state and the dispatches [chain_script] ends with. *)
Definition chain_result : System * list Dispatch :=
  default (blank_system, []) (run_calls 3 chain_script blank_system).



(** A callback that schedules an event of type "X" 30 cycles ahead. *)
Definition schedules_X_in_30 : TimedCallback :=
  fun data _ => [ActScheduleEvent 30 (Some "X") data].

(** Slice shortening: "A" is due at once and its callback schedules "X"
    30 cycles ahead; nothing has been executed when [Advance] runs. *)
Definition shortening_script : list Call :=
  [CallInit no_overclock;
   CallRegisterEvent "X" EmptyTimedCallback;
   CallRegisterEvent "A" schedules_X_in_30;
   CallScheduleEvent 0 (Some "A") 0 CPU true;
   CpuRun 20000;
   CallAdvance].
(** ** The rest of the interface *)

Section MoreScheduler.
Context {F : FloatOps}.

Definition GetIdleTicks (s : System) : Z := wrap64u (idled_cycles s).

(** What [DoState] puts on the stream in write mode, in the order of the
    source: the scalars, [event_fifo_id] among them, are written before
    [MoveEvents] drains the inbox, the events after it. *)
Definition DoState_stream (s : System) : SaveState :=
  let s1 := MoveEvents (set_last_OC_factor_inverted (float_recip (last_oc_factor s)) s) in
  mkSaveState (slice_length s) (global_timer s) (idled_cycles s)
    (fake_dec_start_value s) (fake_dec_start_ticks s)
    (fake_TB_start_value s) (fake_TB_start_ticks s)
    (last_oc_factor s) (event_fifo_id s)
    (map (save_event s1) (event_queue s1)).

(** The slice ends no later than any pending deadline: control is back in
    [Advance] before an event is due. *)
Definition slice_covers (s : System) : Prop :=
  Forall (fun e => (global_timer s + slice_length s <= time e)%Z) (event_queue s).

(** [acts] only schedules, strictly ahead and by at most [D] cycles. *)
Definition schedules_strictly_ahead (D : Z) (acts : list Action) : Prop :=
  Forall (fun a =>
            match a with
            | ActScheduleEvent cycles _ _ => (1 <= cycles <= D)%Z
            | _ => False
            end) acts.

Definition registry_schedules_strictly_ahead (D : Z) (s : System) : Prop :=
  forall k et data late,
    event_types s !! k = Some et -> schedules_strictly_ahead D (callback et data late).

(** The calls that change [global_timer]. *)
Definition global_timer_after (c : Call) (s : System) : Z :=
  match c with
  | CallInit _ => 0
  | CallDoStateRead p => saved_global_timer p
  | CallAdvance =>
      wrap64s (global_timer s
               + wrap32s (slice_length s - DowncountToCycles s (downcount s)))
  | _ => global_timer s
  end.

Definition is_AdjustEventQueueTimes (c : Call) : bool :=
  match c with
  | CallAdjustEventQueueTimes _ _ => true
  | _ => false
  end.

(** The calls that empty the registry. *)
Definition clears_registry (c : Call) : bool :=
  match c with
  | CallShutdown | CallUnregisterAllEvents => true
  | _ => false
  end.

(** Every pending event has a sequence number the counter has passed. *)
Definition seq_fresh (s : System) : Prop :=
  (0 <= event_fifo_id s)%Z /\
  Forall (fun e => (fifo_order e < event_fifo_id s)%Z) (event_queue s).

(** The calls that write the sequence counter without regard to the
    pending events. *)
Definition resets_sequence (c : Call) : bool :=
  match c with
  | CallInit _ | CallDoStateRead _ => true
  | _ => false
  end.

(** Every callback of the registry makes at most [K] calls. *)
Definition registry_bounded (K : nat) (s : System) : Prop :=
  forall k et data late,
    event_types s !! k = Some et -> length (callback et data late) <= K.

Definition registers_bounded (K : nat) (c : Call) : Prop :=
  match c with
  | CallRegisterEvent _ cb => forall data late, length (cb data late) <= K
  | _ => True
  end.

(** The sequence numbers one call can allocate: one per event of the
    inbox, [K] per iteration of a fire loop, and one. *)
Definition id_step (K fuel inbox : nat) : Z :=
  (Z.of_nat inbox + Z.of_nat K * Z.of_nat fuel + 1)%Z.

(** The sequence numbers a script can allocate from a state whose inbox
    holds [inbox] events; a call adds at most one event to the inbox. *)
Fixpoint id_budget (K fuel : nat) (calls : list Call) (inbox : nat) : Z :=
  match calls with
  | [] => 0
  | _ :: calls' => (id_step K fuel inbox + id_budget K fuel calls' (S inbox))%Z
  end.

End MoreScheduler.

(** ** Common::Timer

    [Common/Timer.cpp].  The readings of the steady clock ([NowMs]) are
    arguments; the three members are [u64] milliseconds and a flag. *)

Module Timer.

Record Timer : Type := mkTimer {
  m_start_ms : Z;
  m_end_ms : Z;
  m_running : bool;
}.

Definition Start (now : Z) (t : Timer) : Timer := mkTimer now 0 true.

Definition StartWithOffset (now offset : Z) (t : Timer) : Timer :=
  let t := Start now t in
  if (offset <? m_start_ms t)%Z
  then mkTimer (wrap64u (m_start_ms t - offset)) (m_end_ms t) (m_running t)
  else t.

Definition Stop (now : Z) (t : Timer) : Timer := mkTimer (m_start_ms t) now false.

Definition ElapsedMs (now : Z) (t : Timer) : Z :=
  if (m_start_ms t =? 0)%Z then 0%Z
  else if m_running t
       then if (now <=? m_start_ms t)%Z then 0%Z else wrap64u (now - m_start_ms t)
       else if (m_end_ms t <=? m_start_ms t)%Z then 0%Z
            else wrap64u (m_end_ms t - m_start_ms t).

End Timer.

(** ** More concrete states *)

(** [chain_script] with, before [Advance], a removal, a drain, a save and
    an off-thread submission. *)
Definition busy_script : list Call :=
  [CallInit no_overclock;
   CallRegisterEvent "A" chains_now;
   CallRegisterEvent "B" EmptyTimedCallback;
   CallScheduleEvent 100 (Some "A") 42 CPU true;
   CallScheduleEvent 20030 (Some "B") 1 CPU true;
   CallScheduleEvent 7 (Some "B") 2 NON_CPU false;
   CallScheduleEvent 50 (Some "A") 3 ANY true;
   CallRemoveEvent (Some "X");
   CallMoveEvents;
   CallDoStateWrite;
   CallForceExceptionCheck 10;
   CpuRun 0;
   CallAdvance;
   CallIdle].

Definition busy_result : System * list Dispatch :=
  default (blank_system, []) (run_calls 6 busy_script blank_system).

(** [chain_system] with two off-thread submissions waiting in the inbox. *)
Definition inbox_system : System :=
  ScheduleEvent 9 (Some "A") 8 NON_CPU false
    (ScheduleEvent 7 (Some "B") 2 NON_CPU false chain_system).

(** A callback that schedules its own type again, 500 cycles ahead. *)
Definition periodic_500 : TimedCallback :=
  fun data _ => [ActScheduleEvent 500 (Some "P") data].

(** [Init], the periodic type "P" and "B", events of both pending, one
    off-thread submission in the inbox, and 700 cycles of the first slice
    executed. *)
Definition periodic_system : System :=
  set_downcount 19300
    (ScheduleEvent 650 (Some "B") 3 NON_CPU false
       (ScheduleEvent 30000 (Some "B") 2 CPU true
          (ScheduleEvent 600 (Some "P") 1 CPU true
             (fst (RegisterEvent "B" EmptyTimedCallback
                     (fst (RegisterEvent "P" periodic_500
                             (Init no_overclock blank_system)))))))).

Definition periodic_result : System * list Dispatch :=
  default (blank_system, []) (Advance 4 periodic_system).

(** [periodic_system] after [Advance], with 120 cycles of the new slice
    executed: mid-slice, the timer not sane. *)
Definition mid_slice_system : System :=
  set_downcount 380 (fst periodic_result).

(** A callback registered under the sentinel's name before [Init], and an
    event of that type pending. *)
Definition taken_sentinel : System :=
  ScheduleEvent 10 (Some "_lost_event") 7 CPU true
    (fst (RegisterEvent "_lost_event" chains_now blank_system)).






(** "B" and then "A" (which chains to "B" with no delay) pending at the
    same deadline, an [Init] run again with both still pending, and the
    whole slice executed. *)
Definition second_init_system : System :=
  set_downcount 0
    (Init no_overclock
       (ScheduleEvent 20000 (Some "A") 7 CPU true
          (ScheduleEvent 20000 (Some "B") 5 CPU true
             (fst (RegisterEvent "B" EmptyTimedCallback
                     (fst (RegisterEvent "A" chains_now
                             (Init no_overclock blank_system)))))))).

(** [busy_script] after its [Init]. *)
Definition busy_script_tail : list Call := tail busy_script.

(** A callback that schedules its own type again with no delay. *)
Definition reschedules_L : TimedCallback :=
  fun data _ => [ActScheduleEvent 0 (Some "L") data].

(** [Init], the type "L" with that callback, and an "L" event due at
    once. *)
Definition loop_system : System :=
  ScheduleEvent 0 (Some "L") 0 CPU true
    (fst (RegisterEvent "L" reschedules_L (Init no_overclock blank_system))).
(** * Facts *)

(** ** Fixed-width integers *)

Lemma wrap64s_id z : in_s64 z -> wrap64s z = z.
Proof. unfold in_s64, wrap64s. intros H. rewrite Z.mod_small; lia. Qed.

Lemma wrap64u_id z : in_u64 z -> wrap64u z = z.
Proof. unfold in_u64, wrap64u. intros H. rewrite Z.mod_small; lia. Qed.

Lemma wrap32s_id z : in_s32 z -> wrap32s z = z.
Proof. unfold in_s32, wrap32s. intros H. rewrite Z.mod_small; lia. Qed.

Lemma wrap64s_range z : in_s64 (wrap64s z).
Proof.
  unfold in_s64, wrap64s.
  pose proof (Z.mod_pos_bound (z + 2 ^ 63) (2 ^ 64)). lia.
Qed.

Lemma wrap32s_range z : in_s32 (wrap32s z).
Proof.
  unfold in_s32, wrap32s.
  pose proof (Z.mod_pos_bound (z + 2 ^ 31) (2 ^ 32)). lia.
Qed.

Lemma wrap64u_range z : in_u64 (wrap64u z).
Proof. unfold in_u64, wrap64u. apply Z.mod_pos_bound. lia. Qed.

(** A [u64] sum converted to [s64] keeps the low 64 bits. *)
Lemma wrap64s_wrap64u_add a b : wrap64s (wrap64u a + b) = wrap64s (a + b).
Proof.
  unfold wrap64s, wrap64u.
  rewrite <- Z.add_assoc, Zplus_mod_idemp_l, Z.add_assoc. reflexivity.
Qed.

(** ** Binary heaps over a list *)

Lemma heap_parent_cases i :
  0 < i -> i = 2 * heap_parent i + 1 \/ i = 2 * heap_parent i + 2.
Proof.
  unfold heap_parent. intros Hi.
  pose proof (Nat.div_mod_eq (i - 1) 2) as E.
  pose proof (Nat.mod_upper_bound (i - 1) 2) as B. lia.
Qed.

Lemma heap_parent_lt i : 0 < i -> heap_parent i < i.
Proof. intros Hi. destruct (heap_parent_cases i Hi); lia. Qed.

Lemma heap_parent_of_child p j :
  j = 2 * p + 1 \/ j = 2 * p + 2 -> heap_parent j = p.
Proof.
  intros Hj. assert (0 < j) as Hpos by lia.
  destruct (heap_parent_cases j Hpos); lia.
Qed.

Lemma heap_child_cases j p :
  0 < j -> heap_parent j = p -> j = 2 * p + 1 \/ j = 2 * p + 2.
Proof. intros Hj <-. by apply heap_parent_cases. Qed.

Section ListSwap.
Context {A : Type}.
Implicit Types l : list A.

Lemma swap_length l i j : length (swap l i j) = length l.
Proof.
  unfold swap. destruct (l !! i), (l !! j); try done.
  by rewrite !length_insert.
Qed.

Lemma swap_lookup l i j x y k :
  l !! i = Some x -> l !! j = Some y ->
  swap l i j !! k =
    if decide (k = i) then Some y else if decide (k = j) then Some x else l !! k.
Proof.
  intros Hi Hj. unfold swap. rewrite Hi, Hj.
  apply lookup_lt_Some in Hi as Li. apply lookup_lt_Some in Hj as Lj.
  destruct (decide (k = i)) as [->|Hki].
  - rewrite list_lookup_insert_eq; [done|]. by rewrite length_insert.
  - rewrite list_lookup_insert_ne by done.
    destruct (decide (k = j)) as [->|Hkj].
    + by rewrite list_lookup_insert_eq.
    + by rewrite list_lookup_insert_ne.
Qed.

Lemma insert_cons_Permutation l j x y :
  l !! j = Some y -> y :: <[j := x]> l ≡ₚ x :: l.
Proof.
  revert j. induction l as [|a l IH]; intros [|j] Hj; simplify_eq/=.
  - apply perm_swap.
  - rewrite (perm_swap a y), (IH _ Hj). apply perm_swap.
Qed.

Lemma swap_Permutation l i j : swap l i j ≡ₚ l.
Proof.
  unfold swap.
  destruct (l !! i) as [x|] eqn:Hi; [|done].
  destruct (l !! j) as [y|] eqn:Hj; [|done].
  revert i j Hi Hj. induction l as [|a l IH]; intros [|i] [|j] Hi Hj; simplify_eq/=.
  - done.
  - by apply insert_cons_Permutation.
  - by apply insert_cons_Permutation.
  - f_equiv. by apply IH.
Qed.

End ListSwap.

Section StdHeapFacts.
Context {A : Type}.
Variable comp : A -> A -> bool.
Implicit Types l : list A.

(** The comparator is a strict weak order whose complement is transitive:
    [comp x y = false] reads "x is not ordered after y". *)
Hypothesis comp_trans :
  forall x y z, comp x y = false -> comp y z = false -> comp x z = false.
Hypothesis comp_asym : forall x y, comp x y = true -> comp y x = false.

Lemma comp_refl x : comp x x = false.
Proof. destruct (comp x x) eqn:E; [|done]. by rewrite (comp_asym _ _ E) in E. Qed.

Lemma is_heap_heap_on l : is_heap comp l <-> heap_on comp (fun _ => True) l.
Proof.
  unfold is_heap, is_heapb. rewrite forallb_forall. split.
  - intros H j p c Hj _ Hp Hc.
    apply lookup_lt_Some in Hc as Lc.
    assert (In j (seq 1 (length l - 1))) as Hin by (apply in_seq; lia).
    specialize (H j Hin). rewrite Hp, Hc in H. by destruct (comp p c).
  - intros H j Hin. apply in_seq in Hin.
    destruct (l !! heap_parent j) as [p|] eqn:Hp; [|done].
    destruct (l !! j) as [c|] eqn:Hc; [|done].
    rewrite (H j p c); [done|lia|done|done|done].
Qed.

Lemma heap_on_weaken (P Q : nat -> Prop) l :
  (forall j, Q j -> P j) -> heap_on comp P l -> heap_on comp Q l.
Proof. intros HPQ H j p c Hj HQ. apply H; auto. Qed.

(** The first element of a heap is not ordered after any element. *)
Lemma heap_front_min l r :
  is_heap comp l -> l !! 0 = Some r ->
  forall i x, l !! i = Some x -> comp r x = false.
Proof.
  rewrite is_heap_heap_on. intros H Hr i.
  induction (lt_wf i) as [i _ IH]. intros x Hx.
  destruct (decide (i = 0)) as [->|Hi].
  - simplify_eq. apply comp_refl.
  - assert (0 < i) as Hpos by lia.
    pose proof (heap_parent_lt i Hpos) as Hlt.
    destruct (l !! heap_parent i) as [p|] eqn:Hp.
    + apply comp_trans with p; [by apply (IH (heap_parent i))|].
      by apply (H i).
    + apply lookup_ge_None in Hp. apply lookup_lt_Some in Hx. lia.
Qed.

(** *** Sifting up *)

Lemma sift_up_length fuel l i : length (sift_up comp fuel l i) = length l.
Proof.
  revert l i. induction fuel as [|fuel IH]; intros l [|i]; simpl; try done.
  destruct (l !! heap_parent (S i)), (l !! S i); try done.
  destruct (comp a a0); [|done]. by rewrite IH, swap_length.
Qed.

Lemma sift_up_Permutation fuel l i : sift_up comp fuel l i ≡ₚ l.
Proof.
  revert l i. induction fuel as [|fuel IH]; intros l [|i]; simpl; try done.
  destruct (l !! heap_parent (S i)), (l !! S i); try done.
  destruct (comp a a0); [|done]. by rewrite IH, swap_Permutation.
Qed.

Lemma sift_up_heap fuel l i :
  i <= fuel -> up_inv comp l i -> is_heap comp (sift_up comp fuel l i).
Proof.
  revert l i. induction fuel as [|fuel IH]; intros l i Hfuel [Hup Hgr].
  - assert (i = 0) as -> by lia. simpl. apply is_heap_heap_on.
    intros j p c Hj _. apply Hup; [done|lia].
  - destruct i as [|i']; simpl.
    { apply is_heap_heap_on. intros j p c Hj _. apply Hup; [done|lia]. }
    set (i := S i') in *. assert (0 < i) as Hi by (unfold i; lia).
    pose proof (heap_parent_lt i Hi) as Hlt.
    destruct (l !! heap_parent i) as [x|] eqn:Hx; cycle 1.
    { apply is_heap_heap_on. intros j p c Hj _ Hp Hc.
      destruct (decide (j = i)) as [->|Hne]; [congruence|]. by apply (Hup j). }
    destruct (l !! i) as [y|] eqn:Hy; cycle 1.
    { apply is_heap_heap_on. intros j p c Hj _ Hp Hc.
      destruct (decide (j = i)) as [->|Hne]; [congruence|]. by apply (Hup j). }
    destruct (comp x y) eqn:Hxy; cycle 1.
    { apply is_heap_heap_on. intros j p c Hj _ Hp Hc.
      destruct (decide (j = i)) as [->|Hne]; [congruence|]. by apply (Hup j). }
    apply IH; [lia|].
    pose proof (swap_lookup l (heap_parent i) i x y) as Hsw.
    specialize (fun k => Hsw k Hx Hy).
    split.
    + intros j p c Hj Hne. rewrite !Hsw.
      pose proof (heap_parent_lt j Hj) as Hltj.
      destruct (decide (j = heap_parent i)) as [|_]; [done|].
      destruct (decide (j = i)) as [->|Hji].
      * destruct (decide (heap_parent i = heap_parent i)); [|done].
        intros ? ?; simplify_eq. by apply comp_asym.
      * destruct (decide (heap_parent j = heap_parent i)) as [Hpp|Hpp].
        { intros ? Hc; simplify_eq. apply comp_trans with x; [by apply comp_asym|].
          apply (Hup j); [done|done|by rewrite Hpp|done]. }
        destruct (decide (heap_parent j = i)) as [Hpi|Hpi].
        { intros ? Hc; simplify_eq. by apply (Hgr j). }
        intros Hp Hc. by apply (Hup j).
    + intros j g c Hp0 Hj Hpj. rewrite !Hsw.
      pose proof (heap_parent_lt _ Hp0) as Hltp.
      pose proof (heap_parent_lt j Hj) as Hltj.
      destruct (decide (heap_parent (heap_parent i) = heap_parent i)); [lia|].
      destruct (decide (heap_parent (heap_parent i) = i)); [lia|].
      destruct (decide (j = heap_parent i)); [lia|].
      intros Hg.
      assert (comp g x = false) as Hgx.
      { apply (Hup (heap_parent i)); [done|lia|done|done]. }
      destruct (decide (j = i)) as [->|Hji].
      * intros ?; simplify_eq. done.
      * intros Hc. apply comp_trans with x; [done|].
        apply (Hup j); [done|done|by rewrite Hpj|done].
Qed.

Lemma push_heap_length l : length (push_heap comp l) = length l.
Proof. apply sift_up_length. Qed.

Lemma push_heap_Permutation l : push_heap comp l ≡ₚ l.
Proof. apply sift_up_Permutation. Qed.

(** [push_heap] on a heap extended by one element gives a heap. *)
Lemma push_heap_heap l x :
  is_heap comp l -> is_heap comp (push_heap comp (l ++ [x])).
Proof.
  rewrite is_heap_heap_on. intros H. unfold push_heap.
  apply sift_up_heap; [lia|]. rewrite length_app; simpl.
  replace (length l + 1 - 1) with (length l) by lia.
  split.
  - intros j p c Hj Hne Hp Hc.
    apply lookup_lt_Some in Hc as Lc. rewrite length_app in Lc; simpl in Lc.
    pose proof (heap_parent_lt j Hj).
    rewrite lookup_app_l in Hp by lia. rewrite lookup_app_l in Hc by lia.
    by apply (H j).
  - intros j g c Hi Hj Hpj _ Hc.
    apply lookup_lt_Some in Hc. rewrite length_app in Hc; simpl in Hc.
    pose proof (heap_parent_lt j Hj). lia.
Qed.

(** *** Sifting down *)

Lemma first_child_spec l i j c :
  first_child comp l i = Some (j, c) ->
  (j = 2 * i + 1 \/ j = 2 * i + 2) /\ l !! j = Some c /\
  (forall m d, heap_parent m = i -> 0 < m -> l !! m = Some d -> comp c d = false).
Proof.
  unfold first_child. intros H.
  destruct (l !! (2 * i + 1)) as [c1|] eqn:H1; [|done].
  destruct (l !! (2 * i + 2)) as [c2|] eqn:H2.
  - destruct (comp c1 c2) eqn:Hc; simplify_eq.
    + split; [lia|]. split; [done|]. intros m d Hm Hpos Hd.
      destruct (heap_child_cases m i Hpos Hm) as [->| ->]; simplify_eq.
      * by apply comp_asym.
      * apply comp_refl.
    + split; [lia|]. split; [done|]. intros m d Hm Hpos Hd.
      destruct (heap_child_cases m i Hpos Hm) as [->| ->]; simplify_eq.
      * apply comp_refl.
      * done.
  - simplify_eq. split; [lia|]. split; [done|]. intros m d Hm Hpos Hd.
    destruct (heap_child_cases m i Hpos Hm) as [->| ->]; simplify_eq.
    apply comp_refl.
Qed.

Lemma first_child_None l i m :
  first_child comp l i = None -> 0 < m -> heap_parent m = i -> l !! m = None.
Proof.
  unfold first_child. intros H Hpos Hm.
  destruct (l !! (2 * i + 1)) as [c1|] eqn:H1.
  { destruct (l !! (2 * i + 2)); [destruct (comp c1 a)|]; done. }
  apply lookup_ge_None in H1. apply lookup_ge_None.
  destruct (heap_child_cases m i Hpos Hm); lia.
Qed.

Lemma sift_down_length fuel l i : length (sift_down comp fuel l i) = length l.
Proof.
  revert l i. induction fuel as [|fuel IH]; intros l i; simpl; [done|].
  destruct (l !! i); [|done]. destruct (first_child comp l i) as [[j c]|]; [|done].
  destruct (comp a c); [|done]. by rewrite IH, swap_length.
Qed.

Lemma sift_down_Permutation fuel l i : sift_down comp fuel l i ≡ₚ l.
Proof.
  revert l i. induction fuel as [|fuel IH]; intros l i; simpl; [done|].
  destruct (l !! i); [|done]. destruct (first_child comp l i) as [[j c]|]; [|done].
  destruct (comp a c); [|done]. by rewrite IH, swap_Permutation.
Qed.

Lemma sift_down_heap fuel k l i :
  length l <= fuel + i -> k <= i -> down_inv comp k l i ->
  heap_on comp (fun j => k <= heap_parent j) (sift_down comp fuel l i).
Proof.
  revert l i. induction fuel as [|fuel IH]; intros l i Hfuel Hk [Hdown Hgr].
  - simpl. intros j p c Hj Hkj Hp Hc.
    destruct (decide (heap_parent j = i)) as [Hpi|Hpi].
    + apply lookup_lt_Some in Hp. lia.
    + by apply (Hdown j).
  - simpl. destruct (l !! i) as [x|] eqn:Hx; cycle 1.
    { intros j p c Hj Hkj Hp Hc.
      destruct (decide (heap_parent j = i)) as [Hpi|Hpi]; [congruence|].
      by apply (Hdown j). }
    destruct (first_child comp l i) as [[m c]|] eqn:Hfc; cycle 1.
    { intros j p d Hj Hkj Hp Hd.
      destruct (decide (heap_parent j = i)) as [Hpi|Hpi].
      - rewrite (first_child_None l i j Hfc Hj Hpi) in Hd. done.
      - by apply (Hdown j). }
    destruct (first_child_spec l i m c Hfc) as (Hm & Hmc & Hmin).
    assert (0 < m) as Hmpos by lia.
    pose proof (heap_parent_of_child i m Hm) as Hpm.
    destruct (comp x c) eqn:Hxc; cycle 1.
    { intros j p d Hj Hkj Hp Hd.
      destruct (decide (heap_parent j = i)) as [Hpi|Hpi].
      - rewrite Hpi in Hp. simplify_eq.
        apply comp_trans with c; [done|]. by apply (Hmin j).
      - by apply (Hdown j). }
    apply lookup_lt_Some in Hmc as Lm.
    apply IH; [rewrite swap_length; lia|lia|].
    pose proof (swap_lookup l i m x c) as Hsw.
    specialize (fun n => Hsw n Hx Hmc).
    split.
    + intros j p d Hj [Hkj Hne]. rewrite !Hsw.
      pose proof (heap_parent_lt j Hj) as Hltj.
      destruct (decide (j = i)) as [->|Hji].
      * destruct (decide (heap_parent i = i)); [lia|].
        destruct (decide (heap_parent i = m)); [lia|].
        intros Hp ?; simplify_eq. apply (Hgr m); done.
      * destruct (decide (j = m)) as [->|Hjm].
        { rewrite Hpm. destruct (decide (i = i)); [|done].
          intros ? ?; simplify_eq. by apply comp_asym. }
        destruct (decide (heap_parent j = i)) as [Hpi|Hpi].
        { intros ? Hd; simplify_eq. by apply (Hmin j). }
        destruct (decide (heap_parent j = m)); [done|].
        intros Hp Hd. by apply (Hdown j).
    + intros j g d _ Hkm Hj Hpj. rewrite !Hsw.
      pose proof (heap_parent_lt j Hj) as Hltj.
      rewrite Hpm. destruct (decide (i = i)); [|done].
      destruct (decide (j = i)); [lia|]. destruct (decide (j = m)); [lia|].
      intros ? Hd; simplify_eq. apply (Hdown j); [done|lia|done|done].
Qed.

(** Removing the first element of a heap: the range without its last
    position is a heap of the remaining elements. *)
Lemma pop_heap_pop_back l :
  removelast (pop_heap comp l) =
  match l with
  | [] => []
  | top :: _ =>
      let body := <[0 := List.last l top]> (removelast l) in
      sift_down comp (length body) body 0
  end.
Proof.
  unfold pop_heap. destruct l as [|top l']; [done|].
  cbv zeta. by rewrite removelast_last.
Qed.

Lemma pop_heap_last l top :
  l !! 0 = Some top -> List.last (pop_heap comp l) top = top.
Proof.
  unfold pop_heap. destruct l as [|a l']; [done|]. intros ?; simplify_eq/=.
  by rewrite last_last.
Qed.

Lemma pop_heap_pop_back_Permutation top l :
  removelast (pop_heap comp (top :: l)) ≡ₚ l.
Proof.
  rewrite pop_heap_pop_back. cbv zeta. rewrite sift_down_Permutation.
  destruct l as [|a l _] using rev_ind; [done|].
  rewrite app_comm_cons, removelast_last, last_last. simpl.
  apply Permutation_cons_append.
Qed.

Lemma pop_heap_pop_back_length l :
  length (removelast (pop_heap comp l)) = length l - 1.
Proof.
  destruct l as [|top l]; [done|].
  rewrite (Permutation_length (pop_heap_pop_back_Permutation top l)). simpl. lia.
Qed.

Lemma pop_heap_pop_back_heap l :
  is_heap comp l -> is_heap comp (removelast (pop_heap comp l)).
Proof.
  intros H. rewrite pop_heap_pop_back. destruct l as [|top l]; [done|].
  cbv zeta. set (body := <[0 := _]> _).
  apply is_heap_heap_on.
  apply heap_on_weaken with (P := fun j => 0 <= heap_parent j); [intros; lia|].
  apply sift_down_heap; [lia|lia|].
  apply is_heap_heap_on in H.
  split; [|intros; lia].
  intros j p c Hj [_ Hne] Hp Hc.
  pose proof (heap_parent_lt j Hj) as Hlt.
  unfold body in Hp, Hc.
  rewrite list_lookup_insert_ne in Hp by lia.
  rewrite list_lookup_insert_ne in Hc by lia.
  apply lookup_lt_Some in Hc as Lc.
  rewrite removelast_firstn_len in Hp, Hc, Lc.
  rewrite lookup_take in Hp, Hc.
  rewrite length_take in Lc.
  destruct (decide (j < Init.Nat.pred (length (top :: l)))); [|lia].
  destruct (decide (heap_parent j < Init.Nat.pred (length (top :: l)))); [|lia].
  by apply (H j).
Qed.

(** *** Building a heap *)

Lemma heapify_length k l : length (heapify comp k l) = length l.
Proof.
  revert l. induction k as [|k IH]; intros l; simpl; [done|].
  by rewrite IH, sift_down_length.
Qed.

Lemma heapify_Permutation k l : heapify comp k l ≡ₚ l.
Proof.
  revert l. induction k as [|k IH]; intros l; simpl; [done|].
  by rewrite IH, sift_down_Permutation.
Qed.

Lemma heapify_heap k l :
  heap_on comp (fun j => k <= heap_parent j) l -> is_heap comp (heapify comp k l).
Proof.
  revert l. induction k as [|k IH]; intros l H; simpl.
  - apply is_heap_heap_on. eapply heap_on_weaken; [|exact H]. simpl. intros; lia.
  - apply IH. apply sift_down_heap; [lia|lia|]. split.
    + eapply heap_on_weaken; [|exact H]. simpl. intros; lia.
    + intros j g c Hk Hle. pose proof (heap_parent_lt k Hk). lia.
Qed.

Lemma make_heap_length l : length (make_heap comp l) = length l.
Proof. apply heapify_length. Qed.

Lemma make_heap_Permutation l : make_heap comp l ≡ₚ l.
Proof. apply heapify_Permutation. Qed.

(** [make_heap] turns any range into a heap. *)
Lemma make_heap_heap l : is_heap comp (make_heap comp l).
Proof.
  apply heapify_heap. intros j p c Hj Hle _ Hc.
  apply lookup_lt_Some in Hc.
  destruct (heap_parent_cases j Hj) as [E|E];
    pose proof (Nat.div_mod_eq (length l) 2);
    pose proof (Nat.mod_upper_bound (length l) 2); lia.
Qed.

End StdHeapFacts.
(** ** The event order *)

Lemma event_gt_false a b :
  event_gt a b = false <->
  (time a < time b \/ (time a = time b /\ fifo_order a <= fifo_order b))%Z.
Proof.
  unfold event_gt.
  destruct (Z.ltb_spec (time b) (time a)), (Z.ltb_spec (time a) (time b)),
    (Z.ltb_spec (fifo_order b) (fifo_order a)); simpl; split; intros; try done; lia.
Qed.

Lemma event_gt_trans x y z :
  event_gt x y = false -> event_gt y z = false -> event_gt x z = false.
Proof. rewrite !event_gt_false. lia. Qed.

Lemma event_gt_asym x y : event_gt x y = true -> event_gt y x = false.
Proof.
  intros H. apply event_gt_false.
  destruct (event_gt y x) eqn:E; [|by apply event_gt_false in E].
  destruct (decide (time x < time y \/ (time x = time y /\ fifo_order x <= fifo_order y))%Z)
    as [Hle|Hle].
  - apply event_gt_false in Hle. congruence.
  - lia.
Qed.

Lemma event_le_time a b : event_le a b -> (time a <= time b)%Z.
Proof. unfold event_le. rewrite event_gt_false. lia. Qed.

(** The heap contract at the event order. *)

Lemma event_push_heap_heap l x :
  is_heap event_gt l -> is_heap event_gt (push_heap event_gt (l ++ [x])).
Proof. apply push_heap_heap; [apply event_gt_trans|apply event_gt_asym]. Qed.

Lemma event_make_heap_heap l : is_heap event_gt (make_heap event_gt l).
Proof. apply make_heap_heap; [apply event_gt_trans|apply event_gt_asym]. Qed.

Lemma event_pop_heap_heap l :
  is_heap event_gt l -> is_heap event_gt (removelast (pop_heap event_gt l)).
Proof. apply pop_heap_pop_back_heap; [apply event_gt_trans|apply event_gt_asym]. Qed.

Lemma event_heap_front_min front l e :
  is_heap event_gt (front :: l) -> e ∈ front :: l -> event_le front e.
Proof.
  intros H He. apply list_elem_of_lookup in He as [i Hi].
  eapply heap_front_min; eauto using event_gt_trans, event_gt_asym.
Qed.

Section SchedulerFacts.
Context {F : FloatOps}.
Implicit Types s : System.

Lemma DowncountToCycles_range s dc : in_s32 (DowncountToCycles s dc).
Proof. apply wrap32s_range. Qed.

Lemma set_event_types_id s : set_event_types (event_types s) s = s.
Proof. by destruct s. Qed.

(** *** push_event and MoveEvents *)

Lemma push_event_queue ev s : event_queue (push_event ev s) ≡ₚ event_queue s ++ [ev].
Proof. apply push_heap_Permutation. Qed.


Lemma MoveEvents_loop_queue pending s :
  event_queue (MoveEvents_loop pending s)
  ≡ₚ event_queue s ++ renumber (event_fifo_id s) pending.
Proof.
  revert s. induction pending as [|ev pending IH]; intros s; simpl.
  - by rewrite app_nil_r.
  - rewrite IH. simpl. rewrite push_heap_Permutation.
    by rewrite <- app_assoc.
Qed.

Lemma MoveEvents_loop_heap pending s :
  is_heap event_gt (event_queue s) ->
  is_heap event_gt (event_queue (MoveEvents_loop pending s)).
Proof.
  revert s. induction pending as [|ev pending IH]; intros s H; simpl; [done|].
  apply IH. by apply event_push_heap_heap.
Qed.

Lemma MoveEvents_loop_fifo_id pending s :
  event_fifo_id (MoveEvents_loop pending s)
  = advance_id (event_fifo_id s) (length pending).
Proof.
  revert s. induction pending as [|ev pending IH]; intros s; simpl; [done|].
  by rewrite IH.
Qed.

(** [MoveEvents_loop] writes the queue and the counter only. *)
Lemma MoveEvents_loop_frame pending s :
  let s' := MoveEvents_loop pending s in
  event_types s' = event_types s /\ ts_queue s' = ts_queue s /\
  is_global_timer_sane s' = is_global_timer_sane s /\
  global_timer s' = global_timer s /\ slice_length s' = slice_length s /\
  downcount s' = downcount s /\ ev_lost s' = ev_lost s /\
  last_oc_factor s' = last_oc_factor s /\
  last_OC_factor_inverted s' = last_OC_factor_inverted s /\
  config_oc_factor s' = config_oc_factor s /\
  config_oc_inv_factor s' = config_oc_inv_factor s.
Proof.
  revert s. induction pending as [|ev pending IH]; intros s; simpl; [done|].
  match goal with |- context [MoveEvents_loop pending ?t] => specialize (IH t) end.
  simpl in IH. exact IH.
Qed.

Lemma MoveEvents_empty s : ts_queue s = [] -> MoveEvents s = s.
Proof. unfold MoveEvents. intros E. rewrite E. simpl. destruct s; simpl in *; by subst. Qed.

Lemma MoveEvents_ts_queue s : ts_queue (MoveEvents s) = [].
Proof.
  unfold MoveEvents.
  by destruct (MoveEvents_loop_frame (ts_queue s) (set_ts_queue [] s)) as (_ & -> & _).
Qed.

Lemma MoveEvents_queue s :
  event_queue (MoveEvents s)
  ≡ₚ event_queue s ++ renumber (event_fifo_id s) (ts_queue s).
Proof. unfold MoveEvents. by rewrite MoveEvents_loop_queue. Qed.

Lemma MoveEvents_heap s :
  is_heap event_gt (event_queue s) -> is_heap event_gt (event_queue (MoveEvents s)).
Proof. intros H. unfold MoveEvents. by apply MoveEvents_loop_heap. Qed.

Lemma MoveEvents_frame s :
  let s' := MoveEvents s in
  event_types s' = event_types s /\
  is_global_timer_sane s' = is_global_timer_sane s /\
  global_timer s' = global_timer s /\ slice_length s' = slice_length s /\
  downcount s' = downcount s /\ ev_lost s' = ev_lost s /\
  last_oc_factor s' = last_oc_factor s /\
  last_OC_factor_inverted s' = last_OC_factor_inverted s /\
  config_oc_factor s' = config_oc_factor s /\
  config_oc_inv_factor s' = config_oc_inv_factor s.
Proof.
  unfold MoveEvents.
  destruct (MoveEvents_loop_frame (ts_queue s) (set_ts_queue [] s))
    as (? & ? & ? & ? & ? & ? & ? & ? & ? & ? & ?).
  simpl in *. done.
Qed.

(** *** RemoveEvent *)

Lemma filter_length_eq {A} (P : A -> Prop) `{forall x, Decision (P x)} (l : list A) :
  length (filter P l) = length l -> filter P l = l.
Proof.
  induction l as [|a l IH]; [done|].
  pose proof (length_filter P l). rewrite filter_cons.
  destruct (decide (P a)); simpl; intros E; [f_equal; apply IH|]; lia.
Qed.

Lemma RemoveEvent_queue ty s :
  event_queue (RemoveEvent ty s) ≡ₚ filter (fun e => type e <> ty) (event_queue s).
Proof.
  unfold RemoveEvent.
  pose proof (length_filter (fun e => type e <> ty) (event_queue s)) as Hle.
  destruct (Nat.ltb_spec
              (length (filter (fun e => type e <> ty) (event_queue s)))
              (length (event_queue s))); simpl.
  - apply make_heap_Permutation.
  - rewrite filter_length_eq; [done|lia].
Qed.

Lemma RemoveEvent_heap ty s :
  is_heap event_gt (event_queue s) -> is_heap event_gt (event_queue (RemoveEvent ty s)).
Proof.
  unfold RemoveEvent. intros H.
  destruct (_ <? _)%nat; simpl; [apply event_make_heap_heap|done].
Qed.

Lemma RemoveEvent_frame ty s :
  let s' := RemoveEvent ty s in
  event_types s' = event_types s /\ ts_queue s' = ts_queue s /\
  event_fifo_id s' = event_fifo_id s /\
  is_global_timer_sane s' = is_global_timer_sane s /\
  global_timer s' = global_timer s /\ slice_length s' = slice_length s /\
  downcount s' = downcount s /\ ev_lost s' = ev_lost s.
Proof. unfold RemoveEvent. destruct (_ <? _)%nat; done. Qed.

End SchedulerFacts.
Section SimpleClaims.
Context {F : FloatOps}.
Implicit Types s : System.

(** C9: when no pending event has the given type, [RemoveEvent] leaves the
    event queue (and the whole state) exactly as it was, the erase and the
    heap rebuild being skipped; in every case the queue afterwards is a
    rearrangement of the events of another type, each with its deadline,
    sequence and userdata as before. *)
Theorem RemoveEvent_unmatched_and_survivors ty s :
  (Forall (fun e => type e <> ty) (event_queue s) -> RemoveEvent ty s = s) /\
  event_queue (RemoveEvent ty s) ≡ₚ filter (fun e => type e <> ty) (event_queue s) /\
  (forall e, e ∈ event_queue (RemoveEvent ty s) <-> e ∈ event_queue s /\ type e <> ty).
Proof.
  split; [|split].
  - intros H. unfold RemoveEvent.
    assert (filter (fun e => type e <> ty) (event_queue s) = event_queue s) as ->.
    { induction H as [|e l He _ IH]; [done|].
      rewrite filter_cons. destruct (decide (type e <> ty)); [|done]. by rewrite IH. }
    by rewrite Nat.ltb_irrefl.
  - apply RemoveEvent_queue.
  - intros e. rewrite RemoveEvent_queue, list_elem_of_filter. tauto.
Qed.

(** C10: registering a name that is already in the registry (past the
    failed assertion) leaves the state unchanged; the handle returned is
    the existing entry, which keeps its original callback. *)
Theorem RegisterEvent_duplicate key cb s et :
  event_types s !! key = Some et -> name et = Some key ->
  RegisterEvent key cb s = (s, Some key) /\
  deref (fst (RegisterEvent key cb s)) (snd (RegisterEvent key cb s)) = Some et.
Proof.
  intros Hk Hname.
  assert (RegisterEvent key cb s = (s, Some key)) as E.
  { unfold RegisterEvent, emplace. rewrite Hk.
    assert (alter (fun et => mkEventType (callback et) (Some key)) key (event_types s)
            = event_types s) as ->.
    { apply map_eq. intros k. rewrite lookup_alter.
      case_decide; [|done]. subst k. rewrite Hk. simpl.
      destruct et; simpl in *. by subst. }
    by rewrite set_event_types_id. }
  split; [done|]. rewrite E. simpl. done.
Qed.

(** C6: [ForceExceptionCheck] treats a negative argument as zero; when the
    remaining cycles of the slice exceed the clamped value it subtracts
    the difference from [slice_length] and reprograms the downcount to
    the clamped value; otherwise it changes nothing, and neither does a
    further call with the same or a larger value.  After a call that did
    shorten the slice, a further call is a no-op as soon as the new
    downcount, converted back to cycles, does not exceed the value. *)
Theorem ForceExceptionCheck_spec cycles s :
  let clamped := Z.max 0 cycles in
  let remaining := DowncountToCycles s (downcount s) in
  ForceExceptionCheck cycles s = ForceExceptionCheck clamped s /\
  ((clamped < remaining)%Z ->
   ForceExceptionCheck cycles s =
   set_downcount (CyclesToDowncount s clamped)
     (set_slice_length (wrap32s (slice_length s - (remaining - clamped))) s)) /\
  ((remaining <= clamped)%Z -> ForceExceptionCheck cycles s = s) /\
  ((remaining <= clamped)%Z ->
   forall again, (clamped <= again)%Z ->
     ForceExceptionCheck again (ForceExceptionCheck cycles s) = ForceExceptionCheck cycles s) /\
  (let s' := ForceExceptionCheck cycles s in
   (DowncountToCycles s' (downcount s') <= clamped)%Z ->
   forall again, (clamped <= again)%Z -> ForceExceptionCheck again s' = s').
Proof.
  intros clamped remaining.
  assert ((remaining <= clamped)%Z -> ForceExceptionCheck cycles s = s) as Hnoop.
  { intros Hle. unfold ForceExceptionCheck. fold clamped. fold remaining.
    destruct (Z.ltb_spec clamped remaining); [lia|done]. }
  split; [|split; [|split; [|split]]].
  - unfold ForceExceptionCheck. fold clamped.
    replace (Z.max 0 clamped) with clamped by (unfold clamped; lia). done.
  - intros Hlt. unfold ForceExceptionCheck. fold clamped. fold remaining.
    destruct (Z.ltb_spec clamped remaining); [|lia].
    pose proof (DowncountToCycles_range s (downcount s)) as Hr. fold remaining in Hr.
    assert (in_s32 clamped) as Hc by (unfold in_s32 in *; unfold clamped in *; lia).
    rewrite (wrap32s_id clamped Hc).
    rewrite (wrap32s_id (remaining - clamped)) by (unfold in_s32 in *; unfold clamped in *; lia).
    done.
  - exact Hnoop.
  - intros Hle again Hag. rewrite (Hnoop Hle).
    unfold ForceExceptionCheck. fold remaining.
    destruct (Z.ltb_spec (Z.max 0 again) remaining); [lia|done].
  - intros s' Hle again Hag. unfold ForceExceptionCheck at 1.
    destruct (Z.ltb_spec (Z.max 0 again) (DowncountToCycles s' (downcount s')));
      [lia|done].
Qed.

End SimpleClaims.

Lemma RemoveEvent_unmatched_witness :
  RemoveEvent (Some "A")
    (ScheduleEvent 5 (Some "B") 7 CPU true two_types)
  = ScheduleEvent 5 (Some "B") 7 CPU true two_types.
Proof.
  apply (proj1 (RemoveEvent_unmatched_and_survivors (Some "A")
                  (ScheduleEvent 5 (Some "B") 7 CPU true two_types))).
  apply (bool_decide_unpack _). vm_compute. exact I.
Defined.

Lemma RegisterEvent_duplicate_witness :
  RegisterEvent "A" (fun _ _ => [ActRemoveEvent None]) two_types = (two_types, Some "A").
Proof.
  apply (proj1 (RegisterEvent_duplicate "A" (fun _ _ => [ActRemoveEvent None]) two_types
                  (mkEventType EmptyTimedCallback (Some "A"))
                  ltac:(vm_compute; reflexivity) ltac:(reflexivity))).
Defined.

Lemma ForceExceptionCheck_witness :
  ForceExceptionCheck (-3) (Init no_overclock blank_system)
  = set_downcount 0 (set_slice_length 0 (Init no_overclock blank_system)).
Proof.
  apply (proj1 (proj2 (ForceExceptionCheck_spec (-3) (Init no_overclock blank_system)))).
  vm_compute. reflexivity.
Defined.
Section QueueClaims.
Context {F : FloatOps}.
Implicit Types s : System.

Lemma renumber_fields id pending :
  Forall2 (fun a b => time b = time a /\ userdata b = userdata a /\ type b = type a)
    pending (renumber id pending).
Proof.
  revert id. induction pending as [|ev pending IH]; intros id; simpl; constructor; auto.
Qed.

Lemma renumber_lookup id pending i ev :
  pending !! i = Some ev ->
  renumber id pending !! i = Some (with_fifo_order (advance_id id i) ev).
Proof.
  revert id i. induction pending as [|a pending IH]; intros id [|i] H; simplify_eq/=.
  - done.
  - by apply IH.
Qed.

(** C5 (as amended): after [RemoveAllEvents ty] the inbox is empty and no
    pending event has type [ty]; the queue holds exactly the events of
    another type: those that were in the heap, unchanged, and those that
    were in the inbox, with their deadline, userdata and type unchanged
    and the sequence number the drain gave them; the heap property holds
    if it held before. *)
Theorem RemoveAllEvents_spec ty s :
  let s' := RemoveAllEvents ty s in
  ts_queue s' = [] /\
  Forall (fun e => type e <> ty) (event_queue s') /\
  event_queue s'
  ≡ₚ filter (fun e => type e <> ty)
       (event_queue s ++ renumber (event_fifo_id s) (ts_queue s)) /\
  Forall2 (fun a b => time b = time a /\ userdata b = userdata a /\ type b = type a)
    (ts_queue s) (renumber (event_fifo_id s) (ts_queue s)) /\
  (is_heap event_gt (event_queue s) -> is_heap event_gt (event_queue s')).
Proof.
  intros s'. unfold s', RemoveAllEvents.
  assert (event_queue (RemoveEvent ty (MoveEvents s))
          ≡ₚ filter (fun e => type e <> ty)
               (event_queue s ++ renumber (event_fifo_id s) (ts_queue s))) as Hq.
  { by rewrite RemoveEvent_queue, MoveEvents_queue. }
  split; [|split; [|split; [|split]]].
  - destruct (RemoveEvent_frame ty (MoveEvents s)) as (_ & -> & _).
    apply MoveEvents_ts_queue.
  - apply Forall_forall. intros e He. rewrite Hq in He.
    by apply list_elem_of_filter in He as [? _].
  - exact Hq.
  - apply renumber_fields.
  - intros H. by apply RemoveEvent_heap, MoveEvents_heap.
Qed.

Lemma zip_with_ignore_l {A B C} (f : A -> B -> C) (g : B -> C) (l : list A) (k : list B) :
  length l = length k -> (forall x y, f x y = g y) -> zip_with f l k = map g k.
Proof.
  intros Hlen Hf. revert k Hlen.
  induction l as [|x l IH]; intros [|y k] Hlen; simplify_eq/=; [done|].
  by rewrite Hf, IH.
Qed.

Lemma resize_length {A} n (d : A) l : length (resize n d l) = n.
Proof. unfold resize. rewrite length_app, length_take, length_replicate. lia. Qed.

Lemma load_event_resolve s ev sv : load_event s ev sv = resolve s sv.
Proof. unfold load_event, resolve. by destruct (event_types s !! saved_name sv). Qed.

Lemma DoEachElement_read_map s saved container :
  DoEachElement_read s saved container = map (resolve s) saved.
Proof.
  unfold DoEachElement_read. apply zip_with_ignore_l.
  - apply resize_length.
  - apply load_event_resolve.
Qed.

Lemma resolve_ext s s' sv :
  event_types s' = event_types s -> ev_lost s' = ev_lost s -> resolve s' sv = resolve s sv.
Proof. unfold resolve. by intros -> ->. Qed.

(** [Init] on a registry without the sentinel's name registers the
    sentinel with the empty callback. *)
Lemma Init_lost_event_registered cfg s :
  event_types s !! "_lost_event" = None -> lost_event_registered (Init cfg s).
Proof.
  intros Hnone. unfold lost_event_registered, Init, RegisterEvent, emplace. simpl.
  rewrite Hnone. split; [done|].
  exists (mkEventType EmptyTimedCallback (Some "_lost_event")).
  rewrite lookup_alter. case_decide; [|done]. by rewrite lookup_insert_eq.
Qed.

(** C7 (as amended): loading a save state keeps one heap element per
    persisted event, each with its deadline, sequence and userdata; an
    event whose type name is in the registry gets that type and every
    other event gets the sentinel [ev_lost], which [Init] registers under
    the name "_lost_event" with a callback that does nothing; the loaded
    queue is a heap. *)
Theorem DoState_read_events p s :
  let s' := DoState_read p s in
  length (event_queue s') = length (saved_events p) /\
  event_queue s' ≡ₚ map (resolve s) (saved_events p) /\
  is_heap event_gt (event_queue s') /\
  event_types s' = event_types s /\
  (lost_event_registered s ->
   forall sv, sv ∈ saved_events p -> event_types s !! saved_name sv = None ->
     resolve s sv
     = mkEvent (saved_time sv) (saved_fifo_order sv) (saved_userdata sv)
         (Some "_lost_event") /\
     exists et, deref s' (type (resolve s sv)) = Some et /\
                callback et (userdata (resolve s sv)) 0%Z = []).
Proof.
  intros s'. unfold s', DoState_read.
  set (s1 := MoveEvents _).
  assert (event_types s1 = event_types s /\ ev_lost s1 = ev_lost s) as [Ht Hl].
  { unfold s1. match goal with |- context [MoveEvents ?t] =>
      destruct (MoveEvents_frame t) as (-> & _ & _ & _ & _ & -> & _) end. done. }
  simpl. rewrite DoEachElement_read_map.
  assert (map (resolve s1) (saved_events p) = map (resolve s) (saved_events p)) as ->.
  { apply map_ext. intros sv. by apply resolve_ext. }
  split; [|split; [|split; [|split]]].
  - by rewrite make_heap_length, length_map.
  - apply make_heap_Permutation.
  - apply event_make_heap_heap.
  - done.
  - intros (Hlost & et & Het & Hcb) sv _ Hnone.
    unfold resolve, deref. rewrite Hnone, Hlost. split; [done|].
    exists et. simpl. rewrite Ht. split; [done|]. by rewrite Hcb.
Qed.

End QueueClaims.

(** C5 (as stated) fails: an event of another type that sits in the inbox
    with the placeholder sequence 0 comes out of [RemoveAllEvents] with
    the sequence number the drain assigns, here 1. *)
Lemma RemoveAllEvents_counterexample :
  ~ (forall (ty : EventTypePtr) (s : System) (e : Event),
        e ∈ event_queue s ++ ts_queue s -> type e <> ty ->
        e ∈ event_queue (RemoveAllEvents ty s)).
Proof.
  intros H.
  specialize (H (Some "A") heap_and_inbox (mkEvent 5 0 9 (Some "B"))).
  assert (event_queue (RemoveAllEvents (Some "A") heap_and_inbox)
          = [mkEvent 5 1 9 (Some "B")]) as E by (vm_compute; reflexivity).
  rewrite E in H.
  assert (mkEvent 5 0 9 (Some "B") ∈ [mkEvent 5 1 9 (Some "B")]) as Hin.
  { apply H; [|done]. vm_compute. apply list_elem_of_In. simpl. auto. }
  apply list_elem_of_singleton in Hin. discriminate.
Qed.

Lemma RemoveAllEvents_witness :
  is_heap event_gt (event_queue (RemoveAllEvents (Some "A") heap_and_inbox)).
Proof.
  apply (proj2 (proj2 (proj2 (proj2 (RemoveAllEvents_spec (Some "A") heap_and_inbox))))).
  vm_compute. reflexivity.
Defined.

(** C7 (as stated) fails: the registry has no entry named "_lost_event_";
    the sentinel is registered as "_lost_event", and that is the type a
    lost event gets. *)
Lemma DoState_read_counterexample :
  ~ (forall (p : SaveState) (sv : SavedEvent),
        sv ∈ saved_events p -> event_types two_types !! saved_name sv = None ->
        is_Some (event_types (DoState_read p two_types) !! "_lost_event_") /\
        mkEvent (saved_time sv) (saved_fifo_order sv) (saved_userdata sv)
          (Some "_lost_event_") ∈ event_queue (DoState_read p two_types)).
Proof.
  intros H.
  destruct (H save_with_unknown (mkSavedEvent 100 1 11 "X")) as [[et Het] _].
  - apply list_elem_of_In. simpl. auto.
  - vm_compute. reflexivity.
  - vm_compute in Het. discriminate.
Qed.

Lemma DoState_read_witness :
  resolve two_types (mkSavedEvent 100 1 11 "X") = mkEvent 100 1 11 (Some "_lost_event") /\
  exists et,
    deref (DoState_read save_with_unknown two_types)
      (type (resolve two_types (mkSavedEvent 100 1 11 "X"))) = Some et /\
    callback et (userdata (resolve two_types (mkSavedEvent 100 1 11 "X"))) 0%Z = [].
Proof.
  apply (proj2 (proj2 (proj2 (proj2 (DoState_read_events save_with_unknown two_types))))).
  - split; [vm_compute; reflexivity|].
    exists (mkEventType EmptyTimedCallback (Some "_lost_event")).
    split; vm_compute; reflexivity.
  - apply list_elem_of_In. simpl. auto.
  - vm_compute. reflexivity.
Defined.

(** C2: the code breaks the heap property.  "A" is scheduled 4 cycles
    ahead and then "B" 3 cycles ahead, so the heap is [B@3 seq 1; A@4 seq
    0] with every deadline at or after [global_timer = 0].  Rescaling from
    729 MHz to 486 MHz truncates both deadlines to 2: the array becomes
    [B@2 seq 1; A@2 seq 0], whose first element is ordered after its
    child, and the least event is no longer the first. *)
Theorem AdjustEventQueueTimes_breaks_heap :
  let s := two_close_events in
  let s' := AdjustEventQueueTimes 486000000 729000000 s in
  global_timer s = 0%Z /\
  event_queue s = [mkEvent 3 1 0 (Some "B"); mkEvent 4 0 0 (Some "A")] /\
  is_heapb event_gt (event_queue s) = true /\
  event_queue s' = [mkEvent 2 1 0 (Some "B"); mkEvent 2 0 0 (Some "A")] /\
  is_heapb event_gt (event_queue s') = false /\
  event_gt (mkEvent 2 1 0 (Some "B")) (mkEvent 2 0 0 (Some "A")) = true.
Proof. vm_compute. repeat split; reflexivity. Qed.
#[export] Instance Event_eq_dec : EqDecision Event.
Proof. solve_decision. Defined.

Section FireLoop.
Context {F : FloatOps}.
Implicit Types s : System.

(** *** Scheduling from the CPU thread inside a callback *)

Lemma GetTicks_sane s :
  is_global_timer_sane s = true -> GetTicks s = wrap64u (global_timer s).
Proof. unfold GetTicks. by intros ->. Qed.

Lemma ScheduleEvent_sane cycles ty data s :
  is_global_timer_sane s = true ->
  ScheduleEvent cycles ty data CPU true s
  = push_event (mkEvent (wrap64s (global_timer s + cycles)) (event_fifo_id s) data ty)
      (set_event_fifo_id (wrap64u (event_fifo_id s + 1)) s).
Proof.
  intros Hs. unfold ScheduleEvent. rewrite (GetTicks_sane s Hs), Hs. simpl.
  by rewrite wrap64s_wrap64u_add.
Qed.

Lemma ForceExceptionCheck_frame cycles s :
  let s' := ForceExceptionCheck cycles s in
  event_types s' = event_types s /\ ts_queue s' = ts_queue s /\
  event_queue s' = event_queue s /\ event_fifo_id s' = event_fifo_id s /\
  is_global_timer_sane s' = is_global_timer_sane s /\
  global_timer s' = global_timer s /\ ev_lost s' = ev_lost s.
Proof. unfold ForceExceptionCheck. destruct (_ <? _)%Z; done. Qed.

Lemma ScheduleEvent_timer_sane cycles ty data from cpu s :
  is_global_timer_sane (ScheduleEvent cycles ty data from cpu s) = is_global_timer_sane s.
Proof.
  unfold ScheduleEvent.
  destruct (match from with ANY => cpu | CPU => true | NON_CPU => false end); [|done].
  simpl. destruct (is_global_timer_sane s) eqn:E; simpl; [done|].
  destruct (ForceExceptionCheck_frame cycles s) as (_ & _ & _ & _ & -> & _). done.
Qed.

(** What one call made by a callback leaves alone while the timer is
    sane. *)
Lemma run_action_frame a s :
  is_global_timer_sane s = true ->
  let s' := run_action s a in
  event_types s' = event_types s /\ is_global_timer_sane s' = true /\
  global_timer s' = global_timer s /\
  (no_force [a] -> slice_length s' = slice_length s) /\
  (is_heap event_gt (event_queue s) -> is_heap event_gt (event_queue s')).
Proof.
  intros Hs. destruct a as [cycles ty data|ty|ty|cycles]; unfold run_action.
  - rewrite (ScheduleEvent_sane _ _ _ _ Hs). simpl.
    repeat split; try done. apply event_push_heap_heap.
  - destruct (RemoveEvent_frame ty s) as (-> & _ & _ & -> & -> & -> & _).
    repeat split; try done. apply RemoveEvent_heap.
  - unfold RemoveAllEvents.
    destruct (RemoveEvent_frame ty (MoveEvents s)) as (-> & _ & _ & -> & -> & -> & _).
    destruct (MoveEvents_frame s) as (-> & -> & -> & -> & _).
    repeat split; try done. intros H. by apply RemoveEvent_heap, MoveEvents_heap.
  - destruct (ForceExceptionCheck_frame cycles s) as (-> & _ & -> & _ & -> & -> & _).
    repeat split; try done.
    intros Hnf. unfold no_force in Hnf. rewrite Forall_singleton in Hnf. done.
Qed.

Lemma run_actions_frame acts s :
  is_global_timer_sane s = true ->
  let s' := fold_left run_action acts s in
  event_types s' = event_types s /\ is_global_timer_sane s' = true /\
  global_timer s' = global_timer s /\
  (no_force acts -> slice_length s' = slice_length s) /\
  (is_heap event_gt (event_queue s) -> is_heap event_gt (event_queue s')).
Proof.
  revert s. induction acts as [|a acts IH]; intros s Hs; simpl; [done|].
  destruct (run_action_frame a s Hs) as (Ht & Hs' & Hg & Hl & Hh).
  destruct (IH _ Hs') as (-> & -> & -> & Hl' & Hh').
  repeat split; auto.
  intros Hnf. unfold no_force in Hnf. apply Forall_cons in Hnf as [Ha Hnf].
  rewrite Hl' by done. apply Hl. unfold no_force. by rewrite Forall_singleton.
Qed.



(** *** The fire loop *)

(** Unfolding one iteration that fires an event. *)
Lemma fire_loop_step fuel s log front tl s' log' :
  event_queue s = front :: tl ->
  (time front <= global_timer s)%Z ->
  fire_loop (S fuel) s log = Some (s', log') ->
  exists et,
    let s1 := set_event_queue (removelast (pop_heap event_gt (event_queue s))) s in
    let late := wrap64s (global_timer s - time front) in
    deref s (type front) = Some et /\
    fire_loop fuel (fold_left run_action (callback et (userdata front) late) s1)
      (log ++ [mkDispatch front late (is_global_timer_sane s)])
    = Some (s', log').
Proof.
  intros Hq Hdue. simpl. rewrite Hq.
  destruct (Z.leb_spec (time front) (global_timer s)); [|lia].
  rewrite <- Hq.
  change (deref (set_event_queue (removelast (pop_heap event_gt (event_queue s))) s)
            (type front)) with (deref s (type front)).
  destruct (deref s (type front)) as [et|]; [|done].
  intros Hrun. exists et. simpl. done.
Qed.

Lemma fire_loop_stop fuel s log s' log' :
  (event_queue s = [] \/
   exists front tl, event_queue s = front :: tl /\ (global_timer s < time front)%Z) ->
  fire_loop (S fuel) s log = Some (s', log') -> s' = s /\ log' = log.
Proof.
  simpl. intros [->|(front & tl & -> & Hlt)].
  - by intros [= -> ->].
  - destruct (Z.leb_spec (time front) (global_timer s)); [lia|]. by intros [= -> ->].
Qed.

Lemma queue_cases s :
  event_queue s = [] \/
  (exists front tl, event_queue s = front :: tl /\ (global_timer s < time front)%Z) \/
  (exists front tl, event_queue s = front :: tl /\ (time front <= global_timer s)%Z).
Proof.
  destruct (event_queue s) as [|front tl]; [by left|right].
  destruct (Z.le_gt_cases (time front) (global_timer s)); [right|left]; eauto with lia.
Qed.

(** The state in which the loop ends. *)
Lemma fire_loop_end fuel s log s' log' :
  fire_loop fuel s log = Some (s', log') ->
  is_global_timer_sane s = true ->
  event_types s' = event_types s /\ is_global_timer_sane s' = true /\
  global_timer s' = global_timer s /\
  (registry_no_force s -> slice_length s' = slice_length s) /\
  (is_heap event_gt (event_queue s) -> is_heap event_gt (event_queue s')) /\
  (event_queue s' = [] \/
   exists front tl, event_queue s' = front :: tl /\ (global_timer s' < time front)%Z) /\
  exists new, log' = log ++ new /\ Forall (fun d => timer_sane d = true) new.
Proof.
  revert s log s' log'.
  induction fuel as [|fuel IH]; intros s log s' log' Hrun Hs; [done|].
  destruct (queue_cases s) as [Hq|[Hq|(front & tl & Hq & Hdue)]].
  - destruct (fire_loop_stop fuel s log s' log' (or_introl Hq) Hrun) as [-> ->].
    split_and!; auto. exists []. by rewrite app_nil_r.
  - destruct (fire_loop_stop fuel s log s' log' (or_intror Hq) Hrun) as [-> ->].
    split_and!; auto. exists []. by rewrite app_nil_r.
  - destruct (fire_loop_step fuel s log front tl s' log' Hq Hdue Hrun) as (et & Het & Hrec).
    cbv zeta in Hrec.
    set (s1 := set_event_queue _ s) in Hrec.
    set (acts := callback et _ _) in Hrec.
    destruct (run_actions_frame acts s1 Hs) as (Ht & Hs2 & Hg & Hl & Hh).
    destruct (IH _ _ _ _ Hrec Hs2) as (Ht' & Hs' & Hg' & Hl' & Hh' & Hend & new & -> & Hnew).
    split_and!; [by rewrite Ht', Ht|done|by rewrite Hg', Hg| | |done|].
    + intros Hnf. rewrite Hl'.
      * apply Hl. unfold deref in Het. destruct (type front) as [k|]; [|done].
        by eapply Hnf.
      * unfold registry_no_force. rewrite Ht. exact Hnf.
    + intros H. apply Hh', Hh. by apply event_pop_heap_heap.
    + exists (mkDispatch front (wrap64s (global_timer s - time front))
                (is_global_timer_sane s) :: new).
      rewrite <- app_assoc. split; [done|]. constructor; [done|done].
Qed.


End FireLoop.
Section AdvanceClaims.
Context {F : FloatOps}.
Implicit Types s : System.

(** A property of every registered type, from the list of entries. *)
Lemma registry_Forall (P : EventType -> Prop) s :
  Forall (fun kv => P (snd kv)) (map_to_list (event_types s)) ->
  forall k et, event_types s !! k = Some et -> P et.
Proof.
  intros H k et Hk. apply elem_of_map_to_list in Hk.
  rewrite Forall_forall in H. apply (H (k, et) Hk).
Qed.


Lemma Advance_begin_frame s :
  let s1 := Advance_begin s in
  is_global_timer_sane s1 = true /\ slice_length s1 = MAX_SLICE_LENGTH /\
  event_types s1 = event_types s /\ ts_queue s1 = [] /\
  event_queue s1 = event_queue (MoveEvents s) /\
  event_fifo_id s1 = event_fifo_id (MoveEvents s).
Proof.
  unfold Advance_begin. simpl.
  destruct (MoveEvents_frame s) as (-> & _). by rewrite MoveEvents_ts_queue.
Qed.

Lemma Advance_inv fuel s s' log :
  Advance fuel s = Some (s', log) ->
  exists s2,
    fire_loop fuel (Advance_begin s) [] = Some (s2, log) /\ s' = Advance_end s2.
Proof.
  unfold Advance. destruct (fire_loop fuel (Advance_begin s) []) as [[s2 log2]|]; [|done].
  intros [= <- <-]. by exists s2.
Qed.


(** *** A dispatch inside a pass *)




(** *** The sane flag along a script *)

Lemma Init_timer_sane cfg s : is_global_timer_sane (Init cfg s) = true.
Proof. reflexivity. Qed.

Lemma sane_set_event_queue q s :
  is_global_timer_sane (set_event_queue q s) = is_global_timer_sane s.
Proof. reflexivity. Qed.

Lemma sane_set_event_types m s :
  is_global_timer_sane (set_event_types m s) = is_global_timer_sane s.
Proof. reflexivity. Qed.

Lemma Shutdown_timer_sane s :
  is_global_timer_sane (Shutdown s) = is_global_timer_sane s.
Proof.
  unfold Shutdown, UnregisterAllEvents, ClearPendingEvents.
  rewrite sane_set_event_types, sane_set_event_queue.
  by destruct (MoveEvents_frame s) as (_ & -> & _).
Qed.

Lemma DoState_read_timer_sane p s :
  is_global_timer_sane (DoState_read p s) = is_global_timer_sane s.
Proof.
  unfold DoState_read. cbv zeta. rewrite !sane_set_event_queue.
  match goal with |- context [MoveEvents ?t] =>
    destruct (MoveEvents_frame t) as (_ & -> & _) end.
  reflexivity.
Qed.

Lemma DoState_write_timer_sane s :
  is_global_timer_sane (fst (DoState_write s)) = is_global_timer_sane s.
Proof.
  unfold DoState_write. cbv zeta. unfold fst.
  match goal with |- context [MoveEvents ?t] =>
    destruct (MoveEvents_frame t) as (_ & -> & _) end.
  reflexivity.
Qed.

Lemma RemoveAllEvents_timer_sane ty s :
  is_global_timer_sane (RemoveAllEvents ty s) = is_global_timer_sane s.
Proof.
  unfold RemoveAllEvents.
  destruct (RemoveEvent_frame ty (MoveEvents s)) as (_ & _ & _ & -> & _).
  by destruct (MoveEvents_frame s) as (_ & -> & _).
Qed.

Lemma Advance_timer_sane fuel s s' log :
  Advance fuel s = Some (s', log) ->
  is_global_timer_sane s' = false /\ Forall (fun d => timer_sane d = true) log.
Proof.
  intros Hadv. destruct (Advance_inv fuel s s' log Hadv) as (s2 & Hloop & ->).
  destruct (Advance_begin_frame s) as (Hs1 & _).
  destruct (fire_loop_end _ _ _ _ _ Hloop Hs1) as (_ & _ & _ & _ & _ & _ & new & E & Hnew).
  rewrite app_nil_l in E. subst new. split; [|done].
  unfold Advance_end. by destruct (event_queue (set_is_global_timer_sane false s2)).
Qed.

Lemma run_call_sane fuel c s s' log :
  run_call fuel c s = Some (s', log) ->
  is_global_timer_sane s'
  = (if is_Init c then true
     else if is_Advance c then false else is_global_timer_sane s) /\
  Forall (fun d => timer_sane d = true) log.
Proof.
  destruct c; unfold run_call, is_Init, is_Advance;
    try (intros [= <- <-]; split; [|constructor]).
  - apply Init_timer_sane.
  - apply Shutdown_timer_sane.
  - reflexivity.
  - reflexivity.
  - reflexivity.
  - apply DoState_read_timer_sane.
  - apply DoState_write_timer_sane.
  - reflexivity.
  - apply ScheduleEvent_timer_sane.
  - by destruct (RemoveEvent_frame event_type s) as (_ & _ & _ & -> & _).
  - apply RemoveAllEvents_timer_sane.
  - by destruct (ForceExceptionCheck_frame cycles s) as (_ & _ & _ & _ & -> & _).
  - by destruct (MoveEvents_frame s) as (_ & -> & _).
  - apply Advance_timer_sane.
  - reflexivity.
  - reflexivity.
  - reflexivity.
Qed.

(** C8 (as amended): [is_global_timer_sane] is true from [Init] until the
    next [Advance] returns, and while an event callback dispatched from
    [Advance] runs; once an [Advance] has returned it is false at every
    point between calls, until the next [Init].  No other call writes it. *)
Theorem timer_sane_along_script fuel calls s s' log :
  run_calls fuel calls s = Some (s', log) ->
  is_global_timer_sane s' = sane_after calls (is_global_timer_sane s) /\
  Forall (fun d => timer_sane d = true) log.
Proof.
  revert s log. induction calls as [|c calls IH]; intros s log; simpl.
  - intros [= <- <-]. split; [done|constructor].
  - destruct (run_call fuel c s) as [[s1 log1]|] eqn:Hc; [|done].
    destruct (run_calls fuel calls s1) as [[s2 log2]|] eqn:Hcs; [|done].
    intros [= <- <-].
    destruct (run_call_sane fuel c s s1 log1 Hc) as [E1 H1].
    destruct (IH s1 log2 Hcs) as [E2 H2].
    split; [|by apply Forall_app].
    rewrite E2, E1. unfold sane_after. done.
Qed.

End AdvanceClaims.
Lemma Init_script_runs :
  run_calls 0 [CallInit no_overclock] blank_system
  = Some (Init no_overclock blank_system, []).
Proof. reflexivity. Qed.

(** C8 (as stated) fails: [Init] sets [is_global_timer_sane], so between
    [Init] and the first [Advance], outside any callback, it is true. *)
Lemma timer_sane_counterexample :
  ~ (forall (fuel : nat) (calls : list Call) (s' : System) (log : list Dispatch),
        existsb is_Advance calls = false ->
        run_calls fuel (CallInit no_overclock :: calls) blank_system = Some (s', log) ->
        is_global_timer_sane s' = false).
Proof.
  intros H.
  specialize (H 0 [] (Init no_overclock blank_system) [] eq_refl
                Init_script_runs).
  vm_compute in H. discriminate.
Qed.

Lemma timer_sane_witness :
  is_global_timer_sane (fst chain_result) = false /\
  Forall (fun d => timer_sane d = true) (snd chain_result).
Proof.
  apply (timer_sane_along_script 3 chain_script blank_system
           (fst chain_result) (snd chain_result)).
  vm_compute. reflexivity.
Defined.


Section FiringOrder.
Context {F : FloatOps}.
Implicit Types s : System.

Lemma advance_id_small id n :
  (0 <= id)%Z -> (id + Z.of_nat n < 2 ^ 64)%Z -> advance_id id n = (id + Z.of_nat n)%Z.
Proof.
  revert id. induction n as [|n IH]; intros id H0 Hn; simpl; [lia|].
  rewrite (wrap64u_id (id + 1)) by (unfold in_u64; lia).
  rewrite IH; lia.
Qed.

Lemma renumber_fresh id pending :
  (0 <= id)%Z -> (id + Z.of_nat (length pending) < 2 ^ 64)%Z ->
  Forall (fun e => (fifo_order e < id + Z.of_nat (length pending))%Z) (renumber id pending).
Proof.
  revert id. induction pending as [|ev pending IH]; intros id H0 Hn; simpl; [constructor|].
  simpl in Hn. rewrite (wrap64u_id (id + 1)) by (unfold in_u64; lia).
  constructor; [simpl; lia|].
  eapply Forall_impl; [apply IH; lia|]. simpl. intros; lia.
Qed.

Lemma Forall_filter_keep {A} (P Q : A -> Prop) `{forall x, Decision (Q x)} (l : list A) :
  Forall P l -> Forall P (filter Q l).
Proof.
  rewrite !Forall_forall. intros H' x Hx.
  apply list_elem_of_filter in Hx as [_ Hx]. by apply H'.
Qed.

Lemma event_le_refl e : event_le e e.
Proof. apply event_gt_false. lia. Qed.







End FiringOrder.


Section Supplements.
Context {F : FloatOps}.
Implicit Types s : System.

(** *** The registry between [Init] and [Shutdown] *)

Lemma RegisterEvent_lookup key cb s k :
  event_types (fst (RegisterEvent key cb s)) !! k
  = if decide (key = k)
    then Some (mkEventType
                 (match event_types s !! key with
                  | Some et => callback et
                  | None => cb
                  end) (Some key))
    else event_types s !! k.
Proof.
  unfold RegisterEvent, emplace. simpl. rewrite lookup_alter.
  destruct (decide (key = k)) as [<-|Hne].
  - destruct (event_types s !! key) as [et|] eqn:E.
    + by rewrite E.
    + by rewrite lookup_insert_eq.
  - destruct (event_types s !! key); [done|]. by rewrite lookup_insert_ne.
Qed.

(** Every name pointer refers to the key of its own entry. *)
Lemma RegisterEvent_registry_wf key cb s :
  registry_wf s -> registry_wf (fst (RegisterEvent key cb s)).
Proof.
  intros Hwf k et. rewrite RegisterEvent_lookup.
  case_decide; [|by apply Hwf]. subst k. by intros [= <-].
Qed.

(** Later registrations leave the sentinel and its callback in place. *)
Lemma RegisterEvent_lost_event_registered key cb s :
  lost_event_registered s -> lost_event_registered (fst (RegisterEvent key cb s)).
Proof.
  intros (Hlost & et & Het & Hcb). split; [done|].
  destruct (decide (key = "_lost_event")) as [->|Hne].
  - eexists. rewrite RegisterEvent_lookup.
    destruct (decide ("_lost_event" = "_lost_event")); [|done].
    split; [done|]. by rewrite Het.
  - exists et. rewrite RegisterEvent_lookup. by case_decide.
Qed.

(** *** Sequence numbers follow submission order *)

(** A submission from the CPU thread takes the current value of the
    counter as its sequence number and increments the counter, so of two
    such submissions the earlier has the smaller number (until the [u64]
    counter wraps). *)
Lemma ScheduleEvent_CPU_sequence cycles ty data s :
  let s' := ScheduleEvent cycles ty data CPU true s in
  event_queue s'
  ≡ₚ event_queue s
     ++ [mkEvent (wrap64s (GetTicks s + cycles)) (event_fifo_id s) data ty] /\
  event_fifo_id s' = wrap64u (event_fifo_id s + 1).
Proof.
  unfold ScheduleEvent. cbv zeta.
  destruct (is_global_timer_sane s); simpl.
  - split; [apply push_heap_Permutation|done].
  - destruct (ForceExceptionCheck_frame cycles s) as (_ & _ & Hq & Hid & _).
    rewrite Hq, Hid. split; [apply push_heap_Permutation|done].
Qed.

(** *** The heap invariant along a script *)

Lemma ScheduleEvent_heap cycles ty data from cpu s :
  is_heap event_gt (event_queue s) ->
  is_heap event_gt (event_queue (ScheduleEvent cycles ty data from cpu s)).
Proof.
  intros H. unfold ScheduleEvent.
  destruct (match from with ANY => cpu | CPU => true | NON_CPU => false end); [|done].
  cbv zeta. destruct (is_global_timer_sane s); simpl.
  - by apply event_push_heap_heap.
  - destruct (ForceExceptionCheck_frame cycles s) as (_ & _ & -> & _).
    by apply event_push_heap_heap.
Qed.

Lemma Advance_heap fuel s s' log :
  Advance fuel s = Some (s', log) ->
  is_heap event_gt (event_queue s) -> is_heap event_gt (event_queue s').
Proof.
  intros Hadv Hheap.
  destruct (Advance_inv fuel s s' log Hadv) as (s2 & Hloop & ->).
  destruct (Advance_begin_frame s) as (Hs1 & _ & _ & _ & Hq1 & _).
  destruct (fire_loop_end _ _ _ _ _ Hloop Hs1) as (_ & _ & _ & _ & Hh & _).
  assert (event_queue (Advance_end s2) = event_queue s2) as ->.
  { unfold Advance_end. cbv zeta.
    change (event_queue (set_is_global_timer_sane false s2)) with (event_queue s2).
    destruct (event_queue s2) eqn:E; simpl; by rewrite ?E. }
  apply Hh. rewrite Hq1. by apply MoveEvents_heap.
Qed.

(** Every call but [AdjustEventQueueTimes] leaves the queue a heap. *)
Lemma run_call_heap fuel c s s' log :
  run_call fuel c s = Some (s', log) ->
  (forall new old, c <> CallAdjustEventQueueTimes new old) ->
  is_heap event_gt (event_queue s) -> is_heap event_gt (event_queue s').
Proof.
  intros Hrun Hc Hheap.
  destruct c; unfold run_call in Hrun;
    try (injection Hrun as <- <-).
  - exact Hheap.
  - reflexivity.
  - exact Hheap.
  - exact Hheap.
  - exact Hheap.
  - unfold DoState_read. cbv zeta. apply event_make_heap_heap.
  - unfold DoState_write. cbv zeta. unfold fst.
    match goal with |- context [MoveEvents ?t] =>
      apply (MoveEvents_heap t) end. exact Hheap.
  - reflexivity.
  - by apply ScheduleEvent_heap.
  - by apply RemoveEvent_heap.
  - by apply RemoveEvent_heap, MoveEvents_heap.
  - by destruct (ForceExceptionCheck_frame cycles s) as (_ & _ & -> & _).
  - by apply MoveEvents_heap.
  - by eapply Advance_heap.
  - by destruct (Hc new_ppc_clock old_ppc_clock).
  - exact Hheap.
  - exact Hheap.
Qed.

(** *** What rescaling does preserve *)

Lemma quot_in_s64 x d : (0 < d)%Z -> in_s64 x -> in_s64 (Z.quot x d).
Proof.
  unfold in_s64. intros Hd Hx.
  destruct (Z.le_gt_cases 0 x) as [Hpos|Hneg].
  - pose proof (Z.quot_pos x d Hpos Hd). pose proof (Z.quot_le_upper_bound x d x Hd).
    assert (x <= d * x)%Z by nia. lia.
  - pose proof (Z.quot_opp_l x d ltac:(lia)) as E.
    assert (0 <= - x)%Z as Hpos by lia.
    pose proof (Z.quot_pos (- x) d Hpos Hd).
    pose proof (Z.quot_le_upper_bound (- x) d (- x) Hd).
    assert (- x <= d * - x)%Z by nia. lia.
Qed.

Lemma adjust_time_exact timer new old e :
  (0 < old)%Z -> rescale_in_range timer new old e ->
  time (adjust_time timer new old e)
  = (timer + Z.quot ((time e - timer) * new) old)%Z.
Proof.
  intros Hold (H1 & H2 & H3). unfold adjust_time. simpl.
  rewrite (wrap64s_id _ H1), (wrap64s_id _ H2).
  rewrite (wrap64s_id (Z.quot _ _)) by (by apply quot_in_s64).
  by apply wrap64s_id.
Qed.

(** X18: the rescaling is monotone on deadlines, so the array stays a heap for
    the order on deadlines alone; the sequence numbers of events whose
    deadlines collapse are not consulted. *)
Lemma AdjustEventQueueTimes_deadline_heap new old s :
  (0 <= new)%Z -> (0 < old)%Z ->
  Forall (rescale_in_range (global_timer s) new old) (event_queue s) ->
  is_heap deadline_gt (event_queue s) ->
  is_heap deadline_gt (event_queue (AdjustEventQueueTimes new old s)).
Proof.
  intros Hnew Hold Hr. rewrite !is_heap_heap_on. intros H j p c Hj _.
  unfold AdjustEventQueueTimes. simpl. rewrite !list_lookup_fmap.
  destruct (event_queue s !! heap_parent j) as [p0|] eqn:Hp; [|done].
  destruct (event_queue s !! j) as [c0|] eqn:Hc; [|done].
  intros [= <-] [= <-].
  rewrite Forall_forall in Hr.
  pose proof (Hr p0 (list_elem_of_lookup_2 _ _ _ Hp)) as Hrp.
  pose proof (Hr c0 (list_elem_of_lookup_2 _ _ _ Hc)) as Hrc.
  specialize (H j p0 c0 Hj I Hp Hc).
  unfold deadline_gt in *. apply Z.ltb_ge in H. apply Z.ltb_ge.
  rewrite !adjust_time_exact by done.
  apply Z.add_le_mono_l, Z.quot_le_mono; [done|].
  apply Z.mul_le_mono_nonneg_r; lia.
Qed.

(** *** Advance returns when callbacks schedule strictly ahead *)

Lemma filter_filter_length {A} (P Q : A -> Prop)
    `{forall x, Decision (P x)} `{forall x, Decision (Q x)} (l : list A) :
  length (filter P (filter Q l)) <= length (filter P l).
Proof.
  induction l as [|a l IH]; [done|].
  rewrite !(filter_cons _ a).
  destruct (decide (Q a)), (decide (P a)); rewrite ?filter_cons;
    repeat case_decide; simpl; try done; lia.
Qed.

Lemma run_action_due D a s :
  is_global_timer_sane s = true -> ts_queue s = [] ->
  in_s64 (global_timer s) -> (global_timer s + D < 2 ^ 63)%Z ->
  schedules_ahead D s [a] ->
  Forall (fun e => is_Some (deref s (type e))) (event_queue s) ->
  let s' := run_action s a in
  ts_queue s' = [] /\
  Forall (fun e => is_Some (deref s (type e))) (event_queue s') /\
  length (due_events s') <= length (due_events s).
Proof.
  intros Hs Hts Hg HD Ha Hty.
  unfold schedules_ahead in Ha. rewrite Forall_singleton in Ha.
  destruct a as [cycles ty data|ty|ty|cycles]; unfold run_action; simpl in Ha.
  - destruct Ha as [Hc Hreg].
    rewrite (ScheduleEvent_sane _ _ _ _ Hs).
    set (e := mkEvent _ _ _ _). set (s1 := set_event_fifo_id _ s).
    assert (time e = (global_timer s + cycles)%Z) as Et.
    { unfold e. simpl. apply wrap64s_id. unfold in_s64 in *. lia. }
    split; [done|]. split.
    + rewrite push_event_queue. apply Forall_app. split; [done|].
      by apply Forall_singleton.
    + unfold due_events.
      change (global_timer (push_event e s1)) with (global_timer s).
      rewrite push_event_queue, filter_app, length_app.
      change (event_queue s1) with (event_queue s).
      rewrite filter_cons. case_decide; [lia|]. rewrite filter_nil. simpl. lia.
  - destruct (RemoveEvent_frame ty s) as (_ & -> & _ & _ & Hg' & _).
    split; [done|]. split.
    + rewrite RemoveEvent_queue. by apply Forall_filter_keep.
    + unfold due_events. rewrite Hg', RemoveEvent_queue. apply filter_filter_length.
  - unfold RemoveAllEvents. rewrite (MoveEvents_empty s Hts).
    destruct (RemoveEvent_frame ty s) as (_ & -> & _ & _ & Hg' & _).
    split; [done|]. split.
    + rewrite RemoveEvent_queue. by apply Forall_filter_keep.
    + unfold due_events. rewrite Hg', RemoveEvent_queue. apply filter_filter_length.
  - destruct (ForceExceptionCheck_frame cycles s) as (_ & Hts' & Hq' & _ & _ & Hg' & _).
    unfold due_events. rewrite Hts', Hq', Hg'. done.
Qed.

Lemma run_actions_due D acts s :
  is_global_timer_sane s = true -> ts_queue s = [] ->
  in_s64 (global_timer s) -> (global_timer s + D < 2 ^ 63)%Z ->
  schedules_ahead D s acts ->
  Forall (fun e => is_Some (deref s (type e))) (event_queue s) ->
  let s' := fold_left run_action acts s in
  ts_queue s' = [] /\
  Forall (fun e => is_Some (deref s (type e))) (event_queue s') /\
  length (due_events s') <= length (due_events s).
Proof.
  revert s. induction acts as [|a acts IH]; intros s Hs Hts Hg HD Hacts Hty; simpl.
  - split; [done|]. split; [done|lia].
  - unfold schedules_ahead in Hacts. apply Forall_cons in Hacts as [Ha Hacts].
    destruct (run_action_due D a s Hs Hts Hg HD) as (Hts1 & Hty1 & Hdue1); [|done|].
    { unfold schedules_ahead. by rewrite Forall_singleton. }
    destruct (run_action_frame a s Hs) as (Ht1 & Hs1 & Hg1 & _).
    assert (forall ptr, deref (run_action s a) ptr = deref s ptr) as Hderef.
    { intros ptr. unfold deref. by rewrite Ht1. }
    destruct (IH (run_action s a)) as (Hts2 & Hty2 & Hdue2); try done.
    + by rewrite Hg1.
    + by rewrite Hg1.
    + unfold schedules_ahead. eapply Forall_impl; [exact Hacts|].
      intros [] ?; simpl in *; try done. by rewrite Hderef.
    + eapply Forall_impl; [exact Hty1|]. intros e ?. simpl. by rewrite Hderef.
    + split; [done|]. split; [|lia].
      eapply Forall_impl; [exact Hty2|]. intros e ?. simpl in *. by rewrite <- Hderef.
Qed.

(** The fire loop ends within one iteration per due event, plus one. *)
Lemma fire_loop_returns D fuel s log :
  is_global_timer_sane s = true -> ts_queue s = [] ->
  in_s64 (global_timer s) -> (global_timer s + D < 2 ^ 63)%Z ->
  registry_schedules_ahead D s ->
  Forall (fun e => is_Some (deref s (type e))) (event_queue s) ->
  length (due_events s) < fuel ->
  is_Some (fire_loop fuel s log).
Proof.
  revert s log. induction fuel as [|fuel IH]; intros s log Hs Hts Hg HD Hreg Hty Hfuel; [lia|].
  destruct (queue_cases s) as [Hq|[(front & tl & Hq & Hlt)|(front & tl & Hq & Hdue)]].
  - simpl. rewrite Hq. by eexists.
  - simpl. rewrite Hq. destruct (Z.leb_spec (time front) (global_timer s)); [lia|].
    by eexists.
  - assert (is_Some (deref s (type front))) as [et Het].
    { rewrite Hq in Hty. by apply Forall_cons in Hty as [? _]. }
    simpl. rewrite Hq. destruct (Z.leb_spec (time front) (global_timer s)); [|lia].
    rewrite <- Hq.
    change (deref (set_event_queue (removelast (pop_heap event_gt (event_queue s))) s)
              (type front)) with (deref s (type front)).
    rewrite Het.
    set (s1 := set_event_queue _ s).
    set (acts := callback et _ _).
    assert (event_queue s1 ≡ₚ tl) as Hq1.
    { unfold s1. simpl. rewrite Hq. apply pop_heap_pop_back_Permutation. }
    assert (S (length (due_events s1)) = length (due_events s)) as Hd1.
    { unfold due_events. change (global_timer s1) with (global_timer s).
      rewrite Hq1, Hq, filter_cons. case_decide; [done|lia]. }
    assert (schedules_ahead D s1 acts) as Hacts.
    { unfold deref in Het. destruct (type front) as [k|]; [|done]. by eapply Hreg. }
    destruct (run_actions_due D acts s1) as (Hts2 & Hty2 & Hdue2); try done.
    { rewrite Hq1. rewrite Hq in Hty. by apply Forall_cons in Hty as [_ ?]. }
    destruct (run_actions_frame acts s1 Hs) as (Ht2 & Hs2 & Hg2 & _).
    assert (forall ptr, deref (fold_left run_action acts s1) ptr = deref s ptr) as Hderef.
    { intros ptr. unfold deref. by rewrite Ht2. }
    apply IH; try done.
    + by rewrite Hg2.
    + by rewrite Hg2.
    + intros k et' data late Hk. rewrite Ht2 in Hk.
      eapply Forall_impl; [exact (Hreg k et' data late Hk)|].
      intros [] ?; simpl in *; try done. by rewrite Hderef.
    + eapply Forall_impl; [exact Hty2|]. intros e ?. simpl in *. by rewrite Hderef.
    + lia.
Qed.

(** X17: [Advance] returns when every pending event has a registered type and
    callbacks schedule registered types strictly ahead: one iteration per
    pending event, plus one, is enough. *)
Lemma Advance_returns D s :
  registry_schedules_ahead D s ->
  Forall (fun e => is_Some (deref s (type e))) (event_queue s ++ ts_queue s) ->
  (global_timer (Advance_begin s) + D < 2 ^ 63)%Z ->
  is_Some (Advance (S (length (event_queue s) + length (ts_queue s))) s).
Proof.
  intros Hreg Hty HD.
  destruct (Advance_begin_frame s) as (Hs1 & _ & Ht1 & Hts1 & Hq1 & _).
  assert (forall ptr, deref (Advance_begin s) ptr = deref s ptr) as Hderef.
  { intros ptr. unfold deref. by rewrite Ht1. }
  destruct (fire_loop_returns D (S (length (event_queue s) + length (ts_queue s)))
              (Advance_begin s) []) as [[s2 log] Hloop]; try done.
  - apply wrap64s_range.
  - intros k et data late Hk. rewrite Ht1 in Hk.
    eapply Forall_impl; [exact (Hreg k et data late Hk)|].
    intros [] ?; simpl in *; try done. by rewrite Hderef.
  - rewrite Hq1, MoveEvents_queue. apply Forall_app in Hty as [Hh Hi].
    apply Forall_app. split.
    + eapply Forall_impl; [exact Hh|]. intros e ?. simpl. by rewrite Hderef.
    + pose proof (renumber_fields (event_fifo_id s) (ts_queue s)) as Hf.
      induction Hf as [|a b l l' (_ & _ & Hab) _ IH]; [constructor|].
      apply Forall_cons in Hi as [Ha Hi].
      constructor; [|by apply IH]. simpl. by rewrite Hderef, Hab.
  - unfold due_events.
    pose proof (length_filter (fun e => (time e <= global_timer (Advance_begin s))%Z)
                  (event_queue (Advance_begin s))) as Hle.
    rewrite Hq1 in Hle at 2. rewrite MoveEvents_queue, length_app in Hle.
    assert (length (renumber (event_fifo_id s) (ts_queue s)) = length (ts_queue s)) as El.
    { symmetry. eapply Forall2_length, renumber_fields. }
    lia.
  - unfold Advance. rewrite Hloop. by eexists.
Qed.

End Supplements.
Section ZeroDelay.
Context {F : FloatOps}.
Implicit Types s : System.
Variable rank : EventTypePtr -> nat.
Variable K : nat.

(** *** Advance returns when zero-delay scheduling is well founded *)













(** *** A zero-delay cycle never ends *)

Lemma fire_loop_self_rescheduling k et fuel s log e :
  event_types s !! k = Some et ->
  (forall data late, callback et data late = [ActScheduleEvent 0 (Some k) data]) ->
  is_global_timer_sane s = true -> in_s64 (global_timer s) ->
  event_queue s = [e] -> type e = Some k -> (time e <= global_timer s)%Z ->
  fire_loop fuel s log = None.
Proof.
  intros Het Hcb. revert s log e Het.
  induction fuel as [|fuel IH]; intros s log e Het Hs Hg Hq Hty Hdue; [done|].
  simpl. rewrite Hq. destruct (Z.leb_spec (time e) (global_timer s)); [|lia].
  rewrite Hty. unfold deref at 1.
  change (event_types (set_event_queue ?q s)) with (event_types s). rewrite Het.
  rewrite Hcb. unfold fold_left, run_action.
  set (s1 := set_event_queue _ s).
  assert (is_global_timer_sane s1 = true) as Hs1 by exact Hs.
  rewrite (ScheduleEvent_sane _ _ _ _ Hs1).
  set (e' := mkEvent _ _ _ _). set (s2 := set_event_fifo_id _ s1).
  apply (IH (push_event e' s2) _ e'); try done.
  unfold e'. simpl. change (global_timer s1) with (global_timer s).
  rewrite Z.add_0_r, (wrap64s_id _ Hg). lia.
Qed.

(** X27: [Advance] does not return when the only pending event is due and
    the callback of its type schedules that type again with delay zero:
    every iteration of the fire loop pops one such event and pushes the
    next at the same deadline. *)
Theorem Advance_zero_delay_cycle k et e fuel s :
  event_types s !! k = Some et ->
  (forall data late, callback et data late = [ActScheduleEvent 0 (Some k) data]) ->
  event_queue (MoveEvents s) = [e] -> type e = Some k ->
  (time e <= global_timer (Advance_begin s))%Z ->
  Advance fuel s = None.
Proof.
  intros Het Hcb Hq Hty Hdue.
  destruct (Advance_begin_frame s) as (Hs1 & _ & Ht1 & _ & Hq1 & _).
  unfold Advance.
  rewrite (fire_loop_self_rescheduling k et fuel (Advance_begin s) [] e); try done.
  - by rewrite Ht1.
  - apply wrap64s_range.
Qed.

End ZeroDelay.



Lemma Advance_zero_delay_cycle_witness :
  Advance 200 loop_system = None.
Proof.
  apply (Advance_zero_delay_cycle "L" (mkEventType reschedules_L (Some "L"))
           (mkEvent 0 0 0 (Some "L")) 200 loop_system).
  - vm_compute. reflexivity.
  - reflexivity.
  - vm_compute. reflexivity.
  - reflexivity.
  - vm_compute. discriminate.
Defined.
(** ** Scenarios *)

(** An event scheduled 30 cycles ahead from inside a callback shortens the
    next slice to 30 cycles. *)
Example slice_shortening :
  exists s' log,
    run_calls 2 shortening_script blank_system = Some (s', log) /\
    map fired log = [mkEvent 0 0 0 (Some "A")] /\
    event_queue s' = [mkEvent 30 1 0 (Some "X")] /\
    global_timer s' = 0%Z /\ slice_length s' = 30%Z /\ downcount s' = 30%Z.
Proof.
  exists (fst (default (blank_system, []) (run_calls 2 shortening_script blank_system))).
  exists (snd (default (blank_system, []) (run_calls 2 shortening_script blank_system))).
  vm_compute. repeat split; reflexivity.
Qed.

(** Loading a save state whose first and last events have an unknown type
    keeps three heap entries; the unknown ones carry the sentinel. *)
Example lost_events_on_load :
  event_queue (DoState_read save_with_unknown two_types)
  = [mkEvent 100 1 11 (Some "_lost_event"); mkEvent 100 2 12 (Some "B");
     mkEvent 200 3 13 (Some "_lost_event")] /\
  global_timer (DoState_read save_with_unknown two_types) = 50%Z /\
  event_fifo_id (DoState_read save_with_unknown two_types) = 4%Z.
Proof. vm_compute. repeat split; reflexivity. Qed.

(** Idling with 9000 cycles left banks them and zeroes the downcount. *)
Example idle_skip :
  let s := Idle (set_downcount 9000 (Init no_overclock blank_system)) in
  idled_cycles s = 9000%Z /\ downcount s = 0%Z.
Proof. vm_compute. split; reflexivity. Qed.

(** The whole first slice executed, then [Advance]: "A", due at 100, fires
    19900 cycles late and chains to "B", which fires in the same pass. *)
Example chain_dispatches :
  snd chain_result
  = [mkDispatch (mkEvent 100 0 42 (Some "A")) 19900 true;
     mkDispatch (mkEvent 20000 2 42 (Some "B")) 0 true] /\
  global_timer (fst chain_result) = 20000%Z.
Proof. vm_compute. split; reflexivity. Qed.
(** * Further properties of the scheduler *)

Section MoreFacts.
Context {F : FloatOps}.
Implicit Types s : System.

(** ** Projections through the setters *)

Lemma global_timer_set_event_queue q s :
  global_timer (set_event_queue q s) = global_timer s.
Proof. reflexivity. Qed.

Lemma RemoveEvent_unmatched ty s :
  Forall (fun e => type e <> ty) (event_queue s) -> RemoveEvent ty s = s.
Proof.
  intros H. unfold RemoveEvent.
  assert (filter (fun e => type e <> ty) (event_queue s) = event_queue s) as ->.
  { induction H as [|e l He _ IH]; [done|].
    rewrite filter_cons. destruct (decide (type e <> ty)); [|done]. by rewrite IH. }
  by rewrite Nat.ltb_irrefl.
Qed.

Lemma RemoveEvent_none_left ty s :
  Forall (fun e => type e <> ty) (event_queue (RemoveEvent ty s)).
Proof.
  apply Forall_forall. intros e He. rewrite RemoveEvent_queue in He.
  by apply list_elem_of_filter in He as [? _].
Qed.

(** X1: cancelling twice is cancelling once: a second [RemoveEvent] (or
    [RemoveAllEvents]) for the same type returns the state of the first,
    array layout included. *)
Theorem RemoveEvent_idempotent ty s :
  RemoveEvent ty (RemoveEvent ty s) = RemoveEvent ty s /\
  RemoveAllEvents ty (RemoveAllEvents ty s) = RemoveAllEvents ty s.
Proof.
  split.
  - apply RemoveEvent_unmatched, RemoveEvent_none_left.
  - unfold RemoveAllEvents at 1. rewrite MoveEvents_empty.
    + unfold RemoveAllEvents. apply RemoveEvent_unmatched, RemoveEvent_none_left.
    + unfold RemoveAllEvents.
      destruct (RemoveEvent_frame ty (MoveEvents s)) as (_ & -> & _).
      apply MoveEvents_ts_queue.
Qed.

(** ** The drain *)

Lemma advance_id_exact id n :
  (0 <= id)%Z -> (id + Z.of_nat n < 2 ^ 64)%Z -> advance_id id n = (id + Z.of_nat n)%Z.
Proof.
  revert id. induction n as [|n IH]; intros id H0 Hn; simpl; [lia|].
  rewrite (wrap64u_id (id + 1)) by (unfold in_u64; lia).
  rewrite IH; lia.
Qed.

(** X2: [MoveEvents] empties the inbox into the heap, giving the events
    consecutive sequence numbers in the order they were submitted (as long
    as the counter does not wrap), advances the counter by their number,
    keeps a heap a heap, and does nothing when run again. *)
Theorem MoveEvents_drains s :
  ts_queue (MoveEvents s) = [] /\
  event_queue (MoveEvents s)
  ≡ₚ event_queue s ++ renumber (event_fifo_id s) (ts_queue s) /\
  event_fifo_id (MoveEvents s) = advance_id (event_fifo_id s) (length (ts_queue s)) /\
  MoveEvents (MoveEvents s) = MoveEvents s /\
  (is_heap event_gt (event_queue s) -> is_heap event_gt (event_queue (MoveEvents s))) /\
  ((0 <= event_fifo_id s)%Z ->
   (event_fifo_id s + Z.of_nat (length (ts_queue s)) < 2 ^ 64)%Z ->
   event_fifo_id (MoveEvents s)
   = (event_fifo_id s + Z.of_nat (length (ts_queue s)))%Z /\
   forall i ev,
     ts_queue s !! i = Some ev ->
     renumber (event_fifo_id s) (ts_queue s) !! i
     = Some (mkEvent (time ev) (event_fifo_id s + Z.of_nat i) (userdata ev) (type ev))).
Proof.
  split_and!.
  - apply MoveEvents_ts_queue.
  - apply MoveEvents_queue.
  - unfold MoveEvents. by rewrite MoveEvents_loop_fifo_id.
  - apply MoveEvents_empty, MoveEvents_ts_queue.
  - apply MoveEvents_heap.
  - intros H0 Hn. split.
    + unfold MoveEvents. rewrite MoveEvents_loop_fifo_id. simpl.
      by apply advance_id_exact.
    + intros i ev Hi. rewrite (renumber_lookup _ _ _ _ Hi).
      apply lookup_lt_Some in Hi. unfold with_fifo_order.
      rewrite advance_id_exact; [done|done|lia].
Qed.

(** ** The heap invariant *)

(** X3: the queue stays a heap under [operator>] along every script of
    calls that does not contain [AdjustEventQueueTimes], callbacks run by
    [Advance] included. *)
Theorem heap_along_script fuel calls s s' log :
  run_calls fuel calls s = Some (s', log) ->
  existsb is_AdjustEventQueueTimes calls = false ->
  is_heap event_gt (event_queue s) ->
  is_heap event_gt (event_queue s').
Proof.
  revert s log. induction calls as [|c calls IH]; intros s log; simpl.
  - by intros [= <- <-].
  - destruct (run_call fuel c s) as [[s1 log1]|] eqn:Hc; [|done].
    destruct (run_calls fuel calls s1) as [[s2 log2]|] eqn:Hcs; [|done].
    intros [= <- <-] Hno Hheap. apply orb_false_iff in Hno as [Hc0 Hno].
    apply (IH s1 log2 Hcs Hno).
    apply (run_call_heap fuel c s s1 log1 Hc); [|done].
    intros new old ->. done.
Qed.

(** ** What Advance dispatches *)

Lemma fire_loop_due fuel s log s' log' :
  fire_loop fuel s log = Some (s', log') ->
  is_global_timer_sane s = true ->
  exists new,
    log' = log ++ new /\
    Forall (fun d =>
              (time (fired d) <= global_timer s)%Z /\
              cycles_late d = wrap64s (global_timer s - time (fired d)) /\
              timer_sane d = true /\
              is_Some (deref s (type (fired d)))) new.
Proof.
  revert s log s' log'.
  induction fuel as [|fuel IH]; intros s log s' log' Hrun Hs; [done|].
  destruct (queue_cases s) as [Hq|[Hq|(front & tl & Hq & Hdue)]].
  - destruct (fire_loop_stop fuel s log s' log' (or_introl Hq) Hrun) as [-> ->].
    exists []. by rewrite app_nil_r.
  - destruct (fire_loop_stop fuel s log s' log' (or_intror Hq) Hrun) as [-> ->].
    exists []. by rewrite app_nil_r.
  - destruct (fire_loop_step fuel s log front tl s' log' Hq Hdue Hrun) as (et & Het & Hrec).
    cbv zeta in Hrec.
    set (s1 := set_event_queue _ s) in Hrec.
    set (acts := callback et _ _) in Hrec.
    destruct (run_actions_frame acts s1 Hs) as (Ht & Hs2 & Hg & _).
    destruct (IH _ _ _ _ Hrec Hs2) as (new & -> & Hnew).
    exists (mkDispatch front (wrap64s (global_timer s - time front))
              (is_global_timer_sane s) :: new).
    rewrite <- app_assoc. split; [done|]. constructor.
    + simpl. rewrite Het. split_and!; try done; by eexists.
    + eapply Forall_impl; [exact Hnew|]. simpl. intros d (H1 & H2 & H3 & H4).
      rewrite Hg in H1, H2. split_and!; try done.
      unfold deref in *. by rewrite Ht in H4.
Qed.

Lemma Advance_end_frame s :
  event_queue (Advance_end s) = event_queue s /\
  global_timer (Advance_end s) = global_timer s /\
  event_types (Advance_end s) = event_types s /\
  is_global_timer_sane (Advance_end s) = false.
Proof.
  unfold Advance_end. cbv zeta.
  change (event_queue (set_is_global_timer_sane false s)) with (event_queue s).
  destruct (event_queue s) eqn:E; simpl; by rewrite ?E.
Qed.

(** X4: [Advance] never fires an event early: every callback it invokes
    belongs to an event whose deadline is at or before the [global_timer]
    of the pass, receives [global_timer] minus the deadline as
    [cyclesLate], runs with the timer sane, and is that of a registered
    type. *)
Theorem Advance_dispatches_due fuel s s' log :
  Advance fuel s = Some (s', log) ->
  Forall (fun d =>
            (time (fired d) <= global_timer s')%Z /\
            cycles_late d = wrap64s (global_timer s' - time (fired d)) /\
            timer_sane d = true /\
            is_Some (deref s (type (fired d)))) log.
Proof.
  intros Hadv.
  destruct (Advance_inv fuel s s' log Hadv) as (s2 & Hloop & ->).
  destruct (Advance_begin_frame s) as (Hs1 & _ & Ht1 & _).
  destruct (fire_loop_end _ _ _ _ _ Hloop Hs1) as (_ & _ & Hg2 & _).
  destruct (fire_loop_due _ _ _ _ _ Hloop Hs1) as (new & E & Hnew).
  rewrite app_nil_l in E. subst new.
  destruct (Advance_end_frame s2) as (_ & -> & _). rewrite Hg2.
  eapply Forall_impl; [exact Hnew|]. simpl. intros d (H1 & H2 & H3 & H4).
  split_and!; try done. unfold deref in *. by rewrite Ht1 in H4.
Qed.

Lemma filter_none {A} (P : A -> Prop) `{forall x, Decision (P x)} (l : list A) :
  Forall (fun x => ~ P x) l -> filter P l = [].
Proof.
  induction 1 as [|x l Hx _ IH]; [done|].
  rewrite filter_cons. by destruct (decide (P x)).
Qed.

Lemma run_actions_due_same D acts s :
  is_global_timer_sane s = true ->
  in_s64 (global_timer s) -> (global_timer s + D < 2 ^ 63)%Z ->
  schedules_strictly_ahead D acts ->
  due_events (fold_left run_action acts s) ≡ₚ due_events s.
Proof.
  revert s. induction acts as [|a acts IH]; intros s Hs Hg HD Hacts; simpl; [done|].
  unfold schedules_strictly_ahead in Hacts. apply Forall_cons in Hacts as [Ha Hacts].
  destruct (run_action_frame a s Hs) as (_ & Hs1 & Hg1 & _).
  rewrite IH; [|done|by rewrite Hg1|by rewrite Hg1|done].
  destruct a as [cycles ty data| | |]; [|done|done|done].
  unfold run_action, due_events. rewrite (ScheduleEvent_sane _ _ _ _ Hs).
  set (e := mkEvent _ _ _ _). set (s1 := set_event_fifo_id _ s).
  change (global_timer (push_event e s1)) with (global_timer s).
  rewrite push_event_queue, filter_app.
  change (event_queue s1) with (event_queue s).
  rewrite (filter_none _ [e]); [by rewrite app_nil_r|].
  apply Forall_singleton. unfold e. simpl.
  rewrite wrap64s_id; [lia|]. unfold in_s64 in *. lia.
Qed.

Lemma fire_loop_exact D fuel s log s' log' :
  fire_loop fuel s log = Some (s', log') ->
  is_global_timer_sane s = true ->
  is_heap event_gt (event_queue s) ->
  in_s64 (global_timer s) -> (global_timer s + D < 2 ^ 63)%Z ->
  registry_schedules_strictly_ahead D s ->
  exists new, log' = log ++ new /\ map fired new ≡ₚ due_events s.
Proof.
  revert s log s' log'.
  induction fuel as [|fuel IH]; intros s log s' log' Hrun Hs Hheap Hg HD Hreg; [done|].
  destruct (queue_cases s) as [Hq|[(front & tl & Hq & Hlt)|(front & tl & Hq & Hdue)]].
  - destruct (fire_loop_stop fuel s log s' log' (or_introl Hq) Hrun) as [-> ->].
    exists []. rewrite app_nil_r. unfold due_events. by rewrite Hq.
  - destruct (fire_loop_stop fuel s log s' log') as [-> ->]; [right; eauto|done|].
    exists []. rewrite app_nil_r. split; [done|].
    unfold due_events. rewrite filter_none; [done|].
    rewrite Hq in *. apply Forall_forall. intros e He.
    pose proof (event_heap_front_min front tl e Hheap He) as Hle.
    apply event_le_time in Hle. lia.
  - destruct (fire_loop_step fuel s log front tl s' log' Hq Hdue Hrun) as (et & Het & Hrec).
    cbv zeta in Hrec.
    set (s1 := set_event_queue _ s) in Hrec.
    set (acts := callback et _ _) in Hrec.
    assert (schedules_strictly_ahead D acts) as Hacts.
    { unfold deref in Het. destruct (type front) as [k|]; [|done]. by eapply Hreg. }
    destruct (run_actions_frame acts s1 Hs) as (Ht & Hs2 & Hg2 & _ & Hh).
    destruct (IH _ _ _ _ Hrec Hs2) as (new & -> & Hnew).
    + apply Hh. unfold s1. simpl. by apply event_pop_heap_heap.
    + by rewrite Hg2.
    + by rewrite Hg2.
    + unfold registry_schedules_strictly_ahead. rewrite Ht. exact Hreg.
    + exists (mkDispatch front (wrap64s (global_timer s - time front))
                (is_global_timer_sane s) :: new).
      rewrite <- app_assoc. split; [done|]. simpl. rewrite Hnew.
      rewrite (run_actions_due_same D acts s1); try done.
      unfold due_events. change (global_timer s1) with (global_timer s).
      unfold s1. simpl. rewrite Hq, pop_heap_pop_back_Permutation.
      rewrite filter_cons. by destruct (decide (time front <= global_timer s)%Z).
Qed.

(** X5: when the callbacks only schedule, strictly ahead, [Advance]
    invokes a callback for exactly the events, from the heap or from the
    inbox, whose deadline is at or before the new [global_timer]: each
    once, and no other. *)
Theorem Advance_fires_exactly_due D fuel s s' log :
  Advance fuel s = Some (s', log) ->
  is_heap event_gt (event_queue s) ->
  registry_schedules_strictly_ahead D s ->
  (global_timer s' + D < 2 ^ 63)%Z ->
  map fired log
  ≡ₚ filter (fun e => (time e <= global_timer s')%Z) (event_queue (MoveEvents s)).
Proof.
  intros Hadv Hheap Hreg HD.
  destruct (Advance_inv fuel s s' log Hadv) as (s2 & Hloop & ->).
  destruct (Advance_begin_frame s) as (Hs1 & _ & Ht1 & _ & Hq1 & _).
  destruct (fire_loop_end _ _ _ _ _ Hloop Hs1) as (_ & _ & Hg2 & _).
  destruct (Advance_end_frame s2) as (_ & Eg & _). rewrite Eg, Hg2 in *.
  assert (is_heap event_gt (event_queue (Advance_begin s))) as Hh1.
  { rewrite Hq1. by apply MoveEvents_heap. }
  assert (in_s64 (global_timer (Advance_begin s))) as Hin by apply wrap64s_range.
  assert (registry_schedules_strictly_ahead D (Advance_begin s)) as Hreg1.
  { unfold registry_schedules_strictly_ahead. rewrite Ht1. exact Hreg. }
  destruct (fire_loop_exact D _ _ _ _ _ Hloop Hs1 Hh1 Hin HD Hreg1) as (new & E & Hnew).
  rewrite app_nil_l in E. subst new. rewrite Hnew. unfold due_events.
  rewrite Hq1. reflexivity.
Qed.

(** ** The timer *)

Lemma ScheduleEvent_global_timer cycles ty data from cpu s :
  global_timer (ScheduleEvent cycles ty data from cpu s) = global_timer s.
Proof.
  unfold ScheduleEvent.
  destruct (match from with ANY => cpu | CPU => true | NON_CPU => false end); [|done].
  cbv zeta. destruct (is_global_timer_sane s); simpl; [done|].
  by destruct (ForceExceptionCheck_frame cycles s) as (_ & _ & _ & _ & _ & -> & _).
Qed.

Lemma Advance_global_timer fuel s s' log :
  Advance fuel s = Some (s', log) ->
  global_timer s'
  = wrap64s (global_timer s + wrap32s (slice_length s - DowncountToCycles s (downcount s))).
Proof.
  intros Hadv.
  destruct (Advance_inv fuel s s' log Hadv) as (s2 & Hloop & ->).
  destruct (Advance_begin_frame s) as (Hs1 & _).
  destruct (fire_loop_end _ _ _ _ _ Hloop Hs1) as (_ & _ & Hg2 & _).
  destruct (Advance_end_frame s2) as (_ & -> & _). rewrite Hg2.
  unfold Advance_begin. cbv zeta. simpl. unfold DowncountToCycles.
  by destruct (MoveEvents_frame s) as (_ & _ & -> & -> & -> & _ & _ & -> & _).
Qed.

(** X6: [global_timer] is written by [Init] (zero), by loading a save
    state (the saved value) and by [Advance], which adds the cycles
    executed in the slice, [slice_length] minus the cycles the downcount
    stands for; no other call, and no event callback, changes it. *)
Theorem global_timer_along_call fuel c s s' log :
  run_call fuel c s = Some (s', log) ->
  global_timer s' = global_timer_after c s.
Proof.
  destruct c; unfold run_call, global_timer_after;
    try (intros [= <- <-]); try reflexivity.
  - unfold Shutdown, UnregisterAllEvents, ClearPendingEvents.
    change (global_timer (MoveEvents s) = global_timer s).
    by destruct (MoveEvents_frame s) as (_ & _ & -> & _).
  - unfold DoState_read. cbv zeta. rewrite !global_timer_set_event_queue.
    match goal with |- context [MoveEvents ?t] =>
      destruct (MoveEvents_frame t) as (_ & _ & -> & _) end.
    reflexivity.
  - unfold DoState_write. cbv zeta. unfold fst.
    match goal with |- context [MoveEvents ?t] =>
      destruct (MoveEvents_frame t) as (_ & _ & -> & _) end.
    reflexivity.
  - apply ScheduleEvent_global_timer.
  - by destruct (RemoveEvent_frame event_type s) as (_ & _ & _ & _ & -> & _).
  - unfold RemoveAllEvents.
    destruct (RemoveEvent_frame event_type (MoveEvents s)) as (_ & _ & _ & _ & -> & _).
    by destruct (MoveEvents_frame s) as (_ & _ & -> & _).
  - by destruct (ForceExceptionCheck_frame cycles s) as (_ & _ & _ & _ & _ & -> & _).
  - by destruct (MoveEvents_frame s) as (_ & _ & -> & _).
  - apply Advance_global_timer.
Qed.

(** ** The slice and the next deadline *)

Lemma Advance_end_slice_length s :
  slice_length (Advance_end s)
  = match event_queue s with
    | [] => slice_length s
    | front :: _ =>
        wrap32s (Z.min (wrap64s (time front - global_timer s)) MAX_SLICE_LENGTH)
    end.
Proof.
  unfold Advance_end. cbv zeta.
  change (event_queue (set_is_global_timer_sane false s)) with (event_queue s).
  destruct (event_queue s) eqn:E; simpl; by rewrite ?E.
Qed.

(** X7: when [Advance] returns, the slice it has programmed ends no later
    than any pending deadline: [global_timer + slice_length] is at most
    the deadline of every event in the queue.  (The queue is a heap at
    entry and the [s64] subtraction does not overflow.) *)
Theorem Advance_slice_covers fuel s s' log :
  Advance fuel s = Some (s', log) ->
  is_heap event_gt (event_queue s) ->
  (forall front tl,
      event_queue s' = front :: tl -> (time front - global_timer s' < 2 ^ 63)%Z) ->
  slice_covers s'.
Proof.
  intros Hadv Hheap Hover.
  destruct (Advance_inv fuel s s' log Hadv) as (s2 & Hloop & ->).
  destruct (Advance_begin_frame s) as (Hs1 & _ & _ & _ & Hq1 & _).
  destruct (fire_loop_end _ _ _ _ _ Hloop Hs1) as (_ & _ & _ & _ & Hh2 & Hend & _).
  destruct (Advance_end_frame s2) as (Eq & Eg & _).
  unfold slice_covers. rewrite Eq, Eg in *. rewrite Advance_end_slice_length.
  assert (is_heap event_gt (event_queue s2)) as Hheap2.
  { apply Hh2. rewrite Hq1. by apply MoveEvents_heap. }
  destruct (event_queue s2) as [|front tl] eqn:Hq2; [constructor|].
  destruct Hend as [?|(f & t & [= <- <-] & Hlt)]; [done|].
  pose proof (Hover front tl eq_refl) as Hov.
  rewrite (wrap64s_id (time front - global_timer s2)) by (unfold in_s64; lia).
  rewrite wrap32s_id by (unfold in_s32, MAX_SLICE_LENGTH; lia).
  apply Forall_forall. intros e He.
  pose proof (event_heap_front_min front tl e Hheap2 He) as Hle.
  apply event_le_time in Hle. lia.
Qed.

Lemma GetTicks_mid_slice s :
  is_global_timer_sane s = false ->
  GetTicks s
  = wrap64u (global_timer s
             + wrap32s (slice_length s - DowncountToCycles s (downcount s))).
Proof.
  intros Hs. unfold GetTicks. rewrite Hs. unfold wrap64u.
  by rewrite Zplus_mod_idemp_l.
Qed.

(** X8: scheduling from the CPU thread in the middle of a slice, with a
    delay of at least zero, keeps the slice within every pending
    deadline: when the new deadline falls inside the slice, the slice is
    cut to end exactly at it.  (The [int] and [s64] sums involved do not
    overflow.) *)
Theorem ScheduleEvent_slice_covers cycles ty data s :
  is_global_timer_sane s = false ->
  (0 <= cycles)%Z ->
  in_s32 (slice_length s) ->
  in_s32 (slice_length s - DowncountToCycles s (downcount s)) ->
  in_s64 (global_timer s + (slice_length s - DowncountToCycles s (downcount s)) + cycles) ->
  slice_covers s ->
  let s' := ScheduleEvent cycles ty data CPU true s in
  slice_covers s' /\
  mkEvent (global_timer s + (slice_length s - DowncountToCycles s (downcount s)) + cycles)
    (event_fifo_id s) data ty ∈ event_queue s' /\
  ((cycles < DowncountToCycles s (downcount s))%Z ->
   (global_timer s' + slice_length s'
    = global_timer s + (slice_length s - DowncountToCycles s (downcount s)) + cycles)%Z).
Proof.
  intros Hs Hc Hsl Hex Hto Hcov.
  set (rem := DowncountToCycles s (downcount s)) in *.
  pose proof (DowncountToCycles_range s (downcount s)) as Hrem. fold rem in Hrem.
  assert (wrap64s (GetTicks s + cycles)
          = (global_timer s + (slice_length s - rem) + cycles)%Z) as Eto.
  { rewrite (GetTicks_mid_slice s Hs). fold rem.
    rewrite wrap64s_wrap64u_add, (wrap32s_id _ Hex). by apply wrap64s_id. }
  unfold ScheduleEvent. cbv zeta. rewrite Hs. simpl negb. cbv iota.
  rewrite Eto.
  destruct (ForceExceptionCheck_frame cycles s) as (_ & _ & Hq & Hid & _ & Hg & _).
  set (s1 := ForceExceptionCheck cycles s) in *.
  set (e := mkEvent _ (event_fifo_id s1) data ty).
  assert (slice_length s1
          = if (cycles <? rem)%Z then (slice_length s - (rem - cycles))%Z
            else slice_length s) as Esl.
  { unfold s1, ForceExceptionCheck. fold rem.
    replace (Z.max 0 cycles) with cycles by lia.
    destruct (Z.ltb_spec cycles rem); [|done]. simpl.
    unfold in_s32 in *.
    rewrite (wrap32s_id cycles) by (unfold in_s32; lia).
    rewrite (wrap32s_id (rem - cycles)) by (unfold in_s32; lia).
    apply wrap32s_id. unfold in_s32. lia. }
  assert (event_queue (push_event e (set_event_fifo_id (wrap64u (event_fifo_id s1 + 1)) s1))
          ≡ₚ event_queue s ++ [e]) as Hperm.
  { rewrite push_event_queue. simpl. by rewrite Hq. }
  split_and!.
  - unfold slice_covers. rewrite Hperm. simpl. rewrite Hg, Esl.
    apply Forall_app. split.
    + eapply Forall_impl; [exact Hcov|]. simpl. intros x Hx.
      destruct (Z.ltb_spec cycles rem); lia.
    + apply Forall_singleton. unfold e. simpl.
      destruct (Z.ltb_spec cycles rem); lia.
  - rewrite Hperm. apply elem_of_app. right. unfold e. rewrite Hid.
    apply list_elem_of_here.
  - intros Hlt. simpl. rewrite Hg, Esl.
    destruct (Z.ltb_spec cycles rem); lia.
Qed.

(** X9: cutting the slice does not move the clock the guest reads: when
    the cycles the new downcount stands for are the cycles asked for,
    [GetTicks] is the same after [ForceExceptionCheck] as before. *)
Theorem ForceExceptionCheck_keeps_GetTicks cycles s :
  let s' := ForceExceptionCheck cycles s in
  in_s32 (slice_length s) ->
  in_s32 (slice_length s - DowncountToCycles s (downcount s)) ->
  ((Z.max 0 cycles < DowncountToCycles s (downcount s))%Z ->
   DowncountToCycles s' (downcount s') = Z.max 0 cycles) ->
  GetTicks s' = GetTicks s.
Proof.
  intros s' Hsl Hex Hround.
  destruct (ForceExceptionCheck_frame cycles s) as (_ & _ & _ & _ & Hs' & Hg & _).
  fold s' in Hs', Hg.
  unfold GetTicks. rewrite Hs', Hg.
  destruct (is_global_timer_sane s); [done|].
  f_equal. f_equal. f_equal.
  set (rem := DowncountToCycles s (downcount s)) in *.
  pose proof (DowncountToCycles_range s (downcount s)) as Hrem. fold rem in Hrem.
  destruct (Z.lt_ge_cases (Z.max 0 cycles) rem) as [Hlt|Hge].
  - rewrite (Hround Hlt). unfold s', ForceExceptionCheck. fold rem.
    destruct (Z.ltb_spec (Z.max 0 cycles) rem); [|lia]. simpl.
    unfold in_s32 in *.
    rewrite (wrap32s_id (Z.max 0 cycles)) by (unfold in_s32; lia).
    rewrite (wrap32s_id (rem - Z.max 0 cycles)) by (unfold in_s32; lia).
    rewrite wrap32s_id by (unfold in_s32; lia). lia.
  - unfold s', ForceExceptionCheck. fold rem.
    destruct (Z.ltb_spec (Z.max 0 cycles) rem); [lia|done].
Qed.

(** X10: [Idle] banks the cycles left in the slice and zeroes the
    downcount, so the guest clock jumps to the end of the slice and the
    next [Advance] adds the whole slice to [global_timer].  (A downcount
    of zero stands for zero cycles.) *)
Theorem Idle_skips_to_slice_end s :
  DowncountToCycles s 0 = 0%Z ->
  in_s32 (slice_length s) ->
  idled_cycles (Idle s)
  = wrap64s (idled_cycles s + DowncountToCycles s (downcount s)) /\
  downcount (Idle s) = 0%Z /\
  (is_global_timer_sane s = false ->
   GetTicks (Idle s) = wrap64u (global_timer s + slice_length s)) /\
  global_timer (Advance_begin (Idle s)) = wrap64s (global_timer s + slice_length s).
Proof.
  intros H0 Hsl. split_and!; try reflexivity.
  - intros Hs. rewrite GetTicks_mid_slice by done. simpl.
    change (DowncountToCycles (Idle s) 0) with (DowncountToCycles s 0).
    by rewrite H0, Z.sub_0_r, (wrap32s_id _ Hsl).
  - unfold Advance_begin. cbv zeta. simpl. unfold DowncountToCycles in *.
    destruct (MoveEvents_frame (Idle s)) as (_ & _ & -> & -> & -> & _ & _ & -> & _).
    simpl. by rewrite H0, Z.sub_0_r, (wrap32s_id _ Hsl).
Qed.

(** ** Save states *)

Lemma MoveEvents_loop_scalars pending s :
  let s' := MoveEvents_loop pending s in
  idled_cycles s' = idled_cycles s /\
  fake_dec_start_value s' = fake_dec_start_value s /\
  fake_dec_start_ticks s' = fake_dec_start_ticks s /\
  fake_TB_start_value s' = fake_TB_start_value s /\
  fake_TB_start_ticks s' = fake_TB_start_ticks s.
Proof.
  revert s. induction pending as [|ev pending IH]; intros s; simpl; [done|].
  match goal with |- context [MoveEvents_loop pending ?t] => specialize (IH t) end.
  simpl in IH. exact IH.
Qed.

Lemma MoveEvents_scalars s :
  let s' := MoveEvents s in
  idled_cycles s' = idled_cycles s /\
  fake_dec_start_value s' = fake_dec_start_value s /\
  fake_dec_start_ticks s' = fake_dec_start_ticks s /\
  fake_TB_start_value s' = fake_TB_start_value s /\
  fake_TB_start_ticks s' = fake_TB_start_ticks s.
Proof.
  unfold MoveEvents.
  destruct (MoveEvents_loop_scalars (ts_queue s) (set_ts_queue [] s))
    as (? & ? & ? & ? & ?).
  simpl in *. done.
Qed.

(** The state [DoState] leaves behind in read mode, field by field. *)
Lemma DoState_read_fields p s :
  let s' := DoState_read p s in
  event_queue s' ≡ₚ map (resolve s) (saved_events p) /\
  is_heap event_gt (event_queue s') /\
  ts_queue s' = [] /\
  event_fifo_id s' = advance_id (saved_event_fifo_id p) (length (ts_queue s)) /\
  slice_length s' = saved_slice_length p /\
  global_timer s' = saved_global_timer p /\
  idled_cycles s' = saved_idled_cycles p /\
  fake_dec_start_value s' = saved_fake_dec_start_value p /\
  fake_dec_start_ticks s' = saved_fake_dec_start_ticks p /\
  fake_TB_start_value s' = saved_fake_TB_start_value p /\
  fake_TB_start_ticks s' = saved_fake_TB_start_ticks p /\
  last_oc_factor s' = saved_last_oc_factor p /\
  last_OC_factor_inverted s' = float_recip (saved_last_oc_factor p).
Proof.
  unfold DoState_read. cbv zeta.
  set (s0 := set_event_fifo_id _ _).
  destruct (MoveEvents_frame s0) as (Ht & _ & Hg & Hsl & _ & Hl & Hoc & Hinv & _).
  destruct (MoveEvents_scalars s0) as (H1 & H2 & H3 & H4 & H5).
  set (s1 := MoveEvents s0) in *.
  split_and!.
  - simpl. rewrite make_heap_Permutation, DoEachElement_read_map.
    erewrite map_ext; [done|]. intros sv. by apply resolve_ext.
  - apply event_make_heap_heap.
  - simpl. apply MoveEvents_ts_queue.
  - simpl. unfold s1, MoveEvents. by rewrite MoveEvents_loop_fifo_id.
  - simpl. by rewrite Hsl.
  - simpl. by rewrite Hg.
  - simpl. by rewrite H1.
  - simpl. by rewrite H2.
  - simpl. by rewrite H3.
  - simpl. by rewrite H4.
  - simpl. by rewrite H5.
  - simpl. by rewrite Hoc.
  - simpl. by rewrite Hinv.
Qed.

Lemma resolve_save_event s1 s2 e :
  registry_wf s1 -> event_types s2 = event_types s1 ->
  is_Some (deref s1 (type e)) ->
  resolve s2 (save_event s1 e) = e.
Proof.
  intros Hwf Ht [et Het]. unfold resolve, save_event. rewrite Het. simpl.
  unfold deref in Het. destruct (type e) as [k|] eqn:Ek; [|done].
  rewrite (Hwf k et Het). simpl. rewrite Ht, Het.
  destruct e; simpl in *. by subst.
Qed.

(** [registry_wf] from the list of entries. *)
Lemma registry_wf_entries s :
  Forall (fun kv => name (snd kv) = Some (fst kv)) (map_to_list (event_types s)) ->
  registry_wf s.
Proof.
  intros H k et Hk. apply elem_of_map_to_list in Hk.
  rewrite Forall_forall in H. apply (H (k, et) Hk).
Qed.

(** X11: a save state loaded back restores what was saved.  When every
    pending event has a registered type and the loader's registry is the
    saver's, [DoState] in read mode applied to what [DoState] wrote gives
    a heap holding exactly the events pending at the save (inbox
    included, as drained), and the saved slice length, timer, idle count,
    decrementer and time-base anchors and overclock factor; the sequence
    counter restored is the one from before the save drained the inbox,
    advanced by the loader's own inbox, which is emptied. *)
Theorem DoState_round_trip s s2 :
  registry_wf s ->
  Forall (fun e => is_Some (deref s (type e))) (event_queue s ++ ts_queue s) ->
  event_types s2 = event_types s ->
  let s1 := fst (DoState_write s) in
  let s3 := DoState_read (DoState_stream s) s2 in
  event_queue s3 ≡ₚ event_queue s1 /\
  is_heap event_gt (event_queue s3) /\
  ts_queue s3 = [] /\
  event_fifo_id s3 = advance_id (event_fifo_id s) (length (ts_queue s2)) /\
  slice_length s3 = slice_length s /\
  global_timer s3 = global_timer s /\
  idled_cycles s3 = idled_cycles s /\
  fake_dec_start_value s3 = fake_dec_start_value s /\
  fake_dec_start_ticks s3 = fake_dec_start_ticks s /\
  fake_TB_start_value s3 = fake_TB_start_value s /\
  fake_TB_start_ticks s3 = fake_TB_start_ticks s /\
  last_oc_factor s3 = last_oc_factor s /\
  last_OC_factor_inverted s3 = last_OC_factor_inverted s1.
Proof.
  intros Hwf Hty Ht s1 s3.
  destruct (DoState_read_fields (DoState_stream s) s2)
    as (Hq & Hh & Hts & Hid & H1 & H2 & H3 & H4 & H5 & H6 & H7 & H8 & H9).
  fold s3 in Hq, Hh, Hts, Hid, H1, H2, H3, H4, H5, H6, H7, H8, H9.
  set (s0 := set_last_OC_factor_inverted (float_recip (last_oc_factor s)) s).
  assert (s1 = MoveEvents s0) as Es1 by reflexivity.
  destruct (MoveEvents_frame s0) as (Ht1 & _ & _ & _ & _ & _ & _ & Hinv & _).
  split_and!; try done.
  - rewrite Hq. unfold DoState_stream. cbv zeta. fold s0. rewrite <- Es1. simpl.
    rewrite map_map, Es1.
    assert (Forall (fun e => is_Some (deref s (type e))) (event_queue (MoveEvents s0))) as Hall.
    { rewrite MoveEvents_queue. apply Forall_app in Hty as [Hh0 Hi0].
      apply Forall_app. split; [done|].
      change (ts_queue s0) with (ts_queue s). change (event_fifo_id s0) with (event_fifo_id s).
      pose proof (renumber_fields (event_fifo_id s) (ts_queue s)) as Hf.
      induction Hf as [|a b l l' (_ & _ & Hab) _ IH]; [constructor|].
      apply Forall_cons in Hi0 as [Ha Hi0].
      constructor; [|by apply IH]. simpl. by rewrite Hab. }
    assert (map (fun x => resolve s2 (save_event (MoveEvents s0) x)) (event_queue (MoveEvents s0))
            = event_queue (MoveEvents s0)) as ->; [|done].
    rewrite <- (map_id (event_queue (MoveEvents s0))) at 2.
    apply map_ext_Forall.
    eapply Forall_impl; [exact Hall|]. simpl. intros e He.
    apply resolve_save_event.
    + unfold registry_wf. rewrite Ht1. exact Hwf.
    + by rewrite Ht1.
    + unfold deref in *. by rewrite Ht1.
  - rewrite H9, Es1, Hinv. reflexivity.
Qed.

(** What [DoState_write] returns beside the state is that stream. *)
Lemma DoState_write_stream s :
  snd (DoState_write s) = DoState_stream s.
Proof. reflexivity. Qed.

(** X12: in write mode the sequence counter goes to the stream before the
    inbox is drained and the events after: the events that were in the
    inbox are persisted with the sequence numbers from the persisted
    counter upwards (so the persisted counter is not above them), while
    the counter of the running state has moved past them. *)
Theorem DoState_stream_counter s :
  saved_event_fifo_id (DoState_stream s) = event_fifo_id s /\
  event_fifo_id (fst (DoState_write s))
  = advance_id (event_fifo_id s) (length (ts_queue s)) /\
  length (saved_events (DoState_stream s))
  = length (event_queue s) + length (ts_queue s) /\
  ((0 <= event_fifo_id s)%Z ->
   (event_fifo_id s + Z.of_nat (length (ts_queue s)) < 2 ^ 64)%Z ->
   forall i ev,
     ts_queue s !! i = Some ev ->
     exists sv,
       sv ∈ saved_events (DoState_stream s) /\
       saved_fifo_order sv = (saved_event_fifo_id (DoState_stream s) + Z.of_nat i)%Z /\
       saved_time sv = time ev /\ saved_userdata sv = userdata ev).
Proof.
  set (s0 := set_last_OC_factor_inverted (float_recip (last_oc_factor s)) s).
  assert (event_queue (MoveEvents s0)
          ≡ₚ event_queue s ++ renumber (event_fifo_id s) (ts_queue s)) as Hq.
  { by rewrite MoveEvents_queue. }
  split_and!.
  - reflexivity.
  - unfold DoState_write. cbv zeta. unfold fst. fold s0.
    unfold MoveEvents. by rewrite MoveEvents_loop_fifo_id.
  - unfold DoState_stream. cbv zeta. fold s0. simpl.
    rewrite length_map, Hq, length_app. f_equal.
    symmetry. eapply Forall2_length, renumber_fields.
  - intros H0 Hn i ev Hi.
    exists (save_event (MoveEvents s0)
              (with_fifo_order (event_fifo_id s + Z.of_nat i) ev)).
    split; [|done].
    unfold DoState_stream. cbv zeta. fold s0. simpl.
    apply list_elem_of_In, in_map, list_elem_of_In. rewrite Hq.
    apply elem_of_app. right. apply list_elem_of_lookup. exists i.
    rewrite (renumber_lookup _ _ _ _ Hi).
    apply lookup_lt_Some in Hi. rewrite advance_id_exact; [done|done|lia].
Qed.

(** ** The registry *)

Lemma Init_event_types cfg s :
  event_types (Init cfg s)
  = event_types (fst (RegisterEvent "_lost_event" EmptyTimedCallback s)).
Proof. reflexivity. Qed.

Lemma Advance_event_types fuel s s' log :
  Advance fuel s = Some (s', log) -> event_types s' = event_types s.
Proof.
  intros Hadv.
  destruct (Advance_inv fuel s s' log Hadv) as (s2 & Hloop & ->).
  destruct (Advance_begin_frame s) as (Hs1 & _ & Ht1 & _).
  destruct (fire_loop_end _ _ _ _ _ Hloop Hs1) as (Ht2 & _).
  destruct (Advance_end_frame s2) as (_ & _ & -> & _). by rewrite Ht2.
Qed.

Lemma ScheduleEvent_event_types cycles ty data from cpu s :
  event_types (ScheduleEvent cycles ty data from cpu s) = event_types s.
Proof.
  unfold ScheduleEvent.
  destruct (match from with ANY => cpu | CPU => true | NON_CPU => false end); [|done].
  cbv zeta. destruct (is_global_timer_sane s); simpl; [done|].
  by destruct (ForceExceptionCheck_frame cycles s) as (-> & _).
Qed.

(** The registry after one call: only the two registering calls and the
    two clearing calls write it. *)
Lemma event_types_set_event_queue q s :
  event_types (set_event_queue q s) = event_types s.
Proof. reflexivity. Qed.

Lemma DoState_read_event_types p s :
  event_types (DoState_read p s) = event_types s.
Proof.
  unfold DoState_read. cbv zeta. rewrite !event_types_set_event_queue.
  match goal with |- context [MoveEvents ?t] =>
    destruct (MoveEvents_frame t) as (-> & _) end.
  reflexivity.
Qed.

Lemma DoState_write_event_types s :
  event_types (fst (DoState_write s)) = event_types s.
Proof.
  unfold DoState_write. cbv zeta. unfold fst.
  match goal with |- context [MoveEvents ?t] =>
    destruct (MoveEvents_frame t) as (-> & _) end.
  reflexivity.
Qed.

Lemma run_call_event_types fuel c s s' log :
  run_call fuel c s = Some (s', log) ->
  event_types s'
  = match c with
    | CallInit _ => event_types (fst (RegisterEvent "_lost_event" EmptyTimedCallback s))
    | CallRegisterEvent key cb => event_types (fst (RegisterEvent key cb s))
    | CallShutdown | CallUnregisterAllEvents => ∅
    | _ => event_types s
    end.
Proof.
  destruct c; unfold run_call; try (intros [= <- <-]).
  - apply Init_event_types.
  - reflexivity.
  - reflexivity.
  - reflexivity.
  - reflexivity.
  - apply DoState_read_event_types.
  - apply DoState_write_event_types.
  - reflexivity.
  - apply ScheduleEvent_event_types.
  - by destruct (RemoveEvent_frame event_type s) as (-> & _).
  - unfold RemoveAllEvents.
    destruct (RemoveEvent_frame event_type (MoveEvents s)) as (-> & _).
    by destruct (MoveEvents_frame s) as (-> & _).
  - match goal with |- context [ForceExceptionCheck ?c s] =>
      by destruct (ForceExceptionCheck_frame c s) as (-> & _) end.
  - by destruct (MoveEvents_frame s) as (-> & _).
  - apply Advance_event_types.
  - reflexivity.
  - reflexivity.
  - reflexivity.
Qed.

Lemma RegisterEvent_keeps_entry key cb s k et :
  event_types s !! k = Some et -> name et = Some k ->
  event_types (fst (RegisterEvent key cb s)) !! k = Some et.
Proof.
  intros Hk Hn. rewrite RegisterEvent_lookup. case_decide; [|done].
  subst k. rewrite Hk. destruct et; simpl in *. by subst.
Qed.

(** X13: a handle stays valid, with the callback it was registered with,
    until the registry is cleared: along every script without [Shutdown]
    and [UnregisterAllEvents] (callbacks, save and load, a second [Init]
    and registrations under a taken name included) every entry of the
    registry is still there, unchanged, at the end, and every name pointer
    still refers to the key of its own entry. *)
Theorem handles_stay_valid fuel calls s s' log :
  run_calls fuel calls s = Some (s', log) ->
  existsb clears_registry calls = false ->
  registry_wf s ->
  registry_wf s' /\
  forall k et, event_types s !! k = Some et -> event_types s' !! k = Some et.
Proof.
  revert s s' log. induction calls as [|c calls IH]; intros s s' log Hrun Hno Hwf.
  { simpl in Hrun. by injection Hrun as <- <-. }
  simpl in Hrun, Hno. apply orb_false_iff in Hno as [Hc Hno].
  destruct (run_call fuel c s) as [[s1 log1]|] eqn:Hcall; [|done].
  destruct (run_calls fuel calls s1) as [[s2 log2]|] eqn:Hrest; [|done].
  injection Hrun as <- <-.
  pose proof (run_call_event_types fuel c s s1 log1 Hcall) as Ht.
  assert (registry_wf s1 /\
          forall k et, event_types s !! k = Some et -> event_types s1 !! k = Some et)
    as [Hwf1 Hkeep1].
  { unfold registry_wf. rewrite Ht.
    destruct c; try done; try (split; [exact Hwf|done]).
    - split; [by apply RegisterEvent_registry_wf|].
      intros k et Hk. apply RegisterEvent_keeps_entry; [done|by apply Hwf].
    - split; [by apply RegisterEvent_registry_wf|].
      intros k et Hk. apply RegisterEvent_keeps_entry; [done|by apply Hwf]. }
  destruct (IH s1 s2 log2 Hrest Hno Hwf1) as [Hwf2 Hkeep2].
  split; [done|]. intros k et Hk. by apply Hkeep2, Hkeep1.
Qed.

(** X14: [Shutdown] leaves every handle dangling, the sentinel's included,
    and an [Init] after it starts from nothing: no pending event, an empty
    inbox, a registry holding the sentinel alone, with the callback that
    does nothing, and the clock and the sequence counter at zero. *)
Theorem Shutdown_then_Init cfg s :
  let s' := Init cfg (Shutdown s) in
  (forall ptr, deref (Shutdown s) ptr = None) /\
  ev_lost (Shutdown s) = ev_lost s /\
  event_queue s' = [] /\ ts_queue s' = [] /\
  event_types s'
  = {[ "_lost_event" := mkEventType EmptyTimedCallback (Some "_lost_event") ]} /\
  lost_event_registered s' /\
  event_fifo_id s' = 0%Z /\ GetTicks s' = 0%Z.
Proof.
  cbv zeta.
  assert (event_types (Shutdown s) = ∅) as Ht by reflexivity.
  assert (event_types (Init cfg (Shutdown s))
          = {[ "_lost_event" := mkEventType EmptyTimedCallback (Some "_lost_event") ]})
    as Ht'.
  { rewrite Init_event_types. unfold RegisterEvent, emplace, fst.
    change (event_types (set_event_types ?m _)) with m. rewrite Ht.
    rewrite lookup_empty. apply map_eq. intros k.
    rewrite lookup_alter. case_decide as Hk.
    - subst k. by rewrite lookup_insert_eq, lookup_singleton_eq.
    - rewrite lookup_insert_ne by done. by rewrite lookup_singleton_ne. }
  split_and!.
  - intros [k|]; [|done]. unfold deref. rewrite Ht. apply lookup_empty.
  - unfold Shutdown, UnregisterAllEvents, ClearPendingEvents.
    change (ev_lost (MoveEvents s) = ev_lost s).
    by destruct (MoveEvents_frame s) as (_ & _ & _ & _ & _ & -> & _).
  - reflexivity.
  - change (ts_queue (MoveEvents s) = []). apply MoveEvents_ts_queue.
  - exact Ht'.
  - apply Init_lost_event_registered. rewrite Ht. apply lookup_empty.
  - reflexivity.
  - rewrite GetTicks_sane by apply Init_timer_sane. reflexivity.
Qed.

(** X15: [Init] neither clears the pending events nor replaces a callback
    registered under the sentinel's name: after an [Init] on a state that
    has both, the queue and the inbox are as before while the sequence
    counter is back at zero, and the sentinel handle refers to the entry
    with the callback registered earlier, so that is the callback a lost
    event of a later load would run. *)
Theorem Init_keeps_queue_and_sentinel cfg s et :
  event_types s !! "_lost_event" = Some et ->
  let s' := Init cfg s in
  event_queue s' = event_queue s /\ ts_queue s' = ts_queue s /\
  event_fifo_id s' = 0%Z /\
  deref s' (ev_lost s')
  = Some (mkEventType (callback et) (Some "_lost_event")).
Proof.
  intros Het. cbv zeta. split_and!; try reflexivity.
  change (ev_lost (Init cfg s)) with (Some "_lost_event").
  unfold deref. rewrite Init_event_types, RegisterEvent_lookup.
  case_decide; [|done]. by rewrite Het.
Qed.

Lemma DoState_stream_fifo_id s :
  saved_event_fifo_id (DoState_stream s) = event_fifo_id s.
Proof. reflexivity. Qed.

(** X16: a save taken while the inbox is not empty, loaded back, leaves
    the sequence counter at a number a pending event already has: the
    counter went to the stream before the drain gave the first inbox
    event that very number, so the next submission repeats it. *)
Theorem DoState_reload_reuses_sequence s s2 ev rest :
  ts_queue s = ev :: rest -> ts_queue s2 = [] ->
  let s3 := DoState_read (DoState_stream s) s2 in
  event_fifo_id s3 = event_fifo_id s /\
  exists e, e ∈ event_queue s3 /\ fifo_order e = event_fifo_id s3 /\
            time e = time ev /\ userdata e = userdata ev.
Proof.
  intros Hts Hts2 s3.
  destruct (DoState_read_fields (DoState_stream s) s2) as (Hq & _ & _ & Hid & _).
  fold s3 in Hq, Hid. rewrite Hts2, DoState_stream_fifo_id in Hid.
  split; [exact Hid|].
  set (s0 := set_last_OC_factor_inverted (float_recip (last_oc_factor s)) s).
  exists (resolve s2 (save_event (MoveEvents s0) (with_fifo_order (event_fifo_id s) ev))).
  split; [|by rewrite Hid].
  rewrite Hq. unfold DoState_stream. cbv zeta. fold s0. simpl.
  apply list_elem_of_In, in_map, in_map, list_elem_of_In.
  rewrite MoveEvents_queue. apply elem_of_app. right.
  change (ts_queue s0) with (ts_queue s). change (event_fifo_id s0) with (event_fifo_id s).
  rewrite Hts. simpl. apply list_elem_of_here.
Qed.

(** ** Clock changes *)

Lemma quot_scaled_lt a b new old :
  (0 <= a < b)%Z -> (0 < old <= new)%Z ->
  (Z.quot (a * new) old < Z.quot (b * new) old)%Z.
Proof.
  intros Hab Hc.
  rewrite !Z.quot_div_nonneg by nia.
  assert (a * new + 1 * old <= b * new)%Z as Hle by nia.
  pose proof (Z.div_le_mono _ _ old ltac:(lia) Hle) as Hd.
  rewrite Z.div_add in Hd by lia. lia.
Qed.

(** X19: raising the clock keeps the queue a heap under [operator>] when
    no pending event is overdue: scaling deadlines that lie at or after
    [global_timer] by a factor of at least one keeps distinct deadlines
    distinct, so the sequence tie-break is consulted only for events
    whose deadlines were equal before. *)
Theorem AdjustEventQueueTimes_heap_when_raised new old s :
  (0 < old <= new)%Z ->
  Forall (rescale_in_range (global_timer s) new old) (event_queue s) ->
  Forall (fun e => (global_timer s <= time e)%Z) (event_queue s) ->
  is_heap event_gt (event_queue s) ->
  is_heap event_gt (event_queue (AdjustEventQueueTimes new old s)).
Proof.
  intros Hc Hr Hahead. rewrite !is_heap_heap_on. intros H j p c Hj _.
  unfold AdjustEventQueueTimes. simpl. rewrite !list_lookup_fmap.
  destruct (event_queue s !! heap_parent j) as [p0|] eqn:Hp; [|done].
  destruct (event_queue s !! j) as [c0|] eqn:Hc0; [|done].
  intros [= <-] [= <-].
  rewrite Forall_forall in Hr. rewrite Forall_forall in Hahead.
  pose proof (Hr p0 (list_elem_of_lookup_2 _ _ _ Hp)) as Hrp.
  pose proof (Hr c0 (list_elem_of_lookup_2 _ _ _ Hc0)) as Hrc.
  pose proof (Hahead p0 (list_elem_of_lookup_2 _ _ _ Hp)) as Hap.
  pose proof (Hahead c0 (list_elem_of_lookup_2 _ _ _ Hc0)) as Hac.
  specialize (H j p0 c0 Hj I Hp Hc0).
  unfold event_gt in *.
  rewrite !adjust_time_exact by (done || lia).
  change (fifo_order (adjust_time ?g ?n ?o ?e)) with (fifo_order e).
  apply orb_false_iff in H as [H1 H2]. apply Z.ltb_ge in H1.
  destruct (Z.eq_dec (time p0) (time c0)) as [Heq|Hne].
  - rewrite Heq in *. rewrite Z.ltb_irrefl in *. simpl in *. exact H2.
  - assert (Z.quot ((time p0 - global_timer s) * new) old
            < Z.quot ((time c0 - global_timer s) * new) old)%Z as Hlt.
    { apply quot_scaled_lt; lia. }
    apply orb_false_iff. split.
    + apply Z.ltb_ge. lia.
    + apply andb_false_iff. left. apply negb_false_iff, Z.ltb_lt. lia.
Qed.

(** ** Submissions from other threads *)

Lemma ScheduleEvent_CPU_ts_queue cycles ty data s :
  ts_queue (ScheduleEvent cycles ty data CPU true s) = ts_queue s.
Proof.
  unfold ScheduleEvent. cbv zeta. destruct (is_global_timer_sane s); simpl; [done|].
  by destruct (ForceExceptionCheck_frame cycles s) as (_ & -> & _).
Qed.

(** X24: a submission from another thread waits in the inbox: it does not
    touch the heap, the sequence counter or the downcount (the slice is
    not cut short for it), and its deadline counts from [global_timer],
    the start of the slice, not from the current tick count.  It gets its
    sequence number when the inbox is drained, so a CPU-thread submission
    made after it, but before the drain, is numbered before it. *)
Theorem off_thread_event_numbered_at_drain c1 ty1 d1 c2 ty2 d2 s :
  ts_queue s = [] ->
  let s1 := ScheduleEvent c1 ty1 d1 NON_CPU false s in
  let s2 := ScheduleEvent c2 ty2 d2 CPU true s1 in
  event_queue s1 = event_queue s /\ event_fifo_id s1 = event_fifo_id s /\
  downcount s1 = downcount s /\
  event_queue (MoveEvents s2)
  ≡ₚ event_queue s
     ++ [mkEvent (wrap64s (GetTicks s + c2)) (event_fifo_id s) d2 ty2;
         mkEvent (wrap64s (global_timer s + c1)) (wrap64u (event_fifo_id s + 1)) d1 ty1].
Proof.
  intros Hts s1 s2. split_and!; try reflexivity.
  rewrite MoveEvents_queue.
  destruct (ScheduleEvent_CPU_sequence c2 ty2 d2 s1) as [Hq Hid].
  fold s2 in Hq, Hid. rewrite Hq, Hid.
  unfold s2. rewrite ScheduleEvent_CPU_ts_queue.
  change (ts_queue s1)
    with (ts_queue s ++ [mkEvent (wrap64s (global_timer s + c1)) 0 d1 ty1]).
  rewrite Hts. simpl. rewrite <- app_assoc. reflexivity.
Qed.

(** ** Idle accounting *)

Lemma wrap64u_wrap64s z : wrap64u (wrap64s z) = wrap64u z.
Proof.
  unfold wrap64u, wrap64s.
  rewrite Zminus_mod_idemp_l. f_equal. lia.
Qed.

(** X25: [Idle] adds the cycles it skips to the tick count and to the
    idle count alike, so the cycles spent working, the difference of
    [GetTicks] and [GetIdleTicks] in [u64] arithmetic, are what they were
    before.  (Mid-slice, with the slice arithmetic within [int] and a
    downcount of zero standing for zero cycles.) *)
Theorem Idle_keeps_busy_cycles s :
  is_global_timer_sane s = false ->
  DowncountToCycles s 0 = 0%Z ->
  in_s32 (slice_length s) ->
  in_s32 (slice_length s - DowncountToCycles s (downcount s)) ->
  wrap64u (GetTicks (Idle s) - GetIdleTicks (Idle s))
  = wrap64u (GetTicks s - GetIdleTicks s).
Proof.
  intros Hs H0 Hsl Hsl'.
  rewrite (GetTicks_mid_slice (Idle s)) by done.
  rewrite (GetTicks_mid_slice s) by done.
  unfold GetIdleTicks.
  change (downcount (Idle s)) with 0%Z.
  change (DowncountToCycles (Idle s) 0) with (DowncountToCycles s 0).
  change (global_timer (Idle s)) with (global_timer s).
  change (slice_length (Idle s)) with (slice_length s).
  change (idled_cycles (Idle s))
    with (wrap64s (idled_cycles s + DowncountToCycles s (downcount s))).
  rewrite H0, Z.sub_0_r, (wrap32s_id _ Hsl), (wrap32s_id _ Hsl').
  rewrite wrap64u_wrap64s.
  set (c := DowncountToCycles s (downcount s)).
  unfold wrap64u. rewrite <- !Zminus_mod. f_equal. lia.
Qed.

End MoreFacts.

Lemma MoveEvents_drains_witness :
  event_fifo_id (MoveEvents inbox_system) = 4%Z.
Proof.
  refine (proj1 (proj2 (proj2 (proj2 (proj2 (proj2 (MoveEvents_drains inbox_system)))))
                   _ _)).
  - vm_compute. discriminate.
  - vm_compute. reflexivity.
Defined.

Lemma heap_along_script_witness :
  is_heap event_gt (event_queue (fst busy_result)).
Proof.
  apply (heap_along_script 6 busy_script blank_system (fst busy_result) (snd busy_result)).
  - vm_compute. reflexivity.
  - vm_compute. reflexivity.
  - vm_compute. reflexivity.
Defined.

Lemma Advance_dispatches_due_witness :
  Forall (fun d =>
            (time (fired d) <= global_timer (fst chain_result))%Z /\
            cycles_late d = wrap64s (global_timer (fst chain_result) - time (fired d)) /\
            timer_sane d = true /\
            is_Some (deref (set_downcount 0 chain_system) (type (fired d))))
    (snd chain_result).
Proof.
  apply (Advance_dispatches_due 3 (set_downcount 0 chain_system)).
  vm_compute. reflexivity.
Defined.

Lemma Advance_fires_exactly_due_witness :
  map fired (snd periodic_result)
  ≡ₚ filter (fun e => (time e <= global_timer (fst periodic_result))%Z)
       (event_queue (MoveEvents periodic_system)).
Proof.
  apply (Advance_fires_exactly_due 500 4 periodic_system
           (fst periodic_result) (snd periodic_result)).
  - vm_compute. reflexivity.
  - vm_compute. reflexivity.
  - unfold registry_schedules_strictly_ahead. intros k et data late Hk. revert data late.
    apply (registry_Forall (fun et => forall data late,
             schedules_strictly_ahead 500 (callback et data late)) periodic_system)
      with k; [|exact Hk].
    set (entries := map_to_list _). vm_compute in entries. subst entries.
    repeat (apply Forall_cons; split;
            [intros data late; simpl; repeat constructor; lia|]).
    constructor.
  - vm_compute. reflexivity.
Defined.

Lemma global_timer_along_call_witness :
  global_timer (fst periodic_result) = 700%Z.
Proof.
  rewrite (global_timer_along_call 4 CallAdvance periodic_system
             (fst periodic_result) (snd periodic_result)).
  - vm_compute. reflexivity.
  - vm_compute. reflexivity.
Defined.

Lemma Advance_slice_covers_witness : slice_covers (fst periodic_result).
Proof.
  apply (Advance_slice_covers 4 periodic_system (fst periodic_result) (snd periodic_result)).
  - vm_compute. reflexivity.
  - vm_compute. reflexivity.
  - intros front tl Hq.
    assert (event_queue (fst periodic_result)
            = [mkEvent 1200 3 1 (Some "P"); mkEvent 30000 1 2 (Some "B")]) as E
      by (vm_compute; reflexivity).
    rewrite E in Hq. injection Hq as <- <-. vm_compute. reflexivity.
Defined.

Lemma ScheduleEvent_slice_covers_witness :
  slice_covers (ScheduleEvent 100 (Some "B") 5 CPU true mid_slice_system).
Proof.
  refine (proj1 (ScheduleEvent_slice_covers 100 (Some "B") 5 mid_slice_system
                   _ _ _ _ _ _)).
  - vm_compute. reflexivity.
  - lia.
  - vm_compute. split; discriminate || reflexivity.
  - vm_compute. split; discriminate || reflexivity.
  - vm_compute. split; discriminate || reflexivity.
  - apply (bool_decide_unpack _). vm_compute. exact I.
Defined.

Lemma ForceExceptionCheck_keeps_GetTicks_witness :
  GetTicks (ForceExceptionCheck 100 mid_slice_system) = GetTicks mid_slice_system.
Proof.
  apply (ForceExceptionCheck_keeps_GetTicks 100 mid_slice_system).
  - vm_compute. split; discriminate || reflexivity.
  - vm_compute. split; discriminate || reflexivity.
  - intros _. vm_compute. reflexivity.
Defined.

Lemma Idle_skips_to_slice_end_witness :
  GetTicks (Idle mid_slice_system) = wrap64u (700 + 500).
Proof.
  refine (proj1 (proj2 (proj2 (Idle_skips_to_slice_end mid_slice_system _ _))) _).
  - vm_compute. reflexivity.
  - vm_compute. split; discriminate || reflexivity.
  - vm_compute. reflexivity.
Defined.

Lemma DoState_round_trip_witness :
  event_queue (DoState_read (DoState_stream heap_and_inbox) two_types)
  ≡ₚ event_queue (fst (DoState_write heap_and_inbox)) /\
  length (event_queue (DoState_read (DoState_stream heap_and_inbox) two_types)) = 2.
Proof.
  split.
  - refine (proj1 (DoState_round_trip heap_and_inbox two_types _ _ _)).
    + apply registry_wf_entries.
      set (entries := map_to_list _). vm_compute in entries. subst entries.
      repeat constructor.
    + set (l := _ ++ _). vm_compute in l. subst l.
      repeat (apply Forall_cons; split; [vm_compute; eexists; reflexivity|]).
      constructor.
    + reflexivity.
  - vm_compute. reflexivity.
Defined.

Lemma DoState_stream_counter_witness :
  exists sv,
    sv ∈ saved_events (DoState_stream heap_and_inbox) /\
    saved_fifo_order sv = saved_event_fifo_id (DoState_stream heap_and_inbox) /\
    saved_userdata sv = 9%Z.
Proof.
  destruct (proj2 (proj2 (proj2 (DoState_stream_counter heap_and_inbox))))
    with (i := 0%nat) (ev := mkEvent 5 0 9 (Some "B")) as (sv & Hin & Hid & _ & Hu).
  - vm_compute. discriminate.
  - vm_compute. reflexivity.
  - vm_compute. reflexivity.
  - exists sv. split; [exact Hin|]. split; [|exact Hu].
    rewrite Hid. apply Z.add_0_r.
Defined.

Lemma handles_stay_valid_witness :
  event_types (fst busy_result) !! "A" = Some (mkEventType chains_now (Some "A")).
Proof.
  refine (proj2 (handles_stay_valid 6 (drop 3 busy_script)
                   (fst (RegisterEvent "B" EmptyTimedCallback
                           (fst (RegisterEvent "A" chains_now
                                   (Init no_overclock blank_system)))))
                   (fst busy_result) (snd busy_result) _ _ _) "A" _ _).
  - vm_compute. reflexivity.
  - vm_compute. reflexivity.
  - apply registry_wf_entries.
    set (entries := map_to_list _). vm_compute in entries. subst entries.
    repeat constructor.
  - vm_compute. reflexivity.
Defined.

Lemma Init_keeps_queue_and_sentinel_witness :
  event_queue (Init no_overclock taken_sentinel) = event_queue taken_sentinel /\
  deref (Init no_overclock taken_sentinel) (ev_lost (Init no_overclock taken_sentinel))
  = Some (mkEventType chains_now (Some "_lost_event")).
Proof.
  destruct (Init_keeps_queue_and_sentinel no_overclock taken_sentinel
              (mkEventType chains_now (Some "_lost_event")))
    as (Hq & _ & _ & Hd).
  - vm_compute. reflexivity.
  - split; [exact Hq|exact Hd].
Defined.

Lemma DoState_reload_reuses_sequence_witness :
  exists e,
    e ∈ event_queue (DoState_read (DoState_stream heap_and_inbox) two_types) /\
    fifo_order e
    = event_fifo_id (DoState_read (DoState_stream heap_and_inbox) two_types).
Proof.
  destruct (DoState_reload_reuses_sequence heap_and_inbox two_types
              (mkEvent 5 0 9 (Some "B")) [])
    as (_ & e & Hin & Hid & _).
  - vm_compute. reflexivity.
  - vm_compute. reflexivity.
  - exists e. split; [exact Hin|exact Hid].
Defined.

Lemma Advance_returns_witness :
  is_Some (Advance 4 periodic_system).
Proof.
  apply (Advance_returns 500 periodic_system).
  - unfold registry_schedules_ahead. intros k et data late Hk. revert data late.
    apply (registry_Forall (fun et => forall data late,
             schedules_ahead 500 periodic_system (callback et data late)) periodic_system)
      with k; [|exact Hk].
    set (entries := map_to_list _). vm_compute in entries. subst entries.
    repeat (apply Forall_cons; split;
            [intros data late; simpl; repeat constructor; try lia;
             vm_compute; eexists; reflexivity|]).
    constructor.
  - set (l := _ ++ _). vm_compute in l. subst l.
    repeat (apply Forall_cons; split; [vm_compute; eexists; reflexivity|]).
    constructor.
  - vm_compute. reflexivity.
Defined.

Lemma AdjustEventQueueTimes_deadline_heap_witness :
  is_heap deadline_gt
    (event_queue (AdjustEventQueueTimes 486000000 729000000 two_close_events)).
Proof.
  apply (AdjustEventQueueTimes_deadline_heap 486000000 729000000 two_close_events).
  - lia.
  - lia.
  - set (q := event_queue _). vm_compute in q. subst q.
    repeat (apply Forall_cons; split;
            [vm_compute; repeat split; discriminate || reflexivity|]).
    constructor.
  - vm_compute. reflexivity.
Defined.

Lemma AdjustEventQueueTimes_heap_when_raised_witness :
  is_heap event_gt
    (event_queue (AdjustEventQueueTimes 729000000 486000000 two_close_events)).
Proof.
  apply (AdjustEventQueueTimes_heap_when_raised 729000000 486000000 two_close_events).
  - lia.
  - set (q := event_queue _). vm_compute in q. subst q.
    repeat (apply Forall_cons; split;
            [vm_compute; repeat split; discriminate || reflexivity|]).
    constructor.
  - set (q := event_queue _). vm_compute in q. subst q.
    repeat (apply Forall_cons; split; [vm_compute; discriminate|]).
    constructor.
  - vm_compute. reflexivity.
Defined.

(** ** Common::Timer *)

(** X20: a timer that has been started reads the time since the start,
    and never a negative span; a timer started while the steady clock
    reads zero counts as not started and reads zero whatever the clock
    says later. *)
Theorem Timer_ElapsedMs_after_Start now0 now1 t :
  in_u64 now0 -> in_u64 now1 ->
  Timer.ElapsedMs now1 (Timer.Start now0 t)
  = if (now0 =? 0)%Z then 0%Z else Z.max 0 (now1 - now0).
Proof.
  unfold in_u64, Timer.ElapsedMs, Timer.Start. simpl. intros H0 H1.
  destruct (now0 =? 0)%Z; [done|].
  destruct (now1 <=? now0)%Z eqn:E.
  - apply Z.leb_le in E. lia.
  - apply Z.leb_gt in E. rewrite wrap64u_id by (unfold in_u64; lia). lia.
Qed.

Lemma Timer_ElapsedMs_after_Start_witness :
  Timer.ElapsedMs 1250 (Timer.Start 1000 (Timer.mkTimer 0 0 false)) = 250%Z /\
  Timer.ElapsedMs 1250 (Timer.Start 0 (Timer.mkTimer 0 0 false)) = 0%Z.
Proof.
  split.
  - rewrite Timer_ElapsedMs_after_Start; [reflexivity| |];
      vm_compute; split; discriminate || reflexivity.
  - rewrite Timer_ElapsedMs_after_Start; [reflexivity| |];
      vm_compute; split; discriminate || reflexivity.
Defined.

(** X21: [StartWithOffset] starts the timer as if [offset] milliseconds
    had already passed, but only when the offset is smaller than the
    reading of the steady clock; a larger or equal offset is dropped and
    the timer reads zero. *)
Theorem Timer_StartWithOffset_elapsed now offset t :
  in_u64 now -> in_u64 offset ->
  Timer.ElapsedMs now (Timer.StartWithOffset now offset t)
  = if (offset <? now)%Z then offset else 0%Z.
Proof.
  unfold in_u64, Timer.ElapsedMs, Timer.StartWithOffset, Timer.Start. simpl.
  intros Hn Ho.
  destruct (offset <? now)%Z eqn:E; simpl.
  - apply Z.ltb_lt in E.
    rewrite (wrap64u_id (now - offset)) by (unfold in_u64; lia).
    destruct (now - offset =? 0)%Z eqn:E0; [apply Z.eqb_eq in E0; lia|].
    destruct (now <=? now - offset)%Z eqn:E1.
    + apply Z.leb_le in E1. lia.
    + rewrite wrap64u_id by (unfold in_u64; lia). lia.
  - destruct (now =? 0)%Z; [done|]. by rewrite Z.leb_refl.
Qed.

Lemma Timer_StartWithOffset_elapsed_witness :
  Timer.ElapsedMs 1000 (Timer.StartWithOffset 1000 300 (Timer.mkTimer 0 0 false)) = 300%Z /\
  Timer.ElapsedMs 1000 (Timer.StartWithOffset 1000 5000 (Timer.mkTimer 0 0 false)) = 0%Z.
Proof.
  split.
  - rewrite Timer_StartWithOffset_elapsed; [reflexivity| |];
      vm_compute; split; discriminate || reflexivity.
  - rewrite Timer_StartWithOffset_elapsed; [reflexivity| |];
      vm_compute; split; discriminate || reflexivity.
Defined.

(** X22: [Stop] freezes the reading: a timer started at one reading of
    the steady clock and stopped at a later one reads the span between
    the two whatever the clock says afterwards, zero when the stop is not
    after the start, and zero when the clock read zero at the start. *)
Theorem Timer_Start_Stop_elapsed now0 now1 now2 t :
  in_u64 now0 -> in_u64 now1 ->
  Timer.ElapsedMs now2 (Timer.Stop now1 (Timer.Start now0 t))
  = if (now0 =? 0)%Z then 0%Z else Z.max 0 (now1 - now0).
Proof.
  unfold in_u64, Timer.ElapsedMs, Timer.Stop, Timer.Start. simpl. intros H0 H1.
  destruct (now0 =? 0)%Z; [done|].
  destruct (now1 <=? now0)%Z eqn:E.
  - apply Z.leb_le in E. lia.
  - apply Z.leb_gt in E. rewrite wrap64u_id by (unfold in_u64; lia). lia.
Qed.

Lemma Timer_Start_Stop_elapsed_witness :
  Timer.ElapsedMs 9000 (Timer.Stop 1250 (Timer.Start 1000 (Timer.mkTimer 0 0 false)))
  = 250%Z.
Proof.
  rewrite Timer_Start_Stop_elapsed; [reflexivity| |];
    vm_compute; split; discriminate || reflexivity.
Defined.

(** X23: the reading of a running timer does not go back while the steady
    clock does not, and it is never more than the reading of the clock. *)
Theorem Timer_ElapsedMs_monotone now1 now2 t :
  Timer.m_running t = true -> in_u64 (Timer.m_start_ms t) ->
  in_u64 now1 -> in_u64 now2 -> (now1 <= now2)%Z ->
  (0 <= Timer.ElapsedMs now1 t <= Timer.ElapsedMs now2 t)%Z /\
  (Timer.ElapsedMs now2 t <= now2)%Z.
Proof.
  unfold in_u64, Timer.ElapsedMs. intros -> Hs H1 H2 Hle.
  destruct (Timer.m_start_ms t =? 0)%Z; [lia|].
  destruct (now1 <=? Timer.m_start_ms t)%Z eqn:E1;
    destruct (now2 <=? Timer.m_start_ms t)%Z eqn:E2;
    rewrite ?Z.leb_le, ?Z.leb_gt in *;
    rewrite ?(wrap64u_id (now1 - _)), ?(wrap64u_id (now2 - _)) by (unfold in_u64; lia);
    lia.
Qed.

Lemma Timer_ElapsedMs_monotone_witness :
  (Timer.ElapsedMs 1250 (Timer.mkTimer 1000 0 true)
   <= Timer.ElapsedMs 1900 (Timer.mkTimer 1000 0 true))%Z.
Proof.
  refine (proj2 (proj1 (Timer_ElapsedMs_monotone 1250 1900 (Timer.mkTimer 1000 0 true)
                          _ _ _ _ _))).
  - reflexivity.
  - vm_compute. split; discriminate || reflexivity.
  - vm_compute. split; discriminate || reflexivity.
  - vm_compute. split; discriminate || reflexivity.
  - vm_compute. discriminate.
Defined.

Lemma off_thread_event_numbered_at_drain_witness :
  event_queue
    (MoveEvents
       (ScheduleEvent 40 (Some "B") 6 CPU true
          (ScheduleEvent 40 (Some "P") 5 NON_CPU false mid_slice_system)))
  ≡ₚ event_queue mid_slice_system
     ++ [mkEvent (wrap64s (GetTicks mid_slice_system + 40))
           (event_fifo_id mid_slice_system) 6 (Some "B");
         mkEvent (wrap64s (global_timer mid_slice_system + 40))
           (wrap64u (event_fifo_id mid_slice_system + 1)) 5 (Some "P")].
Proof.
  refine (proj2 (proj2 (proj2
            (off_thread_event_numbered_at_drain 40 (Some "P") 5 40 (Some "B") 6
               mid_slice_system _)))).
  vm_compute. reflexivity.
Defined.

Lemma Idle_keeps_busy_cycles_witness :
  wrap64u (GetTicks (Idle mid_slice_system) - GetIdleTicks (Idle mid_slice_system))
  = wrap64u (GetTicks mid_slice_system - GetIdleTicks mid_slice_system).
Proof.
  apply (Idle_keeps_busy_cycles mid_slice_system).
  - vm_compute. reflexivity.
  - vm_compute. reflexivity.
  - vm_compute. split; discriminate || reflexivity.
  - vm_compute. split; discriminate || reflexivity.
Defined.
Section SequenceNumbers.
Context {F : FloatOps}.
Implicit Types s : System.

(** ** Sequence numbers stay below the counter *)

Lemma seq_fresh_keep s s' :
  seq_fresh s -> event_fifo_id s' = event_fifo_id s ->
  (forall e, e ∈ event_queue s' -> e ∈ event_queue s) ->
  seq_fresh s'.
Proof.
  intros [H0 Hq] Hid Hsub. unfold seq_fresh. rewrite Hid. split; [done|].
  rewrite Forall_forall in Hq. apply Forall_forall. intros e He. by apply Hq, Hsub.
Qed.

Lemma MoveEvents_fresh s :
  seq_fresh s ->
  (event_fifo_id s + Z.of_nat (length (ts_queue s)) < 2 ^ 64)%Z ->
  seq_fresh (MoveEvents s) /\
  event_fifo_id (MoveEvents s) = (event_fifo_id s + Z.of_nat (length (ts_queue s)))%Z.
Proof.
  intros [H0 Hq] Hn.
  assert (event_fifo_id (MoveEvents s)
          = (event_fifo_id s + Z.of_nat (length (ts_queue s)))%Z) as Eid.
  { unfold MoveEvents. rewrite MoveEvents_loop_fifo_id. simpl.
    by apply advance_id_small. }
  split; [|done]. unfold seq_fresh. rewrite Eid. split; [lia|].
  rewrite MoveEvents_queue. apply Forall_app. split.
  - eapply Forall_impl; [exact Hq|]. simpl. intros; lia.
  - by apply renumber_fresh.
Qed.

Lemma ScheduleEvent_fresh cycles ty data from cpu s :
  seq_fresh s -> (event_fifo_id s + 1 < 2 ^ 64)%Z ->
  let s' := ScheduleEvent cycles ty data from cpu s in
  seq_fresh s' /\
  (event_fifo_id s <= event_fifo_id s' <= event_fifo_id s + 1)%Z /\
  length (ts_queue s') <= S (length (ts_queue s)) /\
  event_types s' = event_types s.
Proof.
  intros [H0 Hq] Hn. cbv zeta.
  assert (forall st,
             st = ScheduleEvent cycles ty data CPU true s ->
             seq_fresh st /\
             (event_fifo_id s <= event_fifo_id st <= event_fifo_id s + 1)%Z /\
             length (ts_queue st) <= S (length (ts_queue s)) /\
             event_types st = event_types s) as Hcpu.
  { intros st ->.
    destruct (ScheduleEvent_CPU_sequence cycles ty data s) as [Hq' Hid'].
    cbv zeta in Hq', Hid'.
    rewrite (wrap64u_id (event_fifo_id s + 1)) in Hid' by (unfold in_u64; lia).
    rewrite ScheduleEvent_CPU_ts_queue, ScheduleEvent_event_types.
    split_and!; try lia; try done.
    unfold seq_fresh. rewrite Hid', Hq'. split; [lia|].
    apply Forall_app. split.
    - eapply Forall_impl; [exact Hq|]. simpl. intros; lia.
    - apply Forall_singleton. simpl. lia. }
  assert (forall st,
             st = ScheduleEvent cycles ty data NON_CPU false s ->
             seq_fresh st /\
             (event_fifo_id s <= event_fifo_id st <= event_fifo_id s + 1)%Z /\
             length (ts_queue st) <= S (length (ts_queue s)) /\
             event_types st = event_types s) as Hoff.
  { intros st ->. unfold ScheduleEvent, ts_queue_Push. simpl.
    rewrite length_app. simpl. split_and!; try lia; try done. }
  destruct from; [by apply Hcpu|by apply Hoff|].
  destruct cpu; [by apply Hcpu|by apply Hoff].
Qed.

Lemma RemoveEvent_fresh ty s :
  seq_fresh s -> seq_fresh (RemoveEvent ty s).
Proof.
  intros Hf. destruct (RemoveEvent_frame ty s) as (_ & _ & Hid & _).
  apply (seq_fresh_keep s); [done|done|].
  intros e. rewrite RemoveEvent_queue. intros He.
  by apply list_elem_of_filter in He as [_ ?].
Qed.

(** One call made by a callback allocates at most one number. *)
Lemma run_action_fresh a s :
  ts_queue s = [] -> seq_fresh s -> (event_fifo_id s + 1 < 2 ^ 64)%Z ->
  let s' := run_action s a in
  ts_queue s' = [] /\ seq_fresh s' /\
  (event_fifo_id s <= event_fifo_id s' <= event_fifo_id s + 1)%Z /\
  event_types s' = event_types s.
Proof.
  intros Hts Hf Hn. destruct a as [cycles ty data|ty|ty|cycles]; unfold run_action.
  - destruct (ScheduleEvent_fresh cycles ty data CPU true s Hf Hn) as (Hf' & Hid & _ & Ht).
    rewrite ScheduleEvent_CPU_ts_queue. done.
  - destruct (RemoveEvent_frame ty s) as (Ht & Hts' & Hid & _).
    rewrite Hts', Hid. split_and!; try lia; try done. by apply RemoveEvent_fresh.
  - unfold RemoveAllEvents. rewrite (MoveEvents_empty s Hts).
    destruct (RemoveEvent_frame ty s) as (Ht & Hts' & Hid & _).
    rewrite Hts', Hid. split_and!; try lia; try done. by apply RemoveEvent_fresh.
  - destruct (ForceExceptionCheck_frame cycles s) as (Ht & Hts' & Hq & Hid & _).
    rewrite Hts', Hid. split_and!; try lia; try done.
    apply (seq_fresh_keep s); [done|done|]. by rewrite Hq.
Qed.

Lemma run_actions_fresh acts s :
  ts_queue s = [] -> seq_fresh s ->
  (event_fifo_id s + Z.of_nat (length acts) < 2 ^ 64)%Z ->
  let s' := fold_left run_action acts s in
  ts_queue s' = [] /\ seq_fresh s' /\
  (event_fifo_id s <= event_fifo_id s' <= event_fifo_id s + Z.of_nat (length acts))%Z /\
  event_types s' = event_types s.
Proof.
  revert s. induction acts as [|a acts IH]; intros s Hts Hf Hn; simpl.
  - split_and!; try done; lia.
  - simpl in Hn.
    destruct (run_action_fresh a s Hts Hf) as (Hts1 & Hf1 & Hid1 & Ht1); [lia|].
    destruct (IH (run_action s a) Hts1 Hf1) as (Hts2 & Hf2 & Hid2 & Ht2); [lia|].
    split_and!; try done; try lia. by rewrite Ht2.
Qed.

Lemma fire_loop_fresh K fuel s log s' log' :
  fire_loop fuel s log = Some (s', log') ->
  ts_queue s = [] -> registry_bounded K s -> seq_fresh s ->
  (event_fifo_id s + Z.of_nat K * Z.of_nat fuel < 2 ^ 64)%Z ->
  ts_queue s' = [] /\ seq_fresh s' /\
  (event_fifo_id s <= event_fifo_id s' <= event_fifo_id s + Z.of_nat K * Z.of_nat fuel)%Z /\
  event_types s' = event_types s.
Proof.
  revert s log s' log'.
  induction fuel as [|fuel IH]; intros s log s' log' Hrun Hts Hreg Hf Hn; [done|].
  destruct (queue_cases s) as [Hq|[Hq|(front & tl & Hq & Hdue)]].
  - destruct (fire_loop_stop fuel s log s' log' (or_introl Hq) Hrun) as [-> ->].
    split_and!; try done; lia.
  - destruct (fire_loop_stop fuel s log s' log' (or_intror Hq) Hrun) as [-> ->].
    split_and!; try done; lia.
  - destruct (fire_loop_step fuel s log front tl s' log' Hq Hdue Hrun) as (et & Het & Hrec).
    cbv zeta in Hrec.
    set (s1 := set_event_queue _ s) in Hrec.
    set (acts := callback et _ _) in Hrec.
    assert (length acts <= K) as HK.
    { unfold deref in Het. destruct (type front) as [k|]; [|done]. by eapply Hreg. }
    assert (seq_fresh s1) as Hf1.
    { apply (seq_fresh_keep s); [done|done|].
      intros e. unfold s1. simpl. rewrite Hq, pop_heap_pop_back_Permutation.
      intros He. by apply elem_of_cons; right. }
    change (event_fifo_id s) with (event_fifo_id s1) in Hn |- *.
    destruct (run_actions_fresh acts s1 Hts Hf1) as (Hts2 & Hf2 & Hid2 & Ht2); [nia|].
    destruct (IH _ _ _ _ Hrec Hts2) as (Hts3 & Hf3 & Hid3 & Ht3); try done.
    + unfold registry_bounded. rewrite Ht2. exact Hreg.
    + nia.
    + split_and!; try done; try nia. by rewrite Ht3, Ht2.
Qed.

Lemma Advance_end_fifo_id s :
  event_fifo_id (Advance_end s) = event_fifo_id s /\
  ts_queue (Advance_end s) = ts_queue s.
Proof.
  unfold Advance_end. cbv zeta.
  change (event_queue (set_is_global_timer_sane false s)) with (event_queue s).
  destruct (event_queue s) eqn:E; simpl; by rewrite ?E.
Qed.

Lemma Advance_fresh K fuel s s' log :
  Advance fuel s = Some (s', log) ->
  registry_bounded K s -> seq_fresh s ->
  (event_fifo_id s + id_step K fuel (length (ts_queue s)) < 2 ^ 64)%Z ->
  ts_queue s' = [] /\ seq_fresh s' /\
  (event_fifo_id s <= event_fifo_id s'
   <= event_fifo_id s + id_step K fuel (length (ts_queue s)))%Z.
Proof.
  unfold id_step. intros Hadv Hreg Hf Hn.
  destruct (Advance_inv fuel s s' log Hadv) as (s2 & Hloop & ->).
  destruct (Advance_begin_frame s) as (_ & _ & Ht1 & Hts1 & Hq1 & Hid1).
  destruct (MoveEvents_fresh s Hf) as [Hfm Hidm]; [lia|].
  assert (seq_fresh (Advance_begin s)) as Hf1.
  { destruct Hfm as [H0 Hq]. unfold seq_fresh. by rewrite Hid1, Hq1. }
  destruct (fire_loop_fresh K fuel _ _ _ _ Hloop Hts1) as (Hts2 & Hf2 & Hid2 & _);
    try done.
  { unfold registry_bounded. rewrite Ht1. exact Hreg. }
  { rewrite Hid1, Hidm. lia. }
  destruct (Advance_end_fifo_id s2) as [Eid Ets].
  destruct (Advance_end_frame s2) as (Eq & _).
  rewrite Ets, Eid. rewrite Hid1, Hidm in Hid2.
  split_and!; try done; try lia.
  apply (seq_fresh_keep s2); [done|done|]. by rewrite Eq.
Qed.

Lemma adjust_fresh new old s :
  seq_fresh s -> seq_fresh (AdjustEventQueueTimes new old s).
Proof.
  intros [H0 Hq]. unfold seq_fresh, AdjustEventQueueTimes. simpl. split; [done|].
  apply Forall_fmap. eapply Forall_impl; [exact Hq|]. done.
Qed.

(** One call of the interface. *)
Lemma run_call_fresh K fuel c s s' log :
  run_call fuel c s = Some (s', log) ->
  resets_sequence c = false -> registers_bounded K c ->
  registry_bounded K s -> seq_fresh s ->
  (event_fifo_id s + id_step K fuel (length (ts_queue s)) < 2 ^ 64)%Z ->
  seq_fresh s' /\ registry_bounded K s' /\
  (event_fifo_id s' <= event_fifo_id s + id_step K fuel (length (ts_queue s)))%Z /\
  length (ts_queue s') <= S (length (ts_queue s)).
Proof.
  intros Hrun Hres Hcb Hreg Hf Hn.
  assert (registry_bounded K s') as Hreg'.
  { unfold registry_bounded.
    rewrite (run_call_event_types fuel c s s' log Hrun).
    destruct c; try done.
    intros k et data late. rewrite RegisterEvent_lookup. case_decide.
    - intros [= <-]. simpl.
      destruct (event_types s !! key) as [et0|] eqn:E; [by eapply Hreg|apply Hcb].
    - apply Hreg. }
  assert (0 <= Z.of_nat K * Z.of_nat fuel)%Z as HKf by lia.
  unfold id_step in *.
  destruct c; unfold run_call in Hrun; try done;
    try (injection Hrun as <- <-).
  - destruct (MoveEvents_fresh s Hf) as [Hfm Hidm]; [lia|].
    split; [|split; [done|]].
    + apply (seq_fresh_keep (MoveEvents s)); [done|done|].
      intros e He. by apply elem_of_nil in He.
    + change (event_fifo_id (Shutdown s)) with (event_fifo_id (MoveEvents s)).
      change (ts_queue (Shutdown s)) with (ts_queue (MoveEvents s)).
      rewrite MoveEvents_ts_queue, Hidm. simpl. lia.
  - split; [by apply (seq_fresh_keep s)|]. split; [done|]. simpl. lia.
  - split; [by apply (seq_fresh_keep s)|]. split; [done|]. simpl. lia.
  - split; [by apply (seq_fresh_keep s)|]. split; [done|]. simpl. lia.
  - set (s0 := set_last_OC_factor_inverted (float_recip (last_oc_factor s)) s).
    change (fst (DoState_write s)) with (MoveEvents s0).
    destruct (MoveEvents_fresh s0) as [Hfm Hidm];
      [done|change (event_fifo_id s0) with (event_fifo_id s);
            change (ts_queue s0) with (ts_queue s); lia|].
    rewrite MoveEvents_ts_queue, Hidm.
    change (event_fifo_id s0) with (event_fifo_id s).
    change (ts_queue s0) with (ts_queue s).
    split_and!; try done; simpl; lia.
  - split.
    + apply (seq_fresh_keep s); [done|done|]. intros e He. by apply elem_of_nil in He.
    + split; [done|]. simpl. lia.
  - match goal with |- context [ScheduleEvent ?c ?t ?d ?f ?b s] =>
      destruct (ScheduleEvent_fresh c t d f b s Hf) as (Hf' & Hid & Hl & _); [lia|] end.
    split_and!; try done; lia.
  - destruct (RemoveEvent_frame event_type s) as (_ & Hts & Hid & _).
    rewrite Hts, Hid. split_and!; try done; try lia. by apply RemoveEvent_fresh.
  - unfold RemoveAllEvents.
    destruct (MoveEvents_fresh s Hf) as [Hfm Hidm]; [lia|].
    destruct (RemoveEvent_frame event_type (MoveEvents s)) as (_ & Hts & Hid & _).
    rewrite Hts, Hid, MoveEvents_ts_queue, Hidm.
    split_and!; try done; simpl; try lia. by apply RemoveEvent_fresh.
  - match goal with |- context [ForceExceptionCheck ?c s] =>
      destruct (ForceExceptionCheck_frame c s) as (_ & Hts & Hq & Hid & _) end.
    rewrite Hts, Hid. split_and!; try done; try lia.
    apply (seq_fresh_keep s); [done|done|]. by rewrite Hq.
  - destruct (MoveEvents_fresh s Hf) as [Hfm Hidm]; [lia|].
    rewrite MoveEvents_ts_queue, Hidm. split_and!; try done; simpl; lia.
  - destruct (Advance_fresh K fuel s s' log Hrun Hreg Hf Hn) as (Hts & Hf' & Hid).
    unfold id_step in Hid. rewrite Hts. split_and!; try done; simpl; lia.
  - split; [by apply adjust_fresh|]. split; [done|]. simpl. lia.
  - split; [by apply (seq_fresh_keep s)|]. split; [done|]. simpl. lia.
  - split; [by apply (seq_fresh_keep s)|]. split; [done|]. simpl. lia.
Qed.

Lemma id_budget_mono K fuel calls n m :
  n <= m -> (0 <= id_budget K fuel calls n <= id_budget K fuel calls m)%Z.
Proof.
  revert n m. induction calls as [|c calls IH]; intros n m Hnm; simpl; [lia|].
  specialize (IH (S n) (S m) ltac:(lia)). unfold id_step. lia.
Qed.

(** X26: from a state in which every pending event has a sequence number
    below the counter (the state after [Init] on an empty queue is one),
    this stays so along every script that neither loads a save state nor
    runs [Init] again, callbacks included, as long as the counter cannot
    wrap: the numbers the script can allocate fit below [2 ^ 64]. *)
Theorem seq_fresh_along_script K fuel calls s s' log :
  run_calls fuel calls s = Some (s', log) ->
  existsb resets_sequence calls = false ->
  Forall (registers_bounded K) calls ->
  registry_bounded K s -> seq_fresh s ->
  (event_fifo_id s + id_budget K fuel calls (length (ts_queue s)) < 2 ^ 64)%Z ->
  seq_fresh s'.
Proof.
  revert s s' log. induction calls as [|c calls IH];
    intros s s' log Hrun Hres Hcb Hreg Hf Hn.
  { simpl in Hrun. by injection Hrun as <- <-. }
  simpl in Hrun, Hres, Hn. apply orb_false_iff in Hres as [Hc Hres].
  apply Forall_cons in Hcb as [Hcb1 Hcb].
  destruct (run_call fuel c s) as [[s1 log1]|] eqn:Hcall; [|done].
  destruct (run_calls fuel calls s1) as [[s2 log2]|] eqn:Hrest; [|done].
  injection Hrun as <- <-.
  pose proof (id_budget_mono K fuel calls (length (ts_queue s1))
                (S (length (ts_queue s)))) as Hmono.
  pose proof (id_budget_mono K fuel calls 0 (S (length (ts_queue s))) ltac:(lia)) as H0.
  destruct (run_call_fresh K fuel c s s1 log1 Hcall Hc Hcb1 Hreg Hf) as (Hf1 & Hreg1 & Hid1 & Hl1);
    [lia|].
  apply (IH s1 s2 log2 Hrest Hres Hcb Hreg1 Hf1).
  specialize (Hmono Hl1). lia.
Qed.

(** [Init] on a state without pending events gives such a state. *)
Lemma Init_fresh cfg s :
  event_queue s = [] -> seq_fresh (Init cfg s).
Proof.
  intros Hq. unfold seq_fresh.
  change (event_fifo_id (Init cfg s)) with 0%Z.
  change (event_queue (Init cfg s)) with (event_queue s).
  rewrite Hq. split; [done|constructor].
Qed.

End SequenceNumbers.

Lemma seq_fresh_along_script_witness :
  seq_fresh (fst busy_result).
Proof.
  apply (seq_fresh_along_script 1 6 busy_script_tail (Init no_overclock blank_system)
           (fst busy_result) (snd busy_result)).
  - vm_compute. reflexivity.
  - vm_compute. reflexivity.
  - unfold busy_script_tail, busy_script. simpl.
    repeat (apply Forall_cons; split; [simpl; try done; intros; simpl; lia|]).
    constructor.
  - intros k et data late Hk. revert data late.
    apply (registry_Forall (fun et => forall data late,
             length (callback et data late) <= 1)
             (Init no_overclock blank_system)) with k; [|exact Hk].
    set (entries := map_to_list _). vm_compute in entries. subst entries.
    repeat (apply Forall_cons; split; [intros data late; simpl; lia|]).
    constructor.
  - by apply Init_fresh.
  - vm_compute. reflexivity.
Defined.

(** Without that, the order of a pass can break: after a second [Init]
    with "B" (sequence 0) and "A" (sequence 1) pending at the same
    deadline, the counter is back at zero; the pass dispatches "B", then
    "A", whose callback schedules a "B" with no delay that gets sequence
    number 0 again and is dispatched third, after sequence number 1 at
    the same deadline.  Every callback schedules with a delay of zero or
    more and the queue is a heap. *)
Example Advance_order_after_second_Init :
  is_heap event_gt (event_queue second_init_system) /\
  event_fifo_id second_init_system = 0%Z /\
  (exists s',
      Advance 4 second_init_system
      = Some (s', [mkDispatch (mkEvent 20000 0 5 (Some "B")) 0 true;
                   mkDispatch (mkEvent 20000 1 7 (Some "A")) 0 true;
                   mkDispatch (mkEvent 20000 0 7 (Some "B")) 0 true])) /\
  ~ event_le (mkEvent 20000 1 7 (Some "A")) (mkEvent 20000 0 7 (Some "B")).
Proof.
  split_and!.
  - vm_compute. reflexivity.
  - vm_compute. reflexivity.
  - eexists. vm_compute. reflexivity.
  - vm_compute. discriminate.
Qed.
